(** * GXElementEditor: the editor tree of the scene (elementeditor.js)

    A shallow embedding of [src/infinity/editor/elementeditor.js].

    - Editor objects are records stored in a heap indexed by object
      identity; [_parentEditor] and [_editors] hold identities, so the
      aliasing between a parent's child array and the children's back
      references is the one of the JavaScript object graph.
    - The [__editor__] attachment slot of the scene elements is a finite
      map from element identity to editor identity.
    - The scene graph, the geometry classes and the host editor are
      external collaborators: their methods are the fields of the records
      [Scene] and [Geometry], or section variables.
    - JavaScript numbers are modelled by exact integers ([Z], for the flag
      bitset) and exact rationals ([Q], for coordinates). *)

From Stdlib Require Import ZArith QArith Qround String Lqa.
From stdpp Require Import gmap list strings.

Abbreviation ElementId := nat (only parsing).
Abbreviation EditorId := nat (only parsing).
Abbreviation TypeId := nat (only parsing).

(** ** Outcomes of a call *)

(** What a JavaScript call can throw here: [throw new Error(msg)], or the
    engine's TypeError when a property of [null] is read. *)
Inductive Thrown : Type :=
| JsError (message : string)
| TypeError.

(** [OutOfFuel] only concerns the recursive functions of the embedding. *)
Inductive Outcome (A : Type) : Type :=
| Returns (a : A)
| Throws (t : Thrown)
| OutOfFuel.
Arguments Returns {A} a.
Arguments Throws {A} t.
Arguments OutOfFuel {A}.

Definition bind {A B : Type} (k : A -> Outcome B) (c : Outcome A) : Outcome B :=
  match c with
  | Returns a => k a
  | Throws t => Throws t
  | OutOfFuel => OutOfFuel
  end.

(** Sequencing of calls is written [x ← c; k] below. *)
#[global] Instance Outcome_ret : MRet Outcome := @Returns.
#[global] Instance Outcome_bind : MBind Outcome := @bind.

(** ** Geometry values (external classes, data only) *)

Record GPoint : Type := mkGPoint { getX : Q; getY : Q }.

(** [new GRect(x, y, width, height)] *)
Record GRect : Type := mkGRect { rectX : Q; rectY : Q; rectWidth : Q; rectHeight : Q }.

(** [new GTransform(sx, shy, shx, sy, tx, ty)] *)
Record GTransform : Type := mkGTransform
  { t_sx : Q; t_shy : Q; t_shx : Q; t_sy : Q; t_tx : Q; t_ty : Q }.

(** ** [GXElementEditor.OPTIONS], [GXElementEditor.Flag] *)

Module OPTIONS.
Definition annotationSizeRegular : Q := 6.
Definition annotationSizeSmall : Q := 4.
Definition centerCrossSize : Q := 4.
End OPTIONS.

Module Flag.
Definition Selected : Z := Z.shiftl 1 0.
Definition Highlighted : Z := Z.shiftl 1 1.
Definition Focused : Z := Z.shiftl 1 2.
Definition Detail : Z := Z.shiftl 1 3.
Definition Outline : Z := Z.shiftl 1 4.
End Flag.

(** The five members of [GXElementEditor.Flag], by bit position. *)
Inductive FlagName : Type := FSelected | FHighlighted | FFocused | FDetail | FOutline.

Definition flagBit (f : FlagName) : Z :=
  match f with
  | FSelected => 0 | FHighlighted => 1 | FFocused => 2 | FDetail => 3 | FOutline => 4
  end.

Definition flagValue (f : FlagName) : Z :=
  match f with
  | FSelected => Flag.Selected
  | FHighlighted => Flag.Highlighted
  | FFocused => Flag.Focused
  | FDetail => Flag.Detail
  | FOutline => Flag.Outline
  end.

(** ** External geometry

    [GTransform.multiplied], [GTransform.mapRect], [GRect.expanded],
    [GRect.isEmpty], [GRect.containsPoint], and the element's
    [getGeometryBBox()]. *)
Record Geometry : Type := mkGeometry {
  multiplied : GTransform -> GTransform -> GTransform;
  mapRect : GTransform -> GRect -> GRect;
  expanded : GRect -> Q -> Q -> Q -> Q -> GRect;
  isEmpty : GRect -> bool;
  containsPoint : GRect -> GPoint -> bool;
  getGeometryBBox : ElementId -> GRect
}.

(** ** The scene (external)

    The scene element contract as this file uses it: [getParent()],
    [getNext()], [isAttached()] and [GObject.getTypeId(element)]. None of
    the functions below changes the scene graph. *)
Record Scene : Type := mkScene {
  getParent : ElementId -> option ElementId;
  getNext : ElementId -> option ElementId;
  isAttached : ElementId -> bool;
  getTypeId : ElementId -> TypeId
}.

Section Editor.
(** Part ids are opaque values compared by [===] ([_partIdAreEqual]). *)
Context {PartId : Type} `{EqDecision PartId}.

(** ** The editor object *)

Record GXElementEditor : Type := mkEditor {
  _element : ElementId;
  _elementPreview : option ElementId;
  _flags : Z;
  _transform : option GTransform;
  _parentEditor : option EditorId;
  _editors : option (list EditorId);
  _partSelection : option (list PartId)
}.

(** [new GXElementEditor(element)]: the constructor sets [_element], the
    other fields come from the prototype. *)
Definition newEditor (element : ElementId) : GXElementEditor :=
  {| _element := element; _elementPreview := None; _flags := 0;
     _transform := None; _parentEditor := None; _editors := None;
     _partSelection := None |}.

Definition with_flags (flags : Z) (this : GXElementEditor) : GXElementEditor :=
  {| _element := _element this; _elementPreview := _elementPreview this;
     _flags := flags; _transform := _transform this;
     _parentEditor := _parentEditor this; _editors := _editors this;
     _partSelection := _partSelection this |}.

Definition with_transform (t : option GTransform) (this : GXElementEditor)
  : GXElementEditor :=
  {| _element := _element this; _elementPreview := _elementPreview this;
     _flags := _flags this; _transform := t;
     _parentEditor := _parentEditor this; _editors := _editors this;
     _partSelection := _partSelection this |}.

Definition with_parentEditor (p : option EditorId) (this : GXElementEditor)
  : GXElementEditor :=
  {| _element := _element this; _elementPreview := _elementPreview this;
     _flags := _flags this; _transform := _transform this;
     _parentEditor := p; _editors := _editors this;
     _partSelection := _partSelection this |}.

Definition with_editors (l : option (list EditorId)) (this : GXElementEditor)
  : GXElementEditor :=
  {| _element := _element this; _elementPreview := _elementPreview this;
     _flags := _flags this; _transform := _transform this;
     _parentEditor := _parentEditor this; _editors := l;
     _partSelection := _partSelection this |}.

Definition with_partSelection (s : option (list PartId)) (this : GXElementEditor)
  : GXElementEditor :=
  {| _element := _element this; _elementPreview := _elementPreview this;
     _flags := _flags this; _transform := _transform this;
     _parentEditor := _parentEditor this; _editors := _editors this;
     _partSelection := s |}.

(** ** The host: what the editor calls out to

    [requestInvalidation] forwards [this] to the scene's editor, and
    [applyTransform] calls [element.transform]. Every such call is
    recorded, in order; an invalidation request records the editor as it
    is when the request is made (the extent the host will see). *)
Inductive HostCall : Type :=
| RequestInvalidation (editor : GXElementEditor)
| ElementTransform (element : ElementId) (t : GTransform).

Definition Host : Type := list HostCall.

Definition isInvalidation (c : HostCall) : bool :=
  match c with RequestInvalidation _ => true | ElementTransform _ _ => false end.

Definition isElementTransform (c : HostCall) : bool :=
  match c with RequestInvalidation _ => false | ElementTransform _ _ => true end.

(** Every call of [requestInvalidation] in this file passes no [args]. *)
Definition requestInvalidation (this : GXElementEditor) (host : Host) : Host :=
  host ++ [RequestInvalidation this].

(** ** Flags *)

Definition hasFlag (flag : Z) (this : GXElementEditor) : bool :=
  negb (Z.land (_flags this) flag =? 0)%Z.

Definition setFlag (flag : Z) (this : GXElementEditor) (host : Host)
  : GXElementEditor * Host :=
  if (Z.land (_flags this) flag =? 0)%Z then
    let host := requestInvalidation this host in
    let this := with_flags (Z.lor (_flags this) flag) this in
    let host := requestInvalidation this host in
    (this, host)
  else (this, host).

Definition removeFlag (flag : Z) (this : GXElementEditor) (host : Host)
  : GXElementEditor * Host :=
  if negb (Z.land (_flags this) flag =? 0)%Z then
    let host := requestInvalidation this host in
    let this := with_flags (Z.land (_flags this) (Z.lnot flag)) this in
    let host := requestInvalidation this host in
    (this, host)
  else (this, host).

Definition getElement (this : GXElementEditor) : ElementId := _element this.

Definition getPaintElement (this : GXElementEditor) : ElementId :=
  match _elementPreview this with
  | Some preview => preview
  | None => _element this
  end.

Definition getParentEditor (this : GXElementEditor) : option EditorId :=
  _parentEditor this.

Definition getEditors (this : GXElementEditor) : option (list EditorId) :=
  _editors this.

(** ** Transform staging *)

Section Transform.
(** [GTransform.prototype.isIdentity] and the static
    [GTransform.equals] (which accepts [null]) are external. *)
Variable isIdentity : GTransform -> bool.
Variable GTransform_equals : option GTransform -> option GTransform -> bool.

Definition transform (t : GTransform) (this : GXElementEditor) (host : Host)
  : GXElementEditor * Host :=
  if negb (GTransform_equals (_transform this) (Some t)) then
    let '(this, host) :=
      if negb (hasFlag Flag.Outline this) then setFlag Flag.Outline this host
      else (this, requestInvalidation this host) in
    let this := with_transform (Some t) this in
    (this, requestInvalidation this host)
  else (this, host).

Definition resetTransform (this : GXElementEditor) (host : Host)
  : GXElementEditor * Host :=
  let host :=
    match _transform this with
    | Some t => if negb (isIdentity t) then requestInvalidation this host else host
    | None => host
    end in
  let this := with_transform None this in
  removeFlag Flag.Outline this host.

(** [this._transform.isIdentity()] reads a property of [this._transform]:
    a TypeError when it is [null]. *)
Definition applyTransform (element : ElementId) (this : GXElementEditor)
  (host : Host) : Outcome (GXElementEditor * Host) :=
  match _transform this with
  | None => Throws TypeError
  | Some t =>
      let host :=
        if negb (isIdentity t) then host ++ [ElementTransform element t]
        else host in
      Returns (resetTransform this host)
  end.
End Transform.

(** ** Part selection *)

Definition _partIdAreEqual (a b : PartId) : bool := bool_decide (a = b).

(** The index of the first equal entry, [None] for the source's [-1]. *)
Fixpoint indexFrom (i : nat) (array : list PartId) (partId : PartId) : option nat :=
  match array with
  | [] => None
  | x :: rest =>
      if _partIdAreEqual x partId then Some i else indexFrom (S i) rest partId
  end.

Definition _indexOfPartId (array : option (list PartId)) (partId : PartId)
  : option nat :=
  match array with
  | Some l => if (0 <? length l)%nat then indexFrom 0 l partId else None
  | None => None
  end.

Definition isPartSelected (partId : PartId) (this : GXElementEditor) : bool :=
  bool_decide (is_Some (_indexOfPartId (_partSelection this) partId)).

Definition getPartSelection (this : GXElementEditor) : option (list PartId) :=
  _partSelection this.

Definition _updatePartSelection (selection : option (list PartId))
  (this : GXElementEditor) (host : Host) : GXElementEditor * Host :=
  let host := requestInvalidation this host in
  let this := with_partSelection selection this in
  let host := requestInvalidation this host in
  (this, host).

(** The first loop of the toggle branch: previous ids not in [selection]. *)
Definition keepUntoggled (selection previous : list PartId) : list PartId :=
  List.filter
    (fun id => negb (bool_decide (is_Some (_indexOfPartId (Some selection) id))))
    previous.

(** The second loop: ids of [selection] not in the previous selection. *)
Definition addNew (previous selection : list PartId) : list PartId :=
  List.filter
    (fun id => negb (bool_decide (is_Some (_indexOfPartId (Some previous) id))))
    selection.

Section PartSelection.
(** [gUtil.equals(a, b, false)] on two selections; external. *)
Variable gUtil_equals : option (list PartId) -> option (list PartId) -> bool.

Definition updatePartSelection (toggle : bool) (selection : option (list PartId))
  (this : GXElementEditor) (host : Host) : GXElementEditor * Host :=
  if hasFlag Flag.Selected this then
    let newSelection :=
      match toggle, _partSelection this with
      | true, Some previous =>
          match selection with
          | Some sel =>
              match keepUntoggled sel previous ++ addNew previous sel with
              | [] => None
              | l => Some l
              end
          | None => None
          end
      | _, _ =>
          match selection with
          | Some sel => if (0 <? length sel)%nat then Some sel else None
          | None => None
          end
      end in
    if negb (gUtil_equals newSelection (_partSelection this)) then
      _updatePartSelection newSelection this host
    else (this, host)
  else (this, host).
End PartSelection.

(** ** Annotations *)

Section Annotation.
(** [GTransform.prototype.mapPoint] is external. *)
Variable mapPoint : GTransform -> GPoint -> GPoint.

(** The paint context ([GXPaintContext]) is external; a call that
    draws would return a changed context. *)
Context {PaintContext : Type}.

Definition _getAnnotationBBox (transform : option GTransform) (center : GPoint)
  (small : bool) (context : PaintContext) : GRect * PaintContext :=
  let center :=
    match transform with
    | Some t => mapPoint t center
    | None => center
    end in
  let size :=
    if small then OPTIONS.annotationSizeSmall else OPTIONS.annotationSizeRegular in
  let cx := (inject_Z (Qfloor (getX center)) + (1 # 2))%Q in
  let cy := (inject_Z (Qfloor (getY center)) + (1 # 2))%Q in
  (mkGRect (cx - size / 2 - 1)%Q (cy - size / 2 - 1)%Q (size + 2)%Q (size + 2)%Q,
   context).
End Annotation.

Definition _showAnnotations (this : GXElementEditor) : bool :=
  hasFlag Flag.Selected this && negb (hasFlag Flag.Outline this).

(** ** The object store

    [heap] holds the editor objects, [attachment] the [__editor__] slot of
    the elements that have one, [_Editors] the registry filled by
    [GXElementEditor.exports] (type id of the node class to editor
    class). *)
Record World : Type := mkWorld {
  heap : gmap EditorId GXElementEditor;
  attachment : gmap ElementId EditorId;
  _Editors : gmap TypeId nat
}.

Definition with_heap (h : gmap EditorId GXElementEditor) (w : World) : World :=
  {| heap := h; attachment := attachment w; _Editors := _Editors w |}.

Definition with_attachment (a : gmap ElementId EditorId) (w : World) : World :=
  {| heap := heap w; attachment := a; _Editors := _Editors w |}.

Definition with_Editors (r : gmap TypeId nat) (w : World) : World :=
  {| heap := heap w; attachment := attachment w; _Editors := r |}.

(** Reading a field of the object [i]. Every identity a program holds
    names an object; the store of the embedding answers an identity it
    does not hold like a [null] receiver. *)
Definition deref (w : World) (i : EditorId) : Outcome GXElementEditor :=
  match heap w !! i with
  | Some o => Returns o
  | None => Throws TypeError
  end.

Definition store (i : EditorId) (o : GXElementEditor) (w : World) : World :=
  with_heap (<[i := o]> (heap w)) w.

(** [Array.prototype.indexOf] on an array of editors, [None] for [-1]. *)
Fixpoint indexOf (array : list EditorId) (x : EditorId) : option nat :=
  match array with
  | [] => None
  | y :: rest => if decide (y = x) then Some 0 else S <$> indexOf rest x
  end.

(** [array.splice(index, 0, x)] and [array.splice(index, 1)] *)
Definition spliceIn (index : nat) (x : EditorId) (array : list EditorId)
  : list EditorId :=
  take index array ++ x :: drop index array.

Definition spliceOut (index : nat) (array : list EditorId) : list EditorId :=
  take index array ++ drop (S index) array.

(** *** Structural primitives *)

Definition insertEditor (this editor : EditorId) (referenceEditor : option EditorId)
  (w : World) : Outcome World :=
  this_ ← deref w this;
  let index :=
    match _editors this_ with Some l => length l | None => 0 end in
  index ←
    match referenceEditor with
    | Some reference =>
        match _editors this_ with
        | None => Throws TypeError
        | Some l =>
            match indexOf l reference with
            | Some i => Returns i
            | None => Throws (JsError "Unknown reference editor.")
            end
        end
    | None => Returns index
    end;
  editor_ ← deref w editor;
  match _parentEditor editor_ with
  | Some _ => Throws (JsError "Editor already appended.")
  | None =>
      let l := match _editors this_ with Some l => l | None => [] end in
      let l :=
        if (length l <=? index)%nat then l ++ [editor]
        else spliceIn index editor l in
      let w := store this (with_editors (Some l) this_) w in
      editor_ ← deref w editor;
      Returns (store editor (with_parentEditor (Some this) editor_) w)
  end.

Definition appendEditor (this editor : EditorId) (w : World) : Outcome World :=
  insertEditor this editor None w.

Definition removeEditor (this editor : EditorId) (w : World) : Outcome World :=
  this_ ← deref w this;
  match _editors this_ with
  | None => Throws TypeError
  | Some l =>
      match indexOf l editor with
      | None => Throws (JsError "Unknown editor.")
      | Some index =>
          let w := store this (with_editors (Some (spliceOut index l)) this_) w in
          editor_ ← deref w editor;
          Returns (store editor (with_parentEditor None editor_) w)
      end
  end.

(** *** Registry *)

Definition exports (editorClass : nat) (nodeClass : TypeId) (w : World) : World :=
  with_Editors (<[nodeClass := editorClass]> (_Editors w)) w.

Definition getEditor (w : World) (element : ElementId) : option EditorId :=
  attachment w !! element.

Section Scene.
Variable scene : Scene.

(** [new editorClass(element)] allocates an object. *)
Definition createEditor (element : ElementId) (w : World)
  : option EditorId * World :=
  match _Editors w !! getTypeId scene element with
  | Some editorClass =>
      let editor := fresh (dom (heap w)) in
      (Some editor, store editor (newEditor element) w)
  | None => (None, w)
  end.

(** The inner loop of [openEditor]: the editor of the first following
    sibling that has one. *)
Fixpoint findReference (fuel : nat) (nextNode : option ElementId) (w : World)
  : Outcome (option EditorId) :=
  match nextNode with
  | None => Returns None
  | Some node =>
      match fuel with
      | O => OutOfFuel
      | S fuel =>
          match getEditor w node with
          | Some nextEditor => Returns (Some nextEditor)
          | None => findReference fuel (getNext scene node) w
          end
      end
  end.

(** The outer loop of [openEditor] over the ancestors; [open] is the
    recursive call [GXElementEditor.openEditor(parentNode)]. *)
Fixpoint linkToAncestor (open : ElementId -> World -> Outcome (option EditorId * World))
  (fuel : nat) (editor : EditorId) (element : ElementId)
  (parentNode : option ElementId) (w : World) : Outcome World :=
  match parentNode with
  | None => Returns w
  | Some node =>
      match fuel with
      | O => OutOfFuel
      | S fuel =>
          '(parentEditor, w) ←
            match getEditor w node with
            | Some parentEditor => Returns (Some parentEditor, w)
            | None => open node w
            end;
          match parentEditor with
          | Some parentEditor =>
              referenceEditor ← findReference fuel (getNext scene element) w;
              insertEditor parentEditor editor referenceEditor w
          | None => linkToAncestor open fuel editor element (getParent scene node) w
          end
      end
  end.

Fixpoint openEditor (fuel : nat) (element : ElementId) (w : World)
  : Outcome (option EditorId * World) :=
  match fuel with
  | O => OutOfFuel
  | S fuel =>
      if negb (isAttached scene element) then
        Throws (JsError "Node is not attached to create an editor for.")
      else
        match getEditor w element with
        | Some editor => Returns (Some editor, w)
        | None =>
            match createEditor element w with
            | (None, w) => Returns (None, w)
            | (Some editor, w) =>
                w ← linkToAncestor (openEditor fuel) fuel editor element
                      (getParent scene element) w;
                (* editor._attach() does nothing *)
                Returns (Some editor,
                         with_attachment (<[element := editor]> (attachment w)) w)
            end
        end
  end.

(** The loop of [closeEditor] over [editors]: the array is the one the
    editor [owner] holds ([_editors] is assigned once, and spliced in
    place afterwards), so each round reads its current length and its
    current entry [i]. *)
Fixpoint closeChildren (close : ElementId -> World -> Outcome World)
  (fuel : nat) (owner : EditorId) (i : nat) (w : World) : Outcome World :=
  match fuel with
  | O => OutOfFuel
  | S fuel =>
      owner_ ← deref w owner;
      match _editors owner_ with
      | None => Throws TypeError
      | Some editors =>
          match editors !! i with
          | None => Returns w
          | Some child =>
              child_ ← deref w child;
              w ← close (getElement child_) w;
              closeChildren close fuel owner (S i) w
          end
      end
  end.

Fixpoint closeEditor (fuel : nat) (element : ElementId) (w : World)
  : Outcome World :=
  match fuel with
  | O => OutOfFuel
  | S fuel =>
      match getEditor w element with
      | None => Returns w
      | Some elementEditor =>
          match _Editors w !! getTypeId scene element with
          | None => Returns w
          | Some editorClass =>
              elementEditor_ ← deref w elementEditor;
              w ←
                match getEditors elementEditor_ with
                | Some _ => closeChildren (closeEditor fuel) fuel elementEditor 0 w
                | None => Returns w
                end;
              elementEditor_ ← deref w elementEditor;
              w ←
                match getParentEditor elementEditor_ with
                | Some parentEditor => removeEditor parentEditor elementEditor w
                | None => Returns w
                end;
              (* elementEditor._detach() does nothing *)
              Returns (with_attachment (delete element (attachment w)) w)
          end
      end
  end.

(** A sequence of [openEditor] calls, results dropped. *)
Fixpoint openAll (fuel : nat) (elements : list ElementId) (w : World)
  : Outcome World :=
  match elements with
  | [] => Returns w
  | element :: rest =>
      '(_, w) ← openEditor fuel element w;
      openAll fuel rest w
  end.
End Scene.

(** ** Hit testing *)

Section HitTest.
(** Editor-specific part values returned by the [_getPartInfoAt] hook. *)
Context {Part : Type}.

Variable geometry : Geometry.

(** The hook [_getPartInfoAt] that concrete editors override (the base
    one returns [null]), dispatched on the receiver. *)
Variable _getPartInfoAt : EditorId -> GXElementEditor -> GPoint -> GTransform -> option Part.

Definition getBBox (this : GXElementEditor) (transform : GTransform)
  : option GRect :=
  if hasFlag Flag.Selected this || hasFlag Flag.Highlighted this then
    let targetTransform :=
      match _transform this with
      | Some staged => multiplied geometry staged transform
      | None => transform
      end in
    Some (expanded geometry
            (mapRect geometry targetTransform
               (getGeometryBBox geometry (getPaintElement this)))
            1 1 1 1)
  else None.

(** [invalidate(transform, args)] for a request without [args]. *)
Definition invalidate (this : GXElementEditor) (transform : GTransform)
  : option GRect :=
  getBBox this transform.

(** What a hit test does to an editor, in order: a call of the
    acceptor on it, and a call of its [_getPartInfoAt] hook. *)
Inductive Probe : Type :=
| AcceptorCall (editor : EditorId)
| PartLookup (editor : EditorId).

(** [acceptor], when given, maps an editor to whether its answer is
    [=== true]. *)
Variable acceptor : option (EditorId -> GXElementEditor -> bool).
Variable location : GPoint.
Variable transform : GTransform.

(** The loop [for (i = length - 1; i >= 0; --i)] with [n = i + 1];
    [hit] is the recursive call on [this._editors[i]]. *)
Fixpoint hitChildren (hit : EditorId -> Outcome (option Part * list Probe))
  (editors : list EditorId) (n : nat) : Outcome (option Part * list Probe) :=
  match n with
  | O => Returns (None, [])
  | S i =>
      match editors !! i with
      | None => Throws TypeError
      | Some child =>
          '(result, probes) ← hit child;
          match result with
          | Some part => Returns (Some part, probes)
          | None =>
              '(result, later) ← hitChildren hit editors i;
              Returns (result, probes ++ later)
          end
      end
  end.

(** The part of [getPartInfoAt] after the loop over the sub editors. *)
Definition hitSelf (this : EditorId) (this_ : GXElementEditor)
  : option Part * list Probe :=
  let accepted :=
    match acceptor with
    | Some f => (f this this_, [AcceptorCall this])
    | None => (true, [])
    end in
  if negb (fst accepted) then (None, snd accepted)
  else
    match getBBox this_ transform with
    | Some bbox =>
        if negb (isEmpty geometry bbox) && containsPoint geometry bbox location then
          (_getPartInfoAt this this_ location transform,
           snd accepted ++ [PartLookup this])
        else (None, snd accepted)
    | None => (None, snd accepted)
    end.

Fixpoint getPartInfoAt (fuel : nat) (w : World) (this : EditorId)
  : Outcome (option Part * list Probe) :=
  match fuel with
  | O => OutOfFuel
  | S fuel =>
      this_ ← deref w this;
      '(result, probes) ←
        match _editors this_ with
        | Some editors =>
            hitChildren (getPartInfoAt fuel w) editors (length editors)
        | None => Returns (None, [])
        end;
      match result with
      | Some part => Returns (Some part, probes)
      | None =>
          let '(result, own) := hitSelf this this_ in
          Returns (result, probes ++ own)
      end
  end.
End HitTest.

End Editor.

(** * Visiting, the base part lookup and the annotations *)

(** The members of the prototype that concrete editors override. *)
Module Prototype.
(** The base [_getPartInfoAt(location, transform)]: no part. *)
Definition _getPartInfoAt {PartId Part : Type} (this : EditorId)
    (this_ : @GXElementEditor PartId) (location : GPoint) (transform : GTransform)
  : option Part :=
  None.
End Prototype.

Section Visiting.
Context {PartId : Type}.

(** ** [accept(visitor)]

    The visitor is a function of the caller: it gets the editor, may
    change a state [St] of its own, and its answer is compared with
    [false]. The boolean below is that comparison ([true]: the answer
    [=== false], the visit is cancelled). The visitor does not change the
    editor tree. *)
Context {St : Type}.
Variable visitor : EditorId -> @GXElementEditor PartId -> St -> bool * St.

(** The loop over [this._editors]; [accept] is the recursive call on
    [this._editors[i]]. The result is the one of [accept]: [false] when
    cancelled. *)
Fixpoint acceptEach (accept : EditorId -> St -> Outcome (bool * St))
  (editors : list EditorId) (s : St) : Outcome (bool * St) :=
  match editors with
  | [] => Returns (true, s)
  | child :: rest =>
      '(went, s) ← accept child s;
      if negb went then Returns (false, s) else acceptEach accept rest s
  end.

Fixpoint accept (fuel : nat) (w : @World PartId) (this : EditorId) (s : St)
  : Outcome (bool * St) :=
  match fuel with
  | O => OutOfFuel
  | S fuel =>
      this_ ← deref w this;
      let '(cancelled, s) := visitor this this_ s in
      if cancelled then Returns (false, s)
      else
        match _editors this_ with
        | Some editors => acceptEach (accept fuel w) editors s
        | None => Returns (true, s)
        end
  end.
End Visiting.

(** ** Annotation templates and painting *)

(** [GXElementEditor.Annotation] *)
Module Annotation.
Definition Rectangle : Z := 0.
Definition Circle : Z := 1.
Definition Diamond : Z := 2.
End Annotation.

(** [GXVertex.Command], as far as this file uses it. *)
Inductive Command : Type := Move | Line | Curve | Close.

(** What [addVertex(command, x, y)] adds to a vertex container;
    [addVertex(Close)] passes no coordinates. *)
Definition Vertex : Type := (Command * option (Q * Q))%type.

Definition addVertex (command : Command) (x y : Q) (vertices : list Vertex)
  : list Vertex :=
  vertices ++ [(command, Some (x, y))].

Definition addVertexClose (vertices : list Vertex) : list Vertex :=
  vertices ++ [(Close, None)].

Record AnnotationTemplate : Type := mkAnnotationTemplate {
  vertices : list Vertex;
  scaleFactor : Q
}.

Section Painting.
(** [GTransform.prototype.mapPoint], the value of
    [Math.cos(Math.PI / 4)] and [gColor.build] are external. *)
Variable mapPoint : GTransform -> GPoint -> GPoint.
Variable cos_quarter_pi : Q.
Context {Color : Type}.
Variable gColor_build : Z -> Z -> Z -> Color.

(** The body of [if (!annotationTemplate)]: the template that is built
    for [annotation]. The [switch] has no default case. *)
Definition newAnnotationTemplate (annotation : Z) : AnnotationTemplate :=
  let vertices : list Vertex := [] in
  let scaleFactor : Q := 1%Q in
  if (annotation =? Annotation.Rectangle)%Z then
    let vertices := addVertex Move (-1) (-1) vertices in
    let vertices := addVertex Line 1 (-1) vertices in
    let vertices := addVertex Line 1 1 vertices in
    let vertices := addVertex Line (-1) 1 vertices in
    let vertices := addVertexClose vertices in
    mkAnnotationTemplate vertices scaleFactor
  else if (annotation =? Annotation.Circle)%Z then
    let vertices := addVertex Move (-1) 0 vertices in
    let vertices := addVertex Curve 0 (-1) vertices in
    let vertices := addVertex Curve (-1) (-1) vertices in
    let vertices := addVertex Curve 1 0 vertices in
    let vertices := addVertex Curve 1 (-1) vertices in
    let vertices := addVertex Curve 0 1 vertices in
    let vertices := addVertex Curve 1 1 vertices in
    let vertices := addVertex Curve (-1) 0 vertices in
    let vertices := addVertex Curve (-1) 1 vertices in
    mkAnnotationTemplate vertices scaleFactor
  else if (annotation =? Annotation.Diamond)%Z then
    let vertices := addVertex Move (-1) 0 vertices in
    let vertices := addVertex Line 0 (-1) vertices in
    let vertices := addVertex Line 1 0 vertices in
    let vertices := addVertex Line 0 1 vertices in
    let vertices := addVertexClose vertices in
    let scaleFactor := cos_quarter_pi in
    mkAnnotationTemplate vertices scaleFactor
  else mkAnnotationTemplate vertices scaleFactor.

(** [_getAnnotationTemplate(annotation)] over the table
    [_annotationTemplates] of the templates built so far. *)
Definition _getAnnotationTemplate (annotation : Z)
  (_annotationTemplates : gmap Z AnnotationTemplate)
  : AnnotationTemplate * gmap Z AnnotationTemplate :=
  match _annotationTemplates !! annotation with
  | Some annotationTemplate => (annotationTemplate, _annotationTemplates)
  | None =>
      let annotationTemplate := newAnnotationTemplate annotation in
      (annotationTemplate, <[annotation := annotationTemplate]> _annotationTemplates)
  end.

(** The calls a canvas receives; [PutVertices source t] stands for
    [putVertices(new GXVertexTransformer(source, t))]. *)
Inductive CanvasCall : Type :=
| PutVertices (source : list Vertex) (t : GTransform)
| FillVertices (color : Color)
| StrokeVertices (color : Color) (width : Q).

(** The paint context: its outline colour, and the calls its canvas
    has received. *)
Record GXPaintContext : Type := mkPaintContext {
  selectionOutlineColor : Color;
  canvas : list CanvasCall
}.

Definition _paintAnnotation (context : GXPaintContext) (transform : option GTransform)
  (center : GPoint) (annotation : Z) (selected small : bool)
  (_annotationTemplates : gmap Z AnnotationTemplate)
  : GXPaintContext * gmap Z AnnotationTemplate :=
  let '(annotationTemplate, _annotationTemplates) :=
    _getAnnotationTemplate annotation _annotationTemplates in
  let center :=
    match transform with
    | Some t => mapPoint t center
    | None => center
    end in
  let size :=
    if small then OPTIONS.annotationSizeSmall else OPTIONS.annotationSizeRegular in
  let fillColor := selectionOutlineColor context in
  let strokeColor := gColor_build 255 255 255 in
  let '(fillColor, strokeColor) :=
    if selected then (strokeColor, selectionOutlineColor context)
    else (fillColor, strokeColor) in
  let cx := (inject_Z (Qfloor (getX center)) + (if selected then 1 # 2 else 0))%Q in
  let cy := (inject_Z (Qfloor (getY center)) + (if selected then 1 # 2 else 0))%Q in
  let sx := (size / 2 / scaleFactor annotationTemplate)%Q in
  let sy := (size / 2 / scaleFactor annotationTemplate)%Q in
  let calls :=
    [PutVertices (vertices annotationTemplate) (mkGTransform sx 0 0 sy cx cy);
     FillVertices fillColor]
    ++ (if selected then [StrokeVertices strokeColor 1] else []) in
  (mkPaintContext (selectionOutlineColor context) (canvas context ++ calls),
   _annotationTemplates).
End Painting.

(** * Vocabulary of the properties *)

Section Vocabulary.
Context {PartId : Type} `{EqDecision PartId}.
Implicit Types (w : @World PartId).

(** ** Part selections *)

(** The ids of a selection, [null] being the empty selection. *)
Definition selectedIds (s : option (list PartId)) : list PartId :=
  match s with Some l => l | None => [] end.

(** An empty array collapses to [null]. *)
Definition nonEmpty (l : list PartId) : option (list PartId) :=
  match l with [] => None | _ => Some l end.

(** The selection a toggle with the ids [S] computes from [current],
    before it is compared with [current]. *)
Definition toggled (S : list PartId) (current : option (list PartId))
  : option (list PartId) :=
  match current with
  | Some previous =>
      nonEmpty (filter (λ id, id ∉ S) previous ++ filter (λ id, id ∉ previous) S)
  | None => nonEmpty S
  end.

(** ** Reading the store *)

Definition childrenOf w (i : EditorId) : list EditorId :=
  match heap w !! i with
  | Some o => match _editors o with Some l => l | None => [] end
  | None => []
  end.

Definition parentOf w (i : EditorId) : option EditorId :=
  match heap w !! i with
  | Some o => _parentEditor o
  | None => None
  end.

Definition elementOf w (i : EditorId) : option ElementId :=
  match heap w !! i with
  | Some o => Some (_element o)
  | None => None
  end.

(** [l'] is [l] with [editor] put immediately before the first [r] when
    [ref] is [Some r], and at the end when [ref] is [None]. *)
Definition inserted (editor : EditorId) (ref : option EditorId) (l l' : list EditorId)
  : Prop :=
  match ref with
  | Some r => ∃ before after,
      l = before ++ r :: after ∧ r ∉ before ∧ l' = before ++ editor :: r :: after
  | None => l' = l ++ [editor]
  end.

(** Every identity the store holds names an object of the store. *)
Definition closed w : Prop :=
  (∀ el e, attachment w !! el = Some e → e ∈ dom (heap w))
  ∧ (∀ j c, c ∈ childrenOf w j → c ∈ dom (heap w))
  ∧ (∀ j p, parentOf w j = Some p → p ∈ dom (heap w)).

(** No slot, child array or back reference holds [x]. *)
Definition unreferenced w (x : EditorId) : Prop :=
  (∀ el, attachment w !! el ≠ Some x)
  ∧ (∀ j, x ∉ childrenOf w j)
  ∧ (∀ j, parentOf w j ≠ Some x).

(** The editor [e] was made for [el] and linked at most once: it is
    nobody's parent, and a child (once) of its [_parentEditor] only. *)
Definition freshly_linked (el : ElementId) (e : EditorId) w : Prop :=
  (∀ j, parentOf w j ≠ Some e)
  ∧ ∃ p, heap w !! e = Some (with_parentEditor p (newEditor el))
         ∧ (∀ j, e ∈ childrenOf w j → p = Some j)
         ∧ (∀ pe, p = Some pe →
              ∃ before after, childrenOf w pe = before ++ e :: after
                              ∧ e ∉ before ∧ e ∉ after).

Record open_post (el : ElementId) w (r : option EditorId) w' : Prop := {
  op_closed : closed w';
  op_dom : dom (heap w) ⊆ dom (heap w');
  op_registry : _Editors w' = _Editors w;
  op_frame : ∀ x, x ∈ dom (heap w) → unreferenced w x →
             unreferenced w' x ∧ heap w' !! x = heap w !! x;
  op_slot : ∀ e, r = Some e → attachment w' !! el = Some e;
  op_new : getEditor w el = None → ∀ e, r = Some e →
           e ∉ dom (heap w) ∧ freshly_linked el e w'
}.

(** The child array of [i], when it has one. *)
Definition arrayOf w (i : EditorId) : option (list EditorId) :=
  match heap w !! i with
  | Some o => _editors o
  | None => None
  end.

(** A store without dangling identity in which a back reference points
    to an editor that lists its holder, and the element of a sub editor
    is attached to that sub editor if to any. *)
Definition tidy w : Prop :=
  closed w
  ∧ (∀ c p, parentOf w c = Some p → c ∈ childrenOf w p)
  ∧ (∀ p c el e, c ∈ childrenOf w p → elementOf w c = Some el →
                 getEditor w el = Some e → e = c).

(** [w'] has the objects of [w], with child arrays and slots that only
    lost entries. *)
Definition shrinks w w' : Prop :=
  dom (heap w') = dom (heap w)
  ∧ _Editors w' = _Editors w
  ∧ (∀ el e, getEditor w' el = Some e → getEditor w el = Some e)
  ∧ (∀ j x, x ∈ childrenOf w' j → x ∈ childrenOf w j)
  ∧ (∀ j, length (childrenOf w' j) ≤ length (childrenOf w j))
  ∧ (∀ j, elementOf w' j = elementOf w j)
  ∧ (∀ j, is_Some (arrayOf w j) → is_Some (arrayOf w' j)).
(** ** Document order *)

Section SceneVocabulary.
Variable scene : Scene.

(** [l] lists the elements reached from [first] along [getNext()], up to
    the last one: document order of a run of siblings. *)
Fixpoint linked (first : option ElementId) (l : list ElementId) : Prop :=
  match l with
  | [] => first = None
  | c :: rest => first = Some c ∧ linked (getNext scene c) rest
  end.

(** The editors attached to the elements of [l], in the order of [l]. *)
Fixpoint editorsIn w (l : list ElementId) : list EditorId :=
  match l with
  | [] => []
  | c :: rest =>
      match getEditor w c with
      | Some e => e :: editorsIn w rest
      | None => editorsIn w rest
      end
  end.

(** The editor of [parent] lists the editors of [siblings] in document
    order (among whatever else it lists). *)
Definition in_document_order w (parent : ElementId) (siblings : list ElementId)
  : Prop :=
  ∃ pe, getEditor w parent = Some pe
        ∧ filter (λ x, x ∈ editorsIn w siblings) (childrenOf w pe)
          = editorsIn w siblings.

(** The part of the store that [openEditor] relies on below [parent]: the
    parent's editor and the entries of its child array are objects of the
    store, and the editor attached to a sibling is an editor of that
    sibling. *)
Definition siblings_attached w (parent : ElementId) (siblings : list ElementId)
  : Prop :=
  (∀ pe, getEditor w parent = Some pe →
     is_Some (heap w !! pe) ∧ ∀ x, x ∈ childrenOf w pe → x ∈ dom (heap w))
  ∧ (∀ c e, c ∈ siblings → getEditor w c = Some e → elementOf w e = Some c).
End SceneVocabulary.

(** ** Finite editor trees, hit tests *)

(** The editors below [i] form a tree of height less than [n]. *)
Fixpoint finite_below w (n : nat) (i : EditorId) : Prop :=
  match n with
  | O => False
  | S n => is_Some (heap w !! i) ∧ Forall (finite_below w n) (childrenOf w i)
  end.

(** Every listed child misses, with the listed probes. *)
Definition all_miss {Part : Type} (hit : EditorId → Outcome (option Part * list Probe))
    (children : list EditorId) (probes : list (list Probe)) : Prop :=
  Forall2 (λ c p, hit c = Returns (None, p)) children probes.
End Vocabulary.

(** The pixel centre of the pixel that holds [q]. *)
Definition snapped (q : Q) : Q := (inject_Z (Qfloor q) + (1 # 2))%Q.

(** * Vocabulary of the further properties *)

Section MoreVocabulary.
Context {PartId : Type}.
Implicit Types (w : @World PartId).

(** ** Editor trees *)

(** The editors of the tree below [i] down to depth [n], each before its
    sub editors, the sub editors in the order of the array. *)
Fixpoint preorder w (n : nat) (i : EditorId) : list EditorId :=
  match n with
  | O => []
  | S n => i :: concat (preorder w n <$> childrenOf w i)
  end.

(** Calling the visitor on the editors of [l] in turn, up to the first
    call that cancels; [true] when none did. An identity that names no
    object of the store is passed over. *)
Fixpoint visitInTurn {St : Type}
    (visitor : EditorId -> @GXElementEditor PartId -> St -> bool * St)
    w (l : list EditorId) (s : St) : bool * St :=
  match l with
  | [] => (true, s)
  | i :: rest =>
      match heap w !! i with
      | Some i_ =>
          let '(cancelled, s) := visitor i i_ s in
          if cancelled then (false, s) else visitInTurn visitor w rest s
      | None => visitInTurn visitor w rest s
      end
  end.

(** A visitor that notes the editor it is called on and never cancels. *)
Definition noting (i : EditorId) (i_ : @GXElementEditor PartId) (s : list EditorId)
  : bool * list EditorId :=
  (false, s ++ [i]).

(** The editors the acceptor was called on, in the order of the calls. *)
Definition acceptorCalls (probes : list Probe) : list EditorId :=
  omap (λ p, match p with AcceptorCall i => Some i | PartLookup _ => None end) probes.

(** The editors whose part lookup was called. *)
Definition partLookups (probes : list Probe) : list EditorId :=
  omap (λ p, match p with PartLookup i => Some i | AcceptorCall _ => None end) probes.

(** ** Ancestors in the scene *)

(** [chain] lists the elements reached from [from] along [getParent()],
    and [top] is what [getParent()] gives after the last of them. *)
Fixpoint ancestry (scene : Scene) (from : option ElementId) (chain : list ElementId)
    (top : option ElementId) : Prop :=
  match chain with
  | [] => from = top
  | a :: rest => from = Some a ∧ ancestry scene (getParent scene a) rest top
  end.

(** ** Sub editors without sub editors *)

(** [c] is an editor whose [_parentEditor] is [p], that has no sub
    editor, and that is attached to its element, whose class has a
    registered editor. *)
Definition leaf_sub_editor (scene : Scene) w (p c : EditorId) : Prop :=
  parentOf w c = Some p
  ∧ childrenOf w c = []
  ∧ ∃ el, elementOf w c = Some el
          ∧ getEditor w el = Some c
          ∧ is_Some (_Editors w !! getTypeId scene el).

(** The entries of a list at the positions 0, 2, 4, ... and at the
    positions 1, 3, 5, ... *)
Fixpoint evenEntries {A} (l : list A) : list A :=
  match l with
  | a :: _ :: rest => a :: evenEntries rest
  | [a] => [a]
  | [] => []
  end.

Definition oddEntries {A} (l : list A) : list A := evenEntries (tail l).
End MoreVocabulary.

(** ** Hit tests *)

Section HitVocabulary.
Context {PartId Part : Type}.
Variable geometry : Geometry.
Variable _getPartInfoAt :
  EditorId -> @GXElementEditor PartId -> GPoint -> GTransform -> option Part.
Variable acceptor : option (EditorId -> @GXElementEditor PartId -> bool).
Variable location : GPoint.
Variable transform : GTransform.

(** The editor [i] of the store is one the acceptor accepts (if there is
    an acceptor), selected or highlighted, with a nonempty bounding box
    that contains the location. *)
Definition hittable (w : @World PartId) (i : EditorId) : Prop :=
  ∃ i_ bbox,
    heap w !! i = Some i_
    ∧ (∀ f, acceptor = Some f → f i i_ = true)
    ∧ (hasFlag Flag.Selected i_ = true ∨ hasFlag Flag.Highlighted i_ = true)
    ∧ getBBox geometry i_ transform = Some bbox
    ∧ isEmpty geometry bbox = false
    ∧ containsPoint geometry bbox location = true.

(** The part [result] was found by the part lookup of the last probe. *)
Definition found_by_last_probe (w : @World PartId) (result : option Part)
    (probes : list Probe) : Prop :=
  ∀ part, result = Some part →
    ∃ i i_, last probes = Some (PartLookup i)
            ∧ heap w !! i = Some i_
            ∧ _getPartInfoAt i i_ location transform = Some part.
End HitVocabulary.

(** ** Annotations *)

(** Every entry of the table is the template built for its key. *)
Definition templates_built (cos_quarter_pi : Q) (templates : gmap Z AnnotationTemplate)
  : Prop :=
  ∀ annotation t,
    templates !! annotation = Some t → t = newAnnotationTemplate cos_quarter_pi annotation.

(** The coordinates of a vertex are between -1 and 1. *)
Definition in_unit_square (v : Vertex) : Prop :=
  match snd v with
  | Some (x, y) => (-1 <= x <= 1 ∧ -1 <= y <= 1)%Q
  | None => True
  end.

(** ** Stores that only gained attachments *)

(** [w'] has the registry of [w], and every element that has an editor in
    [w] has the same editor in [w']. *)
Definition keeps_attachments {PartId : Type} (w w' : @World PartId) : Prop :=
  _Editors w' = _Editors w
  ∧ ∀ el e, getEditor w el = Some e → getEditor w' el = Some e.

(** ** Editors nested like their elements *)

Section NestingVocabulary.
Context {PartId : Type}.
Implicit Types (w : @World PartId).
Variable scene : Scene.

(** The loop of [openEditor] over the ancestors passes over [x]: it has no
    editor, and its class has no registered editor. *)
Definition passed_over w (x : ElementId) : Prop :=
  getEditor w x = None ∧ _Editors w !! getTypeId scene x = None.

(** The editor of an element is a sub editor of the editor of the nearest
    ancestor that the loop of [openEditor] does not pass over, and that
    ancestor has an editor. *)
Definition nested w : Prop :=
  ∀ s r chain a,
    getEditor w s = Some r →
    ancestry scene (getParent scene s) chain (Some a) →
    Forall (passed_over w) chain →
    is_Some (getEditor w a) ∨ is_Some (_Editors w !! getTypeId scene a) →
    ∃ pe, getEditor w a = Some pe ∧ r ∈ childrenOf w pe.

(** The scene above [E]: [chain] lists its ancestors up to the root; [E]
    and its ancestors are attached, and each of them is followed by at
    most [m] siblings, which have its parent. *)
Definition below_root (E : ElementId) (chain : list ElementId) (m : nat) : Prop :=
  ancestry scene (getParent scene E) chain None
  ∧ ∀ x, x ∈ E :: chain →
      isAttached scene x = true
      ∧ ∃ l, linked scene (getNext scene x) l ∧ length l ≤ m
             ∧ ∀ s, s ∈ l → getParent scene s = getParent scene x.
End NestingVocabulary.

(** * Sample data *)

(** A root element 0 with the two children 1 and 2, in this order; every
    element is attached and of node class 0. *)
Definition sampleScene : Scene :=
  {| getParent := λ el, match el with 1 | 2 => Some 0 | _ => None end;
     getNext := λ el, match el with 1 => Some 2 | _ => None end;
     isAttached := λ _, true;
     getTypeId := λ _, 0 |}.

(** No editor yet; an editor class is registered for node class 0. *)
Definition sampleRegistered : @World Z :=
  {| heap := ∅; attachment := ∅; _Editors := {[ 0 := 7 ]} |}.

(** The store once the root's editor (object 0) is open. *)
Definition sampleRootOpen : @World Z :=
  {| heap := {[ 0 := newEditor 0 ]}; attachment := {[ 0 := 0 ]};
     _Editors := {[ 0 := 7 ]} |}.

(** Three selected editors: 0 with the sub editors 1 and 2. *)
Definition sampleTree : @World Z :=
  {| heap :=
       {[ 0 := with_editors (Some [1; 2]) (with_flags Flag.Selected (newEditor 0));
          1 := with_parentEditor (Some 0) (with_flags Flag.Selected (newEditor 1));
          2 := with_parentEditor (Some 0) (with_flags Flag.Selected (newEditor 2)) ]};
     attachment := {[ 0 := 0; 1 := 1; 2 := 2 ]};
     _Editors := {[ 0 := 7 ]} |}.

(** A geometry in which every bounding box is the same nonempty box and
    contains every location. *)
Definition sampleGeometry : Geometry :=
  {| multiplied := λ a _, a;
     mapRect := λ _ r, r;
     expanded := λ r _ _ _ _, r;
     isEmpty := λ _, false;
     containsPoint := λ _ _, true;
     getGeometryBBox := λ _, mkGRect 0 0 10 10 |}.

(** A hit test with an acceptor that accepts every editor, in which the
    part found on an editor is its identity. *)
Definition sampleHitTest (fuel : nat) (w : @World Z) (this : EditorId)
  : Outcome (option nat * list Probe) :=
  getPartInfoAt sampleGeometry (λ i _ _ _, Some i) (Some (λ _ _, true))
    (mkGPoint 1 1) (mkGTransform 1 0 0 1 0 0) fuel w this.

(** A comparison of selections by value, entry by entry. *)
Definition sampleEquals (a b : option (list Z)) : bool := bool_decide (a = b).

(** A selected editor whose part selection is [1, 2]. *)
Definition sampleSelected : @GXElementEditor Z :=
  with_partSelection (Some [1; 2]%Z) (with_flags Flag.Selected (newEditor 0)).

(** The identity test of affine coefficients. *)
Definition sampleIsIdentity (t : GTransform) : bool :=
  Qeq_bool (t_sx t) 1 && Qeq_bool (t_shy t) 0 && Qeq_bool (t_shx t) 0
  && Qeq_bool (t_sy t) 1 && Qeq_bool (t_tx t) 0 && Qeq_bool (t_ty t) 0.

(** A translation by (5, 0), and an outlined editor that has it staged. *)
Definition sampleShift : GTransform := mkGTransform 1 0 0 1 5 0.

Definition sampleStaged : @GXElementEditor Z :=
  with_transform (Some sampleShift) (with_flags Flag.Outline (newEditor 0)).

(** Two parentless editors, 0 and 1. *)
Definition sampleLoose : @World Z :=
  {| heap := {[ 0 := newEditor 0; 1 := newEditor 1 ]}; attachment := ∅;
     _Editors := ∅ |}.

(** Three selected editors, none of them linked to another yet. *)
Definition sampleParentless : @World Z :=
  {| heap :=
       {[ 0 := with_flags Flag.Selected (newEditor 0);
          1 := with_flags Flag.Selected (newEditor 1);
          2 := with_flags Flag.Selected (newEditor 2) ]};
     attachment := {[ 0 := 0; 1 := 1; 2 := 2 ]};
     _Editors := {[ 0 := 7 ]} |}.

(** A comparison of staged transforms by their coefficients. *)
Definition sampleTransformEquals (a b : option GTransform) : bool :=
  match a, b with
  | Some x, Some y =>
      Qeq_bool (t_sx x) (t_sx y) && Qeq_bool (t_shy x) (t_shy y)
      && Qeq_bool (t_shx x) (t_shx y) && Qeq_bool (t_sy x) (t_sy y)
      && Qeq_bool (t_tx x) (t_tx y) && Qeq_bool (t_ty x) (t_ty y)
  | None, None => true
  | _, _ => false
  end.

(** A selected editor without part selection. *)
Definition samplePlain : @GXElementEditor Z := with_flags Flag.Selected (newEditor 0).

(** A root element 0 of node class 0, its child 1 of node class 1, and
    the child 2 of element 1, of node class 0; all attached. In
    [sampleRootOpen] only node class 0 has a registered editor. *)
Definition sampleNestedScene : Scene :=
  {| getParent := λ el, match el with 1 => Some 0 | 2 => Some 1 | _ => None end;
     getNext := λ _, None;
     isAttached := λ _, true;
     getTypeId := λ el, match el with 1 => 1 | _ => 0 end |}.

(** A value for [Math.cos(Math.PI / 4)], colours as numbers, and a paint
    context whose canvas has received nothing yet. *)
Definition sampleCos : Q := 7071 # 10000.

Definition sampleBuild (r g b : Z) : Z := (r * 65536 + g * 256 + b)%Z.

Definition sampleContext : GXPaintContext (Color:=Z) :=
  {| selectionOutlineColor := 255%Z; canvas := [] |}.

(** The editors of the elements 0 and 2 of [sampleScene], none of them a
    sub editor of the other. *)
Definition sampleApart : @World Z :=
  {| heap := {[ 0 := newEditor 0; 2 := newEditor 2 ]};
     attachment := {[ 0 := 0; 2 := 2 ]};
     _Editors := {[ 0 := 7 ]} |}.

(** * Properties *)

(** ** Flags *)

Section FlagProperties.
Context {PartId : Type}.
Implicit Types (this : @GXElementEditor PartId) (host : @Host PartId).

Lemma setFlag_eq flag this host :
  setFlag flag this host
  = if hasFlag flag this then (this, host)
    else let this' := with_flags (Z.lor (_flags this) flag) this in
         (this', host ++ [RequestInvalidation this; RequestInvalidation this']).
Proof.
  unfold hasFlag, setFlag, requestInvalidation.
  destruct (Z.land (_flags this) flag =? 0)%Z; simpl; [|done].
  by rewrite <- app_assoc.
Qed.

Lemma removeFlag_eq flag this host :
  removeFlag flag this host
  = if hasFlag flag this
    then let this' := with_flags (Z.land (_flags this) (Z.lnot flag)) this in
         (this', host ++ [RequestInvalidation this; RequestInvalidation this'])
    else (this, host).
Proof.
  unfold hasFlag, removeFlag, requestInvalidation.
  destruct (Z.land (_flags this) flag =? 0)%Z; simpl; [done|].
  by rewrite <- app_assoc.
Qed.

Lemma hasFlag_cleared flag this :
  hasFlag flag (with_flags (Z.land (_flags this) (Z.lnot flag)) this) = false.
Proof.
  unfold hasFlag. simpl.
  rewrite <- Z.land_assoc, (Z.land_comm (Z.lnot flag)), Z.land_lnot_diag.
  by rewrite Z.land_0_r.
Qed.

Lemma hasFlag_raised flag this :
  Z.land (_flags (with_flags (Z.lor (_flags this) flag) this)) flag = flag.
Proof.
  simpl. apply Z.bits_inj'. intros n Hn.
  rewrite Z.land_spec, Z.lor_spec. by destruct (Z.testbit _ n), (Z.testbit flag n).
Qed.

(** Claim C7. [setFlag] on a flag that is already set and [removeFlag] on a
    flag that is already cleared leave the editor (so its flag bitset) and
    the host untouched: no invalidation is requested. Otherwise exactly two
    invalidation requests are issued, the first with the editor as it was
    before the change and the second with the editor after it, and the
    change is the one of the flag's bits: set by [setFlag], cleared by
    [removeFlag], every other bit kept. *)
Theorem flag_mutation_brackets_invalidation this host (flag : Z) :
  (if hasFlag flag this
   then setFlag flag this host = (this, host)
   else ∃ this',
       setFlag flag this host
       = (this', host ++ [RequestInvalidation this; RequestInvalidation this'])
       ∧ Z.land (_flags this') flag = flag
       ∧ ∀ n, Z.testbit (_flags this') n
              = Z.testbit (_flags this) n || Z.testbit flag n)
  ∧ (if hasFlag flag this
     then ∃ this',
       removeFlag flag this host
       = (this', host ++ [RequestInvalidation this; RequestInvalidation this'])
       ∧ hasFlag flag this' = false
       ∧ ∀ n : nat,
           Z.testbit (_flags this') (Z.of_nat n)
           = Z.testbit (_flags this) (Z.of_nat n)
             && negb (Z.testbit flag (Z.of_nat n))
     else removeFlag flag this host = (this, host)).
Proof.
  rewrite setFlag_eq, removeFlag_eq.
  destruct (hasFlag flag this); split; try done.
  - eexists. split; [done|]. split; [apply hasFlag_cleared|].
    intros n. simpl. rewrite Z.land_spec, Z.lnot_spec by lia. done.
  - eexists. split; [done|]. split; [apply hasFlag_raised|].
    intros n. simpl. apply Z.lor_spec.
Qed.

(** The five flags of [GXElementEditor.Flag] are the bits 0 to 4. *)
Lemma flagValue_bit (f : FlagName) : flagValue f = Z.shiftl 1 (flagBit f).
Proof. by destruct f. Qed.
End FlagProperties.

(** ** Transform staging *)

Section TransformProperties.
Context {PartId : Type}.
Implicit Types (this : @GXElementEditor PartId) (host : @Host PartId).
Variable isIdentity : GTransform -> bool.

Lemma removeFlag_spec flag this host :
  ∃ this' rest,
    removeFlag flag this host = (this', host ++ rest)
    ∧ Forall (λ c, isInvalidation c = true) rest
    ∧ hasFlag flag this' = false
    ∧ _transform this' = _transform this.
Proof.
  rewrite removeFlag_eq. destruct (hasFlag flag this) eqn:Hf.
  - eexists _, _. split; [reflexivity|]. split; [|split; [apply hasFlag_cleared|done]].
    repeat constructor.
  - exists this, []. rewrite app_nil_r. repeat split; auto.
Qed.

Lemma resetTransform_spec this host :
  ∃ this' rest,
    resetTransform isIdentity this host = (this', host ++ rest)
    ∧ Forall (λ c, isInvalidation c = true) rest
    ∧ hasFlag Flag.Outline this' = false
    ∧ _transform this' = None.
Proof.
  unfold resetTransform.
  set (host1 := match _transform this with Some t => _ | None => _ end).
  assert (∃ r1, host1 = host ++ r1 ∧ Forall (λ c, isInvalidation c = true) r1)
    as (r1 & -> & Hr1).
  { subst host1. destruct (_transform this) as [t|].
    - destruct (isIdentity t); simpl.
      + exists []. by rewrite app_nil_r.
      + eexists [_]. split; [reflexivity|]. repeat constructor.
    - exists []. by rewrite app_nil_r. }
  destruct (removeFlag_spec Flag.Outline (with_transform None this) (host ++ r1))
    as (this' & r2 & -> & Hr2 & Hflag & Htr).
  exists this', (r1 ++ r2). rewrite app_assoc. repeat split; auto.
  by apply Forall_app.
Qed.

(** Claim C6. For an editor whose staged transform is a non-identity [T],
    [applyTransform(element)] returns, and what it adds to the calls
    received by the host starts with one [element.transform(T)] followed by
    invalidation requests only (so the transform is applied exactly once,
    with [T]); afterwards the staged transform is [null] and the Outline
    flag is not set. *)
Theorem applyTransform_commits_staged_once this host element (T : GTransform) :
  _transform this = Some T →
  isIdentity T = false →
  ∃ this' rest,
    applyTransform isIdentity element this host
    = Returns (this', host ++ ElementTransform element T :: rest)
    ∧ Forall (λ c, isInvalidation c = true) rest
    ∧ _transform this' = None
    ∧ hasFlag Flag.Outline this' = false.
Proof.
  intros HT Hid. unfold applyTransform. rewrite HT, Hid. simpl.
  destruct (resetTransform_spec this (host ++ [ElementTransform element T]))
    as (this' & rest & -> & Hrest & Hflag & Htr).
  exists this', rest. rewrite <- app_assoc. simpl. auto.
Qed.

(** [transform(T)] with a [T] that differs from the staged transform
    stages [T] and leaves the Outline flag set. *)
Lemma transform_stages GTransform_equals (T : GTransform) this host :
  GTransform_equals (_transform this) (Some T) = false →
  ∃ this' rest,
    transform GTransform_equals T this host = (this', host ++ rest)
    ∧ Forall (λ c, isInvalidation c = true) rest
    ∧ _transform this' = Some T
    ∧ hasFlag Flag.Outline this' = true.
Proof.
  intros Hne. unfold transform. rewrite Hne. simpl.
  destruct (hasFlag Flag.Outline this) eqn:Hout; simpl.
  - eexists _, [_; _]. unfold requestInvalidation. rewrite <- app_assoc. simpl.
    split; [done|]. split; [repeat constructor|]. split; [done|]. exact Hout.
  - rewrite setFlag_eq, Hout. cbv zeta.
    eexists _, [_; _; _]. unfold requestInvalidation. rewrite <- app_assoc. simpl.
    split; [done|]. split; [repeat constructor|]. split; [done|].
    unfold hasFlag. simpl.
    pose proof (hasFlag_raised Flag.Outline this) as Hr. simpl in Hr.
    change (Z.lor (_flags this) 16) with (Z.lor (_flags this) Flag.Outline).
    by rewrite Hr.
Qed.

(** Claim C10. When no transform is staged ([_transform] is [null]),
    [applyTransform(element)] does not return: reading [isIdentity] of the
    staged transform throws a TypeError. *)
Theorem applyTransform_without_staged_transform_throws this host element :
  _transform this = None →
  applyTransform isIdentity element this host = Throws TypeError.
Proof. intros H. unfold applyTransform. by rewrite H. Qed.

End TransformProperties.

(** ** Annotations *)

Section AnnotationProperties.
Variable mapPoint : GTransform -> GPoint -> GPoint.
Context {PaintContext : Type}.

(** Claim C9. With the regular annotation size (6), [_getAnnotationBBox]
    returns a box of width 8 and height 8 whose centre is the centre of the
    pixel that holds the mapped centre point (floor of each mapped
    coordinate, plus 0.5), and it hands the paint context back as it got
    it. The centre point is mapped by the transform when one is given. *)
Theorem annotationBBox_regular (transform : option GTransform) (center : GPoint)
    (context : PaintContext) :
  let mapped := match transform with Some t => mapPoint t center | None => center end in
  let box := fst (_getAnnotationBBox mapPoint transform center false context) in
  OPTIONS.annotationSizeRegular = 6%Q
  ∧ rectWidth box = 8%Q
  ∧ rectHeight box = 8%Q
  ∧ (rectX box + rectWidth box / 2 == snapped (getX mapped))%Q
  ∧ (rectY box + rectHeight box / 2 == snapped (getY mapped))%Q
  ∧ snd (_getAnnotationBBox mapPoint transform center false context) = context.
Proof.
  simpl. unfold snapped, OPTIONS.annotationSizeRegular.
  repeat split; try reflexivity; field.
Qed.
End AnnotationProperties.

(** ** Part selection *)

Section PartSelectionProperties.
Context {PartId : Type} `{EqDecision PartId}.
Implicit Types (this : @GXElementEditor PartId) (host : @Host PartId).
Implicit Types (S previous : list PartId) (id : PartId).

Lemma indexFrom_Some i l id : is_Some (indexFrom i l id) ↔ id ∈ l.
Proof.
  revert i. induction l as [|x l IH]; intros i; simpl.
  - split; [intros [? ?]; discriminate | by intros ?%elem_of_nil].
  - unfold _partIdAreEqual. case_bool_decide as Hx.
    + subst. split; [intros _; left | eauto].
    + rewrite IH. rewrite elem_of_cons. naive_solver.
Qed.

Lemma _indexOfPartId_Some l id : is_Some (_indexOfPartId (Some l) id) ↔ id ∈ l.
Proof.
  destruct l as [|x l].
  - split; [intros [? ?]; discriminate | intros H; inversion H].
  - apply (indexFrom_Some 0 (x :: l)).
Qed.

Lemma List_filter_decide {A} (P : A → Prop) `{∀ x, Decision (P x)}
    (f : A → bool) (l : list A) :
  (∀ x, f x = bool_decide (P x)) → List.filter f l = filter P l.
Proof.
  intros Hf. induction l as [|x l IH]; [done|].
  cbn [List.filter]. rewrite filter_cons, IH, Hf.
  by destruct (decide (P x)) as [HP|HP];
    [rewrite bool_decide_eq_true_2|rewrite bool_decide_eq_false_2].
Qed.

Lemma keepUntoggled_filter S previous :
  keepUntoggled S previous = filter (λ id, id ∉ S) previous.
Proof.
  unfold keepUntoggled. apply List_filter_decide. intros x.
  apply eq_true_iff_eq. rewrite negb_true_iff, bool_decide_eq_false.
  by rewrite bool_decide_eq_true, _indexOfPartId_Some.
Qed.

Lemma addNew_filter previous S :
  addNew previous S = filter (λ id, id ∉ previous) S.
Proof. apply keepUntoggled_filter. Qed.

Lemma selectedIds_nonEmpty (l : list PartId) : selectedIds (nonEmpty l) = l.
Proof. by destruct l. Qed.

Lemma toggled_members S current id :
  id ∈ selectedIds (toggled S current)
  ↔ (id ∈ selectedIds current ∧ id ∉ S) ∨ (id ∈ S ∧ id ∉ selectedIds current).
Proof.
  destruct current as [previous|]; simpl; rewrite selectedIds_nonEmpty.
  - rewrite elem_of_app, !list_elem_of_filter. naive_solver.
  - split; [intros H; right; split; [done | by intros ?%elem_of_nil]|].
    intros [[?%elem_of_nil _]|[? _]]; done.
Qed.

Variable gUtil_equals : option (list PartId) -> option (list PartId) -> bool.

Lemma updatePartSelection_toggle_unfold S this host :
  hasFlag Flag.Selected this = true →
  updatePartSelection gUtil_equals true (Some S) this host
  = if gUtil_equals (toggled S (_partSelection this)) (_partSelection this)
    then (this, host)
    else _updatePartSelection (toggled S (_partSelection this)) this host.
Proof.
  intros Hsel. unfold updatePartSelection. rewrite Hsel.
  assert (toggled S (_partSelection this)
          = match _partSelection this with
            | Some previous =>
                match keepUntoggled S previous ++ addNew previous S with
                | [] => None
                | l => Some l
                end
            | None => if (0 <? length S)%nat then Some S else None
            end) as ->.
  { destruct (_partSelection this) as [previous|]; unfold toggled, nonEmpty.
    - rewrite keepUntoggled_filter, addNew_filter. by destruct (_ ++ _).
    - by destruct S. }
  destruct (_partSelection this); by destruct (gUtil_equals _ _).
Qed.

Hypothesis equals_sound : ∀ a b,
  gUtil_equals a b = true → ∀ id, id ∈ selectedIds a ↔ id ∈ selectedIds b.

Lemma updatePartSelection_toggle_members S this host id :
  hasFlag Flag.Selected this = true →
  let this' := fst (updatePartSelection gUtil_equals true (Some S) this host) in
  hasFlag Flag.Selected this' = true
  ∧ (id ∈ selectedIds (_partSelection this')
     ↔ (id ∈ selectedIds (_partSelection this) ∧ id ∉ S)
       ∨ (id ∈ S ∧ id ∉ selectedIds (_partSelection this))).
Proof.
  intros Hsel. simpl. rewrite updatePartSelection_toggle_unfold by done.
  destruct (gUtil_equals _ _) eqn:Heq; simpl; (split; [done|]).
  - etrans; [symmetry; apply (equals_sound _ _ Heq id) | apply toggled_members].
  - apply toggled_members.
Qed.

Lemma filter_id_Forall {A} (P : A → Prop) `{∀ x, Decision (P x)} (l : list A) :
  Forall P l → filter P l = l.
Proof.
  induction 1 as [|x l Hx _ IH]; [done|]. by rewrite filter_cons_True, IH.
Qed.

Lemma filter_nil_Forall {A} (P : A → Prop) `{∀ x, Decision (P x)} (l : list A) :
  Forall (λ x, ¬ P x) l → filter P l = [].
Proof.
  induction 1 as [|x l Hx _ IH]; [done|]. by rewrite filter_cons_False, IH.
Qed.

(** Claim C5. On an editor with the Selected flag, for a comparison
    [gUtil.equals] that only equates selections with the same ids:
    toggling the ids [S] twice gives back a selection with the ids of the
    original one (as a set: the order of the ids can change); and toggling
    once a nonempty selection [previous] leaves the ids of [previous] not in
    [S], followed by the ids of [S] not in [previous], or [null] when there
    are none. *)
Theorem updatePartSelection_toggle_self_inverse S this host :
  hasFlag Flag.Selected this = true →
  let '(this1, host1) := updatePartSelection gUtil_equals true (Some S) this host in
  let '(this2, host2) := updatePartSelection gUtil_equals true (Some S) this1 host1 in
  (∀ id, id ∈ selectedIds (_partSelection this2)
         ↔ id ∈ selectedIds (_partSelection this))
  ∧ (∀ previous, _partSelection this = Some previous → previous ≠ [] →
       _partSelection this1
       = nonEmpty (filter (λ id, id ∉ S) previous ++ filter (λ id, id ∉ previous) S)).
Proof.
  intros Hsel.
  destruct (updatePartSelection gUtil_equals true (Some S) this host)
    as [this1 host1] eqn:E1.
  destruct (updatePartSelection gUtil_equals true (Some S) this1 host1)
    as [this2 host2] eqn:E2.
  assert (H1 := λ id, updatePartSelection_toggle_members S this host id Hsel).
  rewrite E1 in H1. simpl in H1.
  assert (Hsel1 : hasFlag Flag.Selected this1 = true).
  { rewrite updatePartSelection_toggle_unfold in E1 by done.
    destruct (gUtil_equals _ _); inversion E1; subst; exact Hsel. }
  assert (H2 := λ id, updatePartSelection_toggle_members S this1 host1 id Hsel1).
  rewrite E2 in H2. simpl in H2.
  split.
  - intros id. rewrite (proj2 (H2 id)), (proj2 (H1 id)).
    destruct (decide (id ∈ S)), (decide (id ∈ selectedIds (_partSelection this)));
      naive_solver.
  - intros previous Hprev Hne.
    rewrite updatePartSelection_toggle_unfold in E1 by done.
    rewrite Hprev in E1. simpl in E1.
    destruct (gUtil_equals _ _) eqn:Heq; inversion E1; subst; simpl; [|done].
    rewrite Hprev.
    assert (Hmem := equals_sound _ _ Heq). simpl in Hmem.
    setoid_rewrite selectedIds_nonEmpty in Hmem.
    rewrite (filter_nil_Forall (λ id, id ∉ previous) S).
    + rewrite app_nil_r, filter_id_Forall; [by destruct previous|].
      apply Forall_forall. intros id Hid HS.
      apply Hmem in Hid. apply elem_of_app in Hid as [Hid|Hid];
        apply list_elem_of_filter in Hid; naive_solver.
    + apply Forall_forall. intros id Hid Hnot.
      assert (id ∈ previous); [|done].
      apply Hmem. apply elem_of_app. right. by apply list_elem_of_filter.
Qed.
End PartSelectionProperties.

(** ** The structural primitives *)

Section StructuralProperties.
Context {PartId : Type}.
Implicit Types (w : @World PartId) (o : @GXElementEditor PartId).
Implicit Types (l : list EditorId).

Lemma indexOf_None l x : indexOf l x = None ↔ x ∉ l.
Proof.
  induction l as [|y l IH]; simpl.
  - split; [intros _; apply not_elem_of_nil | done].
  - rewrite not_elem_of_cons. destruct (decide (y = x)) as [->|Hne].
    + split; [done | intros [? _]; done].
    + destruct (indexOf l x); simpl; split; try done; naive_solver.
Qed.

Lemma indexOf_Some l x i :
  indexOf l x = Some i →
  ∃ after, l = take i l ++ x :: after ∧ drop i l = x :: after
           ∧ x ∉ take i l ∧ (i < length l)%nat.
Proof.
  revert i. induction l as [|y l IH]; intros i; simpl; [done|].
  destruct (decide (y = x)) as [->|Hne].
  - intros [= <-]. exists l. simpl. repeat split; auto using not_elem_of_nil. lia.
  - destruct (indexOf l x) as [j|] eqn:Hj; simpl; [|done].
    intros [= <-]. destruct (IH j eq_refl) as (after & Hl & Hd & Hnot & Hlen).
    exists after. simpl. rewrite <- Hl. repeat split; auto; [|lia].
    rewrite not_elem_of_cons. auto.
Qed.

Lemma childrenOf_store_same w i o :
  childrenOf (store i o w) i = match _editors o with Some l => l | None => [] end.
Proof. unfold childrenOf, store. simpl. by rewrite lookup_insert_eq. Qed.

Lemma childrenOf_store_ne w i j o : i ≠ j → childrenOf (store i o w) j = childrenOf w j.
Proof. intros. unfold childrenOf, store. simpl. by rewrite lookup_insert_ne. Qed.

Lemma parentOf_store_same w i o : parentOf (store i o w) i = _parentEditor o.
Proof. unfold parentOf, store. simpl. by rewrite lookup_insert_eq. Qed.

Lemma parentOf_store_ne w i j o : i ≠ j → parentOf (store i o w) j = parentOf w j.
Proof. intros. unfold parentOf, store. simpl. by rewrite lookup_insert_ne. Qed.

Lemma elementOf_store_same w i o : elementOf (store i o w) i = Some (_element o).
Proof. unfold elementOf, store. simpl. by rewrite lookup_insert_eq. Qed.

Lemma elementOf_store_ne w i j o : i ≠ j → elementOf (store i o w) j = elementOf w j.
Proof. intros. unfold elementOf, store. simpl. by rewrite lookup_insert_ne. Qed.

Lemma dom_store_present w i o :
  is_Some (heap w !! i) → dom (heap (store i o w)) = dom (heap w).
Proof.
  intros Hi. unfold store. simpl. rewrite dom_insert_L.
  apply elem_of_dom in Hi. set_solver.
Qed.

(** What a successful [insertEditor] leaves in the store. *)
Lemma insertEditor_Returns w this editor ref :
  is_Some (heap w !! this) →
  is_Some (heap w !! editor) →
  parentOf w editor = None →
  (∀ r, ref = Some r → r ∈ childrenOf w this) →
  ∃ w' l',
    insertEditor this editor ref w = Returns w'
    ∧ inserted editor ref (childrenOf w this) l'
    ∧ attachment w' = attachment w
    ∧ _Editors w' = _Editors w
    ∧ dom (heap w') = dom (heap w)
    ∧ (∀ j, childrenOf w' j = if decide (j = this) then l' else childrenOf w j)
    ∧ (∀ j, parentOf w' j = if decide (j = editor) then Some this else parentOf w j)
    ∧ (∀ j, elementOf w' j = elementOf w j)
    ∧ (∀ j, j ≠ this → j ≠ editor → heap w' !! j = heap w !! j)
    ∧ (editor ≠ this →
       heap w' !! editor = with_parentEditor (Some this) <$> heap w !! editor).
Proof.
  intros [this_ Hthis] [editor_ Hed] Hpar Href.
  unfold insertEditor, deref. rewrite Hthis. simpl.
  assert (Hch : childrenOf w this = match _editors this_ with Some l => l | None => [] end)
    by (unfold childrenOf; by rewrite Hthis).
  set (l := match _editors this_ with Some l => l | None => [] end) in *.
  assert (∃ index l',
    (match ref with
     | Some reference =>
         match _editors this_ with
         | None => Throws TypeError
         | Some l0 =>
             match indexOf l0 reference with
             | Some i => Returns i
             | None => Throws (JsError "Unknown reference editor.")
             end
         end
     | None => Returns (match _editors this_ with Some l0 => length l0 | None => 0%nat end)
     end) = Returns index
    ∧ (if (length l <=? index)%nat then l ++ [editor] else spliceIn index editor l) = l'
    ∧ inserted editor ref l l') as (index & l' & -> & Hl' & Hins).
  { destruct ref as [r|].
    - specialize (Href r eq_refl). rewrite Hch in Href. subst l.
      destruct (_editors this_) as [l0|]; [|by apply elem_of_nil in Href].
      destruct (indexOf l0 r) as [i|] eqn:Hi;
        [|by apply indexOf_None in Hi].
      destruct (indexOf_Some _ _ _ Hi) as (after & Hl0 & Hdrop & Hnot & Hlt).
      exists i, (take i l0 ++ editor :: r :: after). split; [done|]. split.
      + destruct (Nat.leb_spec (length l0) i); [lia|].
        unfold spliceIn. by rewrite Hdrop.
      + exists (take i l0), after. done.
    - exists (length l), (l ++ [editor]). subst l. split; [by destruct (_editors this_)|].
      split; [|done]. by rewrite Nat.leb_refl. }
  simpl. rewrite Hed. simpl. unfold parentOf in Hpar. rewrite Hed in Hpar. rewrite Hpar.
  cbv zeta. fold l. rewrite Hl'.
  set (w1 := store this (with_editors (Some l') this_) w).
  change (<[this:=with_editors (Some l') this_]> (heap w)) with (heap w1).
  assert (∃ o, heap w1 !! editor = Some o ∧ _element o = _element editor_
               ∧ _editors o = if decide (editor = this) then Some l' else _editors editor_)
    as (o & Ho & Hoel & Hoed).
  { subst w1. unfold store. simpl. destruct (decide (editor = this)) as [->|Hne].
    - rewrite lookup_insert_eq. eexists; split; [done|]. simpl. split; congruence.
    - rewrite lookup_insert_ne by done. eauto. }
  rewrite Ho. simpl. eexists _, l'. split; [reflexivity|]. rewrite Hch.
  split; [exact Hins|]. split; [done|]. split; [done|]. split.
  { rewrite dom_store_present by eauto. subst w1. apply dom_store_present. eauto. }
  split; [|split; [|split; [|split]]].
  - intros j. destruct (decide (j = editor)) as [->|Hje].
    + rewrite childrenOf_store_same. simpl. rewrite Hoed.
      destruct (decide (editor = this)) as [->|Hne]; [done|].
      unfold childrenOf. by rewrite Hed.
    + rewrite childrenOf_store_ne by done. subst w1.
      destruct (decide (j = this)) as [->|Hjt].
      * by rewrite childrenOf_store_same.
      * by rewrite childrenOf_store_ne.
  - intros j. destruct (decide (j = editor)) as [->|Hje].
    + by rewrite parentOf_store_same.
    + rewrite parentOf_store_ne by done. subst w1.
      destruct (decide (j = this)) as [->|Hjt].
      * rewrite parentOf_store_same. simpl. unfold parentOf. by rewrite Hthis.
      * by rewrite parentOf_store_ne.
  - intros j. destruct (decide (j = editor)) as [->|Hje].
    + rewrite elementOf_store_same. simpl. rewrite Hoel. unfold elementOf. by rewrite Hed.
    + rewrite elementOf_store_ne by done. subst w1.
      destruct (decide (j = this)) as [->|Hjt].
      * rewrite elementOf_store_same. simpl. unfold elementOf. by rewrite Hthis.
      * by rewrite elementOf_store_ne.
  - intros j Hjt Hje. subst w1. unfold store. simpl.
    by rewrite !lookup_insert_ne.
  - intros Hne.
    assert (o = editor_) as ->.
    { subst w1. unfold store in Ho. simpl in Ho.
      rewrite lookup_insert_ne in Ho by done. by simplify_eq. }
    unfold store at 1. simpl. by rewrite lookup_insert_eq, ?Hed.
Qed.

(** What a successful [removeEditor] leaves in the store. *)
Lemma removeEditor_Returns w this editor :
  is_Some (heap w !! editor) →
  editor ∈ childrenOf w this →
  ∃ w' before after,
    removeEditor this editor w = Returns w'
    ∧ childrenOf w this = before ++ editor :: after
    ∧ editor ∉ before
    ∧ attachment w' = attachment w
    ∧ _Editors w' = _Editors w
    ∧ dom (heap w') = dom (heap w)
    ∧ (∀ j, childrenOf w' j = if decide (j = this) then before ++ after else childrenOf w j)
    ∧ (∀ j, parentOf w' j = if decide (j = editor) then None else parentOf w j)
    ∧ (∀ j, elementOf w' j = elementOf w j)
    ∧ (∀ j, j ≠ this → j ≠ editor → heap w' !! j = heap w !! j)
    ∧ (editor ≠ this →
       heap w' !! editor = with_parentEditor None <$> heap w !! editor).
Proof.
  intros [editor_ Hed] Hin.
  unfold removeEditor, deref. unfold childrenOf in Hin.
  destruct (heap w !! this) as [this_|] eqn:Hthis; [|by apply elem_of_nil in Hin].
  destruct (_editors this_) as [l|] eqn:Hl; [|by apply elem_of_nil in Hin].
  simpl. rewrite Hl.
  destruct (indexOf l editor) as [i|] eqn:Hi; [|by apply indexOf_None in Hi].
  destruct (indexOf_Some _ _ _ Hi) as (after & Hl0 & Hdrop & Hnot & Hlt).
  assert (Hout : spliceOut i l = take i l ++ after).
  { unfold spliceOut. f_equal.
    replace (S i) with (i + 1)%nat by lia. by rewrite <- drop_drop, Hdrop. }
  rewrite Hout. cbv zeta.
  set (w1 := store this (with_editors (Some (take i l ++ after)) this_) w).
  change (<[this:=with_editors (Some (take i l ++ after)) this_]> (heap w))
    with (heap w1).
  assert (∃ o, heap w1 !! editor = Some o ∧ _element o = _element editor_
               ∧ _editors o = if decide (editor = this) then Some (take i l ++ after)
                              else _editors editor_)
    as (o & Ho & Hoel & Hoed).
  { subst w1. unfold store. simpl. destruct (decide (editor = this)) as [->|Hne].
    - rewrite lookup_insert_eq. eexists; split; [done|]. simpl. split; congruence.
    - rewrite lookup_insert_ne by done. eauto. }
  rewrite Ho. simpl. eexists _, (take i l), after. split; [reflexivity|].
  assert (Hch : childrenOf w this = l) by (unfold childrenOf; by rewrite Hthis, Hl).
  rewrite Hch. split; [done|]. split; [done|]. split; [done|]. split; [done|]. split.
  { rewrite dom_store_present by eauto. subst w1. apply dom_store_present. eauto. }
  split; [|split; [|split; [|split]]].
  - intros j. destruct (decide (j = editor)) as [->|Hje].
    + rewrite childrenOf_store_same. simpl. rewrite Hoed.
      destruct (decide (editor = this)) as [->|Hne]; [done|].
      unfold childrenOf. by rewrite Hed.
    + rewrite childrenOf_store_ne by done. subst w1.
      destruct (decide (j = this)) as [->|Hjt].
      * by rewrite childrenOf_store_same.
      * by rewrite childrenOf_store_ne.
  - intros j. destruct (decide (j = editor)) as [->|Hje].
    + by rewrite parentOf_store_same.
    + rewrite parentOf_store_ne by done. subst w1.
      destruct (decide (j = this)) as [->|Hjt].
      * rewrite parentOf_store_same. simpl. unfold parentOf. by rewrite Hthis.
      * by rewrite parentOf_store_ne.
  - intros j. destruct (decide (j = editor)) as [->|Hje].
    + rewrite elementOf_store_same. simpl. rewrite Hoel. unfold elementOf. by rewrite Hed.
    + rewrite elementOf_store_ne by done. subst w1.
      destruct (decide (j = this)) as [->|Hjt].
      * rewrite elementOf_store_same. simpl. unfold elementOf. by rewrite Hthis.
      * by rewrite elementOf_store_ne.
  - intros j Hjt Hje. subst w1. unfold store. simpl.
    by rewrite !lookup_insert_ne.
  - intros Hne.
    assert (o = editor_) as ->.
    { subst w1. unfold store in Ho. simpl in Ho.
      rewrite lookup_insert_ne in Ho by done. by simplify_eq. }
    unfold store at 1. simpl. by rewrite lookup_insert_eq, ?Hed.
Qed.

Lemma insertEditor_already_appended w this editor ref :
  is_Some (parentOf w editor) → ∃ t, insertEditor this editor ref w = Throws t.
Proof.
  intros [p Hp]. unfold parentOf in Hp.
  destruct (heap w !! editor) as [editor_|] eqn:Hed; [|done].
  unfold insertEditor, deref.
  destruct (heap w !! this) as [this_|]; simpl; [|eauto].
  destruct ref as [r|]; simpl.
  - destruct (_editors this_) as [l|]; simpl; [|eauto].
    destruct (indexOf l r); simpl; [|eauto].
    rewrite Hed. simpl. rewrite Hp. eauto.
  - rewrite Hed. simpl. rewrite Hp. eauto.
Qed.

Lemma insertEditor_unknown_reference w this editor r :
  r ∉ childrenOf w this → ∃ t, insertEditor this editor (Some r) w = Throws t.
Proof.
  unfold childrenOf, insertEditor, deref.
  destruct (heap w !! this) as [this_|]; simpl; [|eauto].
  destruct (_editors this_) as [l|]; simpl; [|eauto].
  intros Hr%indexOf_None. rewrite Hr. simpl. eauto.
Qed.

Lemma removeEditor_unknown_editor w this editor :
  editor ∉ childrenOf w this → ∃ t, removeEditor this editor w = Throws t.
Proof.
  unfold childrenOf, removeEditor, deref.
  destruct (heap w !! this) as [this_|]; simpl; [|eauto].
  destruct (_editors this_) as [l|]; simpl; [|eauto].
  intros Hr%indexOf_None. rewrite Hr. eauto.
Qed.

(** Claim C8. [insertEditor] throws when the editor to insert already has
    a [_parentEditor], and when the reference editor is given but is not
    among the sub editors of the receiver; [removeEditor] throws when the
    editor is not among the sub editors of the receiver. When the receiver
    and the editor are objects of the store, the editor has no parent and
    the reference (if any) is a sub editor, [insertEditor] returns: the
    editor then stands immediately before the reference (at the end
    without one) and its [_parentEditor] is the receiver. [removeEditor] of
    a sub editor returns, takes its first entry out of the array and
    clears its [_parentEditor]. *)
Theorem structural_primitives_check_their_preconditions w this editor :
  (∀ ref, is_Some (parentOf w editor) →
     ∃ t, insertEditor this editor ref w = Throws t)
  ∧ (∀ r, r ∉ childrenOf w this →
     ∃ t, insertEditor this editor (Some r) w = Throws t)
  ∧ (editor ∉ childrenOf w this →
     ∃ t, removeEditor this editor w = Throws t)
  ∧ (∀ ref,
       is_Some (heap w !! this) → is_Some (heap w !! editor) →
       parentOf w editor = None →
       (∀ r, ref = Some r → r ∈ childrenOf w this) →
       ∃ w', insertEditor this editor ref w = Returns w'
             ∧ parentOf w' editor = Some this
             ∧ inserted editor ref (childrenOf w this) (childrenOf w' this))
  ∧ (is_Some (heap w !! editor) → editor ∈ childrenOf w this →
       ∃ w' before after,
         removeEditor this editor w = Returns w'
         ∧ parentOf w' editor = None
         ∧ childrenOf w this = before ++ editor :: after
         ∧ editor ∉ before
         ∧ childrenOf w' this = before ++ after).
Proof.
  split; [|split; [|split; [|split]]].
  - intros ref. apply insertEditor_already_appended.
  - intros r. apply insertEditor_unknown_reference.
  - apply removeEditor_unknown_editor.
  - intros ref Hthis Hed Hpar Href.
    destruct (insertEditor_Returns w this editor ref Hthis Hed Hpar Href)
      as (w' & l' & Hret & Hins & _ & _ & _ & Hch & Hp & _).
    exists w'. split; [done|]. rewrite Hch, Hp. by rewrite !decide_True.
  - intros Hed Hin.
    destruct (removeEditor_Returns w this editor Hed Hin)
      as (w' & before & after & Hret & Hl & Hnot & _ & _ & _ & Hch & Hp & _).
    exists w', before, after. rewrite Hch, Hp. by rewrite !decide_True.
Qed.

Lemma insertEditor_inv w this editor ref w' :
  insertEditor this editor ref w = Returns w' →
  is_Some (heap w !! this) ∧ is_Some (heap w !! editor)
  ∧ parentOf w editor = None
  ∧ (∀ r, ref = Some r → r ∈ childrenOf w this).
Proof.
  unfold insertEditor, deref, parentOf, childrenOf.
  destruct (heap w !! this) as [this_|]; simpl; [|done].
  destruct ref as [r|]; simpl.
  - destruct (_editors this_) as [l|]; simpl; [|done].
    destruct (indexOf l r) as [i|] eqn:Hi; simpl; [|done].
    destruct (heap w !! editor) as [editor_|]; simpl; [|done].
    destruct (_parentEditor editor_); [done|]. intros _.
    repeat split; eauto. intros ? [= <-].
    destruct (decide (r ∈ l)) as [|Hn%indexOf_None]; [done|congruence].
  - destruct (heap w !! editor) as [editor_|]; simpl; [|done].
    destruct (_parentEditor editor_); [done|]. intros _.
    repeat split; eauto. done.
Qed.
End StructuralProperties.

(** ** Opening and closing *)

Section OpenProperties.
Context {PartId : Type}.
Implicit Types (w : @World PartId) (o : @GXElementEditor PartId).
Variable scene : Scene.

Lemma bind_Returns {A B} (c : Outcome A) (k : A → Outcome B) (b : B) :
  c ≫= k = Returns b → ∃ a, c = Returns a ∧ k a = Returns b.
Proof. destruct c as [a| |]; simpl; [eauto | done | done]. Qed.

Lemma inserted_elem_of e ref (l l' : list EditorId) x :
  inserted e ref l l' → x ∈ l' ↔ x = e ∨ x ∈ l.
Proof.
  destruct ref as [r|]; simpl.
  - intros (before & after & -> & _ & ->).
    rewrite !elem_of_app, !elem_of_cons. naive_solver.
  - intros ->. rewrite elem_of_app, list_elem_of_singleton. naive_solver.
Qed.

Lemma inserted_once e ref (l l' : list EditorId) :
  inserted e ref l l' → e ∉ l →
  ∃ before after, l' = before ++ e :: after ∧ e ∉ before ∧ e ∉ after.
Proof.
  destruct ref as [r|]; simpl.
  - intros (before & after & -> & _ & ->) Hnot.
    exists before, (r :: after). split; [done|].
    rewrite elem_of_app in Hnot. set_solver.
  - intros -> Hnot. exists l, []. split; [done|]. split; [done|]. apply not_elem_of_nil.
Qed.

Lemma fresh_not_in_dom w : fresh (dom (heap w)) ∉ dom (heap w).
Proof. apply is_fresh. Qed.

Lemma closed_fresh_unreferenced w :
  closed w → unreferenced w (fresh (dom (heap w))).
Proof.
  intros (Hs & Hc & Hp). pose proof (fresh_not_in_dom w) as Hf.
  split; [|split].
  - intros el Hel. by apply Hs in Hel.
  - intros j Hj. by apply Hc in Hj.
  - intros j Hj. by apply Hp in Hj.
Qed.

Lemma findReference_slot k nextNode w r :
  findReference scene k nextNode w = Returns (Some r) →
  ∃ el, attachment w !! el = Some r.
Proof.
  revert nextNode. induction k as [|k IH]; intros [node|]; simpl; try done.
  unfold getEditor. destruct (attachment w !! node) as [e|] eqn:He.
  - intros [= <-]. eauto.
  - apply IH.
Qed.

(** The store after [new editorClass(element)]. *)
Lemma store_fresh_facts w el :
  closed w →
  let e := fresh (dom (heap w)) in
  let w1 := store e (newEditor el) w in
  closed w1 ∧ unreferenced w1 e ∧ heap w1 !! e = Some (newEditor el)
  ∧ dom (heap w) ⊆ dom (heap w1)
  ∧ (∀ x, x ∈ dom (heap w) → unreferenced w x →
          unreferenced w1 x ∧ heap w1 !! x = heap w !! x).
Proof.
  intros Hcl e w1. pose proof (fresh_not_in_dom w) as Hf. fold e in Hf.
  pose proof (closed_fresh_unreferenced w Hcl) as (Hu1 & Hu2 & Hu3). fold e in Hu1, Hu2, Hu3.
  destruct Hcl as (Hs & Hc & Hp).
  assert (Hdom : dom (heap w1) = {[e]} ∪ dom (heap w))
    by (subst w1; unfold store; simpl; apply dom_insert_L).
  assert (Hch : ∀ j, childrenOf w1 j = childrenOf w j).
  { intros j. subst w1. destruct (decide (e = j)) as [<-|Hne].
    - rewrite childrenOf_store_same. simpl. unfold childrenOf.
      apply not_elem_of_dom in Hf. by rewrite Hf.
    - by apply childrenOf_store_ne. }
  assert (Hpa : ∀ j, parentOf w1 j = parentOf w j).
  { intros j. subst w1. destruct (decide (e = j)) as [<-|Hne].
    - rewrite parentOf_store_same. simpl. unfold parentOf.
      apply not_elem_of_dom in Hf. by rewrite Hf.
    - by apply parentOf_store_ne. }
  split; [|split; [|split; [|split]]].
  - split; [|split].
    + intros el' e' He'. rewrite Hdom. apply Hs in He'. set_solver.
    + intros j c. rewrite Hch, Hdom. intros ?%Hc. set_solver.
    + intros j p. rewrite Hpa, Hdom. intros ?%Hp. set_solver.
  - split; [|split]; [done| |].
    + intros j. rewrite Hch. apply Hu2.
    + intros j. rewrite Hpa. apply Hu3.
  - subst w1. unfold store. simpl. apply lookup_insert_eq.
  - rewrite Hdom. set_solver.
  - intros x Hx (Hx1 & Hx2 & Hx3). split.
    + split; [|split]; [done| |].
      * intros j. rewrite Hch. apply Hx2.
      * intros j. rewrite Hpa. apply Hx3.
    + subst w1. unfold store. simpl. apply lookup_insert_ne. intros ->. done.
Qed.

(** Linking the unreferenced new editor [e] below an attached editor. *)
Lemma insert_link_facts w pe e ref w' el node :
  closed w → unreferenced w e → heap w !! e = Some (newEditor el) →
  attachment w !! node = Some pe →
  insertEditor pe e ref w = Returns w' →
  closed w' ∧ dom (heap w) ⊆ dom (heap w') ∧ _Editors w' = _Editors w
  ∧ attachment w' = attachment w
  ∧ (∀ x, x ∈ dom (heap w) → x ≠ e → unreferenced w x →
          unreferenced w' x ∧ heap w' !! x = heap w !! x)
  ∧ freshly_linked el e w'.
Proof.
  intros (Hs & Hc & Hp) (Hu1 & Hu2 & Hu3) He Hpe Hins.
  assert (Hne : e ≠ pe) by (intros ->; by apply Hu1 in Hpe).
  destruct (insertEditor_inv _ _ _ _ _ Hins) as (Hthis & Hed & Hpar & Href).
  destruct (insertEditor_Returns w pe e ref Hthis Hed Hpar Href)
    as (w'' & l' & Hret & Hl' & Hatt & Hreg & Hdom & Hch & Hpa & _ & Hheap & Hnew).
  rewrite Hins in Hret. injection Hret as <-.
  assert (Hedom : e ∈ dom (heap w)) by (apply elem_of_dom; eauto).
  split; [|split; [|split; [|split; [|split]]]]; try done.
  - split; [|split].
    + intros el' e'. rewrite Hatt, Hdom. apply Hs.
    + intros j c. rewrite Hch, Hdom. case_decide; [|apply Hc].
      intros [->|?]%(inserted_elem_of _ _ _ _ _ Hl'); [done|]. by eapply Hc.
    + intros j p. rewrite Hpa, Hdom. case_decide; [|apply Hp].
      intros [= <-]. by eapply Hs.
  - rewrite Hdom. set_solver.
  - intros x Hx Hxe (Hx1 & Hx2 & Hx3).
    assert (Hxpe : x ≠ pe) by (intros ->; by apply Hx1 in Hpe).
    split; [|by apply Hheap]. split; [|split].
    + intros el'. rewrite Hatt. apply Hx1.
    + intros j. rewrite Hch. case_decide; [|apply Hx2].
      intros [->|?]%(inserted_elem_of _ _ _ _ _ Hl'); [done|]. by eapply Hx2.
    + intros j. rewrite Hpa. case_decide; [|apply Hx3]. congruence.
  - split.
    + intros j. rewrite Hpa. case_decide; [congruence|apply Hu3].
    + exists (Some pe). split; [|split].
      * rewrite Hnew by done. by rewrite He.
      * intros j. rewrite Hch. case_decide; [by subst|]. intros ?. by apply Hu2 in H0.
      * intros ? [= <-]. rewrite Hch, decide_True by done.
        eapply inserted_once; [done|]. apply Hu2.
Qed.

Lemma linkToAncestor_post open k e el parentNode w w' :
  (∀ el0 w0 r0 w0', open el0 w0 = Returns (r0, w0') → closed w0 →
                    open_post el0 w0 r0 w0') →
  linkToAncestor scene open k e el parentNode w = Returns w' →
  closed w → unreferenced w e → heap w !! e = Some (newEditor el) →
  closed w' ∧ dom (heap w) ⊆ dom (heap w') ∧ _Editors w' = _Editors w
  ∧ (∀ x, x ∈ dom (heap w) → x ≠ e → unreferenced w x →
          unreferenced w' x ∧ heap w' !! x = heap w !! x)
  ∧ (∀ el', attachment w' !! el' ≠ Some e)
  ∧ freshly_linked el e w'.
Proof.
  intros Hopen. revert parentNode w.
  induction k as [|k IH]; intros [node|] w; simpl; try done.
  - intros [= <-] Hcl (Hu1 & Hu2 & Hu3) He.
    split; [done|]. split; [done|]. split; [done|]. split; [by intros|].
    split; [done|]. split; [done|].
    exists None. split; [done|]. split; [|done]. intros j Hj. by apply Hu2 in Hj.
  - intros Hrun Hcl Hu He.
    apply bind_Returns in Hrun as ([parentEditor wc] & Hstep & Hrun).
    assert (Hedom : e ∈ dom (heap w)) by (apply elem_of_dom; eauto).
    assert (closed wc ∧ dom (heap w) ⊆ dom (heap wc) ∧ _Editors wc = _Editors w
            ∧ (∀ x, x ∈ dom (heap w) → unreferenced w x →
                    unreferenced wc x ∧ heap wc !! x = heap w !! x)
            ∧ ∀ pe, parentEditor = Some pe → attachment wc !! node = Some pe)
      as (Hclc & Hdomc & Hregc & Hframec & Hslotc).
    { unfold getEditor in Hstep.
      destruct (attachment w !! node) as [pe|] eqn:Hpe.
      - injection Hstep as <- <-.
        split; [done|]. split; [done|]. split; [done|]. split; [by intros|].
        by intros ? [= <-].
      - by destruct (Hopen _ _ _ _ Hstep Hcl). }
    destruct (Hframec e Hedom Hu) as (Huc & Hec). rewrite He in Hec.
    destruct parentEditor as [pe|].
    + apply bind_Returns in Hrun as (ref & Href & Hins).
      destruct (insert_link_facts wc pe e ref w' el node Hclc Huc Hec
                  (Hslotc pe eq_refl) Hins)
        as (Hcl' & Hdom' & Hreg' & Hatt' & Hframe' & Hlinked).
      split; [done|]. split; [set_solver|]. split; [congruence|].
      split; [|split; [|done]].
      * intros x Hx Hxe Hux. destruct (Hframec x Hx Hux) as (Hux' & Hhx).
        destruct (Hframe' x (Hdomc x Hx) Hxe Hux') as (? & ?).
        split; [done|congruence].
      * intros el'. rewrite Hatt'. apply Huc.
    + destruct (IH _ _ Hrun Hclc Huc Hec)
        as (Hcl' & Hdom' & Hreg' & Hframe' & Hslot' & Hlinked).
      split; [done|]. split; [set_solver|]. split; [congruence|].
      split; [|split; [done|done]].
      intros x Hx Hxe Hux. destruct (Hframec x Hx Hux) as (Hux' & Hhx).
      destruct (Hframe' x (Hdomc x Hx) Hxe Hux') as (? & ?).
      split; [done|congruence].
  - intros [= <-] Hcl (Hu1 & Hu2 & Hu3) He.
    split; [done|]. split; [done|]. split; [done|]. split; [by intros|].
    split; [done|]. split; [done|].
    exists None. split; [done|]. split; [|done]. intros j Hj. by apply Hu2 in Hj.
Qed.

Lemma openEditor_post fuel el w r w' :
  openEditor scene fuel el w = Returns (r, w') → closed w → open_post el w r w'.
Proof.
  revert el w r w'. induction fuel as [|fuel IH]; intros el w r w'; simpl; [done|].
  destruct (isAttached scene el); simpl; [|done].
  unfold getEditor at 1. destruct (attachment w !! el) as [e0|] eqn:Hslot.
  { intros [= <- <-] Hcl. split; try done.
    - by intros ? [= <-].
    - unfold getEditor. congruence. }
  unfold createEditor. destruct (_Editors w !! getTypeId scene el) as [cls|] eqn:Hreg.
  2:{ intros [= <- <-] Hcl. split; done. }
  intros Hrun Hcl. apply bind_Returns in Hrun as (w2 & Hlink & [= <- <-]).
  destruct (store_fresh_facts w el Hcl) as (Hcl1 & Hu1 & He1 & Hdom1 & Hframe1).
  set (e := fresh (dom (heap w))) in *.
  set (w1 := store e (newEditor el) w) in *.
  destruct (linkToAncestor_post _ _ _ _ _ _ _ IH Hlink Hcl1 Hu1 He1)
    as (Hcl2 & Hdom2 & Hreg2 & Hframe2 & Hslot2 & Hlinked).
  assert (Hed2 : e ∈ dom (heap w2)).
  { destruct Hlinked as (_ & p & Hp & _). apply elem_of_dom. eauto. }
  split.
  - destruct Hcl2 as (Hs & Hc & Hp). split; [|split]; [|done|done].
    intros el' e'. simpl. rewrite lookup_insert. case_decide.
    + by intros [= <-].
    + apply Hs.
  - simpl. set_solver.
  - simpl. by rewrite Hreg2.
  - intros x Hx Hux.
    assert (Hxe : x ≠ e) by (intros ->; by apply fresh_not_in_dom in Hx).
    destruct (Hframe1 x Hx Hux) as (Hux1 & Hh1).
    destruct (Hframe2 x (Hdom1 x Hx) Hxe Hux1) as ((Hx1 & Hx2 & Hx3) & Hh2).
    split; [|simpl; congruence]. split; [|split]; [|done|done].
    intros el'. simpl. rewrite lookup_insert. case_decide; [congruence|apply Hx1].
  - intros e' [= <-]. simpl. apply lookup_insert_eq.
  - intros _ e' [= <-]. split; [apply fresh_not_in_dom|]. exact Hlinked.
Qed.

Lemma split_at_first_unique {A} (x : A) (b a b' a' : list A) :
  b ++ x :: a = b' ++ x :: a' → x ∉ b → x ∉ b' → b = b' ∧ a = a'.
Proof.
  revert b'. induction b as [|y b IH]; intros [|y' b']; simpl.
  - by intros [= ->].
  - intros [= <- _] _ Hn. by apply not_elem_of_cons in Hn as [? _].
  - intros [= -> _] Hn _. by apply not_elem_of_cons in Hn as [? _].
  - intros [= <- Heq] [? ?]%not_elem_of_cons [? ?]%not_elem_of_cons.
    destruct (IH b' Heq) as [-> ->]; done.
Qed.

Lemma openEditor_slot fuel el w e w' :
  openEditor scene fuel el w = Returns (Some e, w') → getEditor w' el = Some e.
Proof.
  destruct fuel as [|fuel]; simpl; [done|].
  destruct (isAttached scene el); simpl; [|done].
  destruct (getEditor w el) as [e0|] eqn:Hslot.
  { by intros [= <- <-]. }
  destruct (createEditor scene el w) as [[e1|] w1]; [|done].
  intros (w2 & _ & [= <- <-])%bind_Returns.
  unfold getEditor. simpl. apply lookup_insert_eq.
Qed.

Lemma openEditor_attached fuel el w r w' :
  openEditor scene fuel el w = Returns (r, w') → isAttached scene el = true.
Proof.
  destruct fuel as [|fuel]; simpl; [done|]. by destruct (isAttached scene el).
Qed.

(** Claim C2. On an attached element that already has an editor,
    [openEditor] returns that editor and leaves the whole store as it is:
    editor objects, child arrays and attachment slots. So after a call
    that returned an editor, a second call returns the same editor and
    changes nothing. *)
Theorem openEditor_idempotent element :
  (∀ w editor fuel,
     isAttached scene element = true →
     getEditor w element = Some editor →
     openEditor scene (S fuel) element w = Returns (Some editor, w))
  ∧ (∀ fuel w0 editor w,
       openEditor scene fuel element w0 = Returns (Some editor, w) →
       openEditor scene fuel element w = Returns (Some editor, w)).
Proof.
  assert (H1 : ∀ w editor fuel,
             isAttached scene element = true →
             getEditor w element = Some editor →
             openEditor scene (S fuel) element w = Returns (Some editor, w))
    by (intros w editor fuel Hatt Hslot; simpl; by rewrite Hatt, Hslot).
  split; [done|]. intros [|fuel] w0 editor w Hopen; [done|].
  apply H1; [by eapply openEditor_attached | by eapply openEditor_slot].
Qed.

Lemma shrinks_refl w : shrinks w w.
Proof. repeat split; auto. Qed.

Lemma shrinks_trans w1 w2 w3 : shrinks w1 w2 → shrinks w2 w3 → shrinks w1 w3.
Proof.
  intros (Hd & Hr & Hs & Hc & Hl & He & Ha) (Hd' & Hr' & Hs' & Hc' & Hl' & He' & Ha').
  split; [congruence|]. split; [congruence|]. split; [auto|]. split; [auto|].
  split; [intros j; etrans; [apply Hl'|apply Hl]|]. split; [congruence|auto].
Qed.

Lemma finite_below_shrinks w w' n e :
  shrinks w w' → finite_below w n e → finite_below w' n e.
Proof.
  intros (Hd & _ & _ & Hc & _). revert e.
  induction n as [|n IH]; intros e; simpl; [done|]. intros [He Hch]. split.
  - apply elem_of_dom. rewrite Hd. by apply elem_of_dom.
  - apply Forall_forall. intros c Hc'. apply IH.
    rewrite Forall_forall in Hch. auto.
Qed.

Lemma removeEditor_arrayOf w this editor w' j :
  removeEditor this editor w = Returns w' →
  is_Some (arrayOf w j) → is_Some (arrayOf w' j).
Proof.
  unfold removeEditor, deref.
  destruct (heap w !! this) as [this_|] eqn:Hthis; simpl; [|done].
  destruct (_editors this_) as [l|] eqn:Hl; [|done].
  destruct (indexOf l editor) as [i|]; [|done]. cbv zeta.
  unfold store at 2. simpl.
  destruct (decide (editor = this)) as [->|Hne].
  - rewrite lookup_insert_eq. simpl. intros [= <-]. unfold arrayOf, store. simpl.
    destruct (decide (j = this)) as [->|Hj].
    + rewrite lookup_insert_eq. simpl. eauto.
    + by rewrite !lookup_insert_ne.
  - rewrite lookup_insert_ne by done.
    destruct (heap w !! editor) as [editor_|] eqn:Hed; simpl; [|done].
    intros [= <-]. unfold arrayOf, store. simpl.
    destruct (decide (j = editor)) as [->|Hje].
    + rewrite lookup_insert_eq. simpl. by rewrite Hed.
    + rewrite lookup_insert_ne by done.
      destruct (decide (j = this)) as [->|Hjt].
      * rewrite lookup_insert_eq. simpl. eauto.
      * by rewrite lookup_insert_ne.
Qed.

(** Unlinking an editor from the parent it refers to. *)
Lemma removeEditor_tidy w p c :
  tidy w → parentOf w c = Some p →
  ∃ w', removeEditor p c w = Returns w' ∧ tidy w' ∧ shrinks w w'
        ∧ attachment w' = attachment w.
Proof.
  intros ((Hs & Hc & Hp) & Hback & Hslot) Hpar.
  assert (Hced : is_Some (heap w !! c)).
  { unfold parentOf in Hpar. destruct (heap w !! c); [eauto|done]. }
  destruct (removeEditor_Returns w p c Hced (Hback _ _ Hpar))
    as (w' & before & after & Hret & Hl & Hnot & Hatt & Hreg & Hdom & Hch & Hpa & Hel & _).
  exists w'. split; [done|].
  assert (Hsub : ∀ j x, x ∈ childrenOf w' j → x ∈ childrenOf w j).
  { intros j x. rewrite Hch. case_decide; [subst j|done].
    rewrite Hl, !elem_of_app, elem_of_cons. tauto. }
  split; [|split; [|done]].
  - split; [split; [|split]|split].
    + intros el e. rewrite Hatt, Hdom. apply Hs.
    + intros j x Hx. rewrite Hdom. eapply Hc. by apply Hsub.
    + intros j q. rewrite Hpa, Hdom. case_decide; [done|apply Hp].
    + intros x q. rewrite Hpa. case_decide as Hx; [done|]. intros Hq.
      pose proof (Hback _ _ Hq) as Hin. rewrite Hch. case_decide; [subst q|done].
      rewrite Hl in Hin. rewrite !elem_of_app, elem_of_cons in *. naive_solver.
    + intros q x el e Hx. rewrite Hel. unfold getEditor. rewrite Hatt.
      apply Hslot with q. by apply Hsub.
  - split; [done|]. split; [done|]. split; [unfold getEditor; by rewrite Hatt|].
    split; [done|]. split; [|split; [done|]].
    + intros j. rewrite Hch. case_decide; [subst j|done].
      rewrite Hl, !length_app. simpl. lia.
    + intros j. by apply removeEditor_arrayOf with p c.
Qed.

Lemma detach_tidy w el :
  tidy w →
  let w' := with_attachment (delete el (attachment w)) w in
  tidy w' ∧ shrinks w w' ∧ getEditor w' el = None.
Proof.
  intros ((Hs & Hc & Hp) & Hback & Hslot) w'.
  assert (Hsub : ∀ el' e, getEditor w' el' = Some e → getEditor w el' = Some e).
  { intros el' e. unfold getEditor. subst w'. simpl.
    rewrite lookup_delete. case_decide; done. }
  split; [|split].
  - split; [split; [|split]|split]; try done.
    + intros el' e He. apply (Hs el'). by apply Hsub.
    + intros q x el' e Hx Hel He. apply (Hslot q x el' e); auto.
  - repeat split; auto.
  - unfold getEditor. subst w'. simpl. apply lookup_delete_eq.
Qed.

Lemma closeChildren_step close f owner i w :
  closeChildren close (S f) owner i w
  = (owner_ ← deref w owner;
     match _editors owner_ with
     | None => Throws TypeError
     | Some editors =>
         match editors !! i with
         | None => Returns w
         | Some child =>
             child_ ← deref w child;
             w ← close (getElement child_) w;
             closeChildren close f owner (S i) w
         end
     end).
Proof. reflexivity. Qed.

(** [closeEditor] returns on a tidy store whose editor trees are finite. *)
Lemma closeEditor_returns m n : ∀ k w el,
  n + m < k → tidy w → (∀ j, length (childrenOf w j) ≤ m) →
  (∀ e, getEditor w el = Some e → finite_below w n e) →
  ∃ w', closeEditor scene k el w = Returns w' ∧ tidy w' ∧ shrinks w w'
        ∧ (is_Some (_Editors w !! getTypeId scene el) → getEditor w' el = None).
Proof.
  induction n as [|n IH]; intros k w el Hk Htidy Hm Hfin.
  - destruct k as [|k]; [lia|]. simpl.
    destruct (getEditor w el) as [e|] eqn:He; [by destruct (Hfin e)|].
    exists w. split; [done|]. split; [done|]. split; [apply shrinks_refl|done].
  - destruct k as [|k]; [lia|]. simpl.
    destruct (getEditor w el) as [e|] eqn:He.
    2:{ exists w. split; [done|]. split; [done|]. split; [apply shrinks_refl|done]. }
    destruct (_Editors w !! getTypeId scene el) as [cls|] eqn:Hreg.
    2:{ exists w. split; [done|]. split; [done|]. split; [apply shrinks_refl|].
        by intros [? ?]. }
    destruct (Hfin e eq_refl) as [[e_ He_] Hch].
    assert (Hloop : ∀ f i w0,
      tidy w0 → (∀ j, length (childrenOf w0 j) ≤ m) →
      is_Some (arrayOf w0 e) →
      Forall (finite_below w0 n) (childrenOf w0 e) →
      length (childrenOf w0 e) ≤ f + i →
      ∃ w', closeChildren (closeEditor scene k) (S f) e i w0 = Returns w'
            ∧ tidy w' ∧ shrinks w0 w').
    { induction f as [|f IHf]; intros i w0 Ht0 Hm0 [l Harr] Hfin0 Hlen.
      - assert (Hl : childrenOf w0 e = l).
        { revert Harr. unfold arrayOf, childrenOf.
          destruct (heap w0 !! e); [by intros ->|done]. }
        rewrite closeChildren_step. unfold arrayOf in Harr.
        destruct (heap w0 !! e) as [o|] eqn:Ho; [|done].
        unfold deref. rewrite Ho. cbn [mbind Outcome_bind bind]. rewrite Harr.
        rewrite (lookup_ge_None_2 l i) by (rewrite Hl in Hlen; simpl in Hlen; lia).
        exists w0. split; [done|]. split; [done|apply shrinks_refl].
      - assert (Hl : childrenOf w0 e = l).
        { revert Harr. unfold arrayOf, childrenOf.
          destruct (heap w0 !! e); [by intros ->|done]. }
        rewrite closeChildren_step. unfold arrayOf in Harr.
        destruct (heap w0 !! e) as [o|] eqn:Ho; [|done].
        unfold deref. rewrite Ho. cbn [mbind Outcome_bind bind]. rewrite Harr.
        destruct (l !! i) as [c|] eqn:Hc.
        2:{ exists w0. split; [done|]. split; [done|apply shrinks_refl]. }
        assert (Hcin : c ∈ childrenOf w0 e)
          by (rewrite Hl; by eapply list_elem_of_lookup_2).
        pose proof Ht0 as ((_ & Hch0 & _) & Hback0 & Hslot0).
        assert (Hcdom : c ∈ dom (heap w0)) by (by eapply Hch0).
        apply elem_of_dom in Hcdom as [c_ Hc_].
        rewrite Hc_. cbn [mbind Outcome_bind bind].
        destruct (IH k w0 (getElement c_)) as (w1 & -> & Ht1 & Hsh1 & _);
          [lia|done|done| |].
        { intros e' He'. assert (e' = c) as ->.
          { apply (Hslot0 e c (getElement c_) e'); [done| |done].
            unfold elementOf. by rewrite Hc_. }
          rewrite Forall_forall in Hfin0. by apply Hfin0. }
        cbn [mbind Outcome_bind bind].
        destruct Hsh1 as (Hd1 & Hr1 & Hs1 & Hc1 & Hl1 & He1 & Ha1).
        destruct (IHf (S i) w1) as (w2 & -> & Ht2 & Hsh2); try done.
        + intros j. etrans; [apply Hl1|apply Hm0].
        + apply Ha1. unfold arrayOf. rewrite Ho. eauto.
        + apply Forall_forall. intros x Hx.
          apply finite_below_shrinks with w0; [by repeat split|].
          rewrite Forall_forall in Hfin0. apply Hfin0. by apply Hc1.
        + etrans; [apply Hl1|]. rewrite Hl. simpl in Hlen. rewrite Hl in Hlen. lia.
        + exists w2. split; [done|]. split; [done|].
          apply shrinks_trans with w1; [by repeat split|done]. }
    unfold deref. rewrite He_. cbn [mbind Outcome_bind bind]. unfold getEditors.
    assert (∃ wa, match _editors e_ with
                  | Some _ => closeChildren (closeEditor scene k) k e 0 w
                  | None => Returns w
                  end = Returns wa ∧ tidy wa ∧ shrinks w wa)
      as (wa & -> & Hta & Hsha).
    { destruct (_editors e_) as [l|] eqn:Harr.
      - destruct k as [|f]; [lia|].
        destruct (Hloop f 0 w) as (wa & ? & ? & ?); eauto.
        + unfold arrayOf. rewrite He_. eauto.
        + specialize (Hm e). lia.
      - exists w. split; [done|]. split; [done|apply shrinks_refl]. }
    cbn [mbind Outcome_bind bind].
    assert (Heda : is_Some (heap wa !! e)).
    { apply elem_of_dom. destruct Hsha as (-> & _). apply elem_of_dom. eauto. }
    destruct Heda as [ea Hea]. rewrite Hea. cbn [mbind Outcome_bind bind].
    assert (∃ wb, match getParentEditor ea with
                  | Some parentEditor => removeEditor parentEditor e wa
                  | None => Returns wa
                  end = Returns wb ∧ tidy wb ∧ shrinks wa wb
                  ∧ attachment wb = attachment wa)
      as (wb & -> & Htb & Hshb & Hattb).
    { unfold getParentEditor. destruct (_parentEditor ea) as [p|] eqn:Hp.
      - apply removeEditor_tidy; [done|]. unfold parentOf. by rewrite Hea.
      - exists wa. split; [done|]. split; [done|]. split; [apply shrinks_refl|done]. }
    cbn [mbind Outcome_bind bind].
    destruct (detach_tidy wb el Htb) as (Htc & Hshc & Hnone).
    eexists. split; [done|]. split; [done|]. split; [|done].
    eapply shrinks_trans; [exact Hsha|]. eapply shrinks_trans; [exact Hshb|done].
Qed.
(** What [closeEditor] does after an [openEditor] that returned a new
    editor: the slot is empty again and the editor is nobody's sub editor
    or [_parentEditor]. *)
Lemma closeEditor_after_openEditor E w fuel fuel' r w1 :
  is_Some (_Editors w !! getTypeId scene E) →
  closed w → getEditor w E = None →
  openEditor scene fuel E w = Returns (r, w1) →
  ∃ e w2,
    r = Some e
    ∧ getEditor w1 E = Some e
    ∧ closeEditor scene (S fuel') E w1 = Returns w2
    ∧ getEditor w2 E = None
    ∧ ∀ j, e ∉ childrenOf w2 j ∧ parentOf w2 j ≠ Some e.
Proof.
  intros [cls Hreg] Hcl Hslot Hopen.
  assert (∃ e, r = Some e) as [e ->].
  { destruct fuel as [|fuel]; simpl in Hopen; [done|].
    destruct (isAttached scene E); simpl in Hopen; [|done].
    rewrite Hslot in Hopen. unfold createEditor in Hopen. rewrite Hreg in Hopen.
    apply bind_Returns in Hopen as (? & _ & [= <- _]). eauto. }
  destruct (openEditor_post _ _ _ _ _ Hopen Hcl)
    as [_ _ Hreg1 _ Hslot1 Hnew].
  specialize (Hslot1 e eq_refl).
  destruct (Hnew Hslot e eq_refl) as (_ & Hnopar & p & He & Honly & Hin).
  exists e. simpl. unfold getEditor at 2. rewrite Hslot1, Hreg1, Hreg.
  unfold deref. rewrite He. simpl. rewrite He. simpl.
  destruct p as [pe|]; simpl.
  + destruct (Hin pe eq_refl) as (before & after & Hch & Hb & Ha).
    destruct (removeEditor_Returns w1 pe e) as
      (w' & b' & a' & Hret & Hch' & Hb' & Hatt & _ & _ & Hchn & Hpan & _).
    { eauto. } { rewrite Hch. set_solver. }
    rewrite Hch in Hch'.
    destruct (split_at_first_unique _ _ _ _ _ Hch' Hb Hb') as [<- <-].
    rewrite Hret. simpl. eexists. split; [done|]. split; [done|]. split; [done|].
    split; [unfold getEditor; simpl; apply lookup_delete_eq|].
    intros j. change (childrenOf (with_attachment _ w') j) with (childrenOf w' j).
    change (parentOf (with_attachment _ w') j) with (parentOf w' j).
    rewrite Hchn, Hpan. split.
    * case_decide as Hj; [rewrite elem_of_app; tauto|].
      intros Hje. apply Honly in Hje. congruence.
    * case_decide; [done|apply Hnopar].
  + eexists. split; [done|]. split; [done|]. split; [done|].
    split; [unfold getEditor; simpl; apply lookup_delete_eq|].
    intros j. change (childrenOf (with_attachment _ w1) j) with (childrenOf w1 j).
    change (parentOf (with_attachment _ w1) j) with (parentOf w1 j).
    split; [|apply Hnopar]. intros Hje. by apply Honly in Hje.
Qed.
End OpenProperties.

(** ** Document order of the sub editors *)

Section OrderProperties.
Context {PartId : Type}.
Implicit Types (w : @World PartId).
Variable scene : Scene.

Lemma linked_unique first l1 l2 : linked scene first l1 → linked scene first l2 → l1 = l2.
Proof.
  revert first l2. induction l1 as [|c l1 IH]; intros first [|c2 l2]; simpl.
  - done.
  - intros -> [? _]. done.
  - intros [-> _] ?. done.
  - intros [-> H1] [[= <-] H2]. f_equal. eauto.
Qed.

Lemma linked_app first l1 c l2 :
  linked scene first (l1 ++ c :: l2) → linked scene (getNext scene c) l2.
Proof.
  revert first. induction l1 as [|c1 l1 IH]; intros first; simpl.
  - by intros [_ ?].
  - intros [_ ?]. eauto.
Qed.

Lemma linked_NoDup first l : linked scene first l → NoDup l.
Proof.
  revert first. induction l as [|c l IH]; intros first; simpl.
  - constructor.
  - intros [-> Hl]. constructor; [|eauto].
    intros (l1 & l2 & Heq)%list_elem_of_split. subst l.
    pose proof (linked_app _ _ _ _ Hl) as Hl2.
    pose proof (linked_unique _ _ _ Hl Hl2) as Hlen%(f_equal length).
    rewrite length_app in Hlen. simpl in Hlen. lia.
Qed.

Lemma findReference_linked k nextNode l w :
  linked scene nextNode l → length l ≤ k →
  findReference scene k nextNode w = Returns (head (editorsIn w l)).
Proof.
  revert k nextNode. induction l as [|c l IH]; intros k nextNode; simpl.
  - intros -> _. by destruct k.
  - intros [-> Hl] Hk. destruct k as [|k]; [lia|]. simpl.
    destruct (getEditor w c); [done|]. apply IH; [done|lia].
Qed.

Lemma editorsIn_app w l1 l2 : editorsIn w (l1 ++ l2) = editorsIn w l1 ++ editorsIn w l2.
Proof.
  induction l1 as [|c l1 IH]; simpl; [done|]. destruct (getEditor w c); simpl; by rewrite IH.
Qed.

Lemma elem_of_editorsIn w l e :
  e ∈ editorsIn w l ↔ ∃ c, c ∈ l ∧ getEditor w c = Some e.
Proof.
  induction l as [|c l IH]; simpl.
  - split; [by intros ?%elem_of_nil | by intros (? & ?%elem_of_nil & _)].
  - destruct (getEditor w c) as [e0|] eqn:Hc.
    + rewrite elem_of_cons, IH. split.
      * intros [->|(c' & ? & ?)]; [exists c | exists c']; rewrite elem_of_cons; auto.
      * intros (c' & [->|?]%elem_of_cons & Hc'); [left; congruence | right; eauto].
    + rewrite IH. split.
      * intros (c' & ? & ?). exists c'. rewrite elem_of_cons; auto.
      * intros (c' & [->|?]%elem_of_cons & Hc'); [congruence | eauto].
Qed.

Lemma editorsIn_ext w w' l :
  (∀ c, c ∈ l → getEditor w' c = getEditor w c) → editorsIn w' l = editorsIn w l.
Proof.
  induction l as [|c l IH]; simpl; [done|]. intros H.
  rewrite (H c) by (left). rewrite IH; [done|]. intros c' ?. apply H. by right.
Qed.

Lemma editorsIn_NoDup w l :
  NoDup l →
  (∀ c e, c ∈ l → getEditor w c = Some e → elementOf w e = Some c) →
  NoDup (editorsIn w l).
Proof.
  induction 1 as [|c l Hc Hl IH]; simpl; intros Hel; [constructor|].
  assert (NoDup (editorsIn w l)) by (apply IH; intros; apply Hel; [by right|done]).
  destruct (getEditor w c) as [e|] eqn:He; [|done].
  constructor; [|done]. intros (c' & Hc' & He')%elem_of_editorsIn.
  assert (c' = c); [|by subst].
  pose proof (Hel c e (list_elem_of_here _ _) He).
  pose proof (Hel c' e (list_elem_of_further _ _ _ Hc') He'). congruence.
Qed.

Lemma openEditor_new fuel el w cls :
  isAttached scene el = true → getEditor w el = None →
  _Editors w !! getTypeId scene el = Some cls →
  openEditor scene (S fuel) el w
  = (let e := fresh (dom (heap w)) in
     w2 ← linkToAncestor scene (openEditor scene fuel) fuel e el (getParent scene el)
            (store e (newEditor el) w);
     Returns (Some e, with_attachment (<[el := e]> (attachment w2)) w2)).
Proof.
  intros Hatt Hslot Hreg. simpl. rewrite Hatt, Hslot. unfold createEditor.
  by rewrite Hreg.
Qed.

Lemma linkToAncestor_attached open fuel e el node pe w :
  getEditor w node = Some pe →
  linkToAncestor scene open (S fuel) e el (Some node) w
  = (referenceEditor ← findReference scene fuel (getNext scene el) w;
     insertEditor pe e referenceEditor w).
Proof. intros Hpe. simpl. by rewrite Hpe. Qed.

Lemma filter_elem_of_ext (K K' l : list EditorId) :
  (∀ x, x ∈ l → x ∈ K' ↔ x ∈ K) →
  filter (λ x, x ∈ K') l = filter (λ x, x ∈ K) l.
Proof.
  induction l as [|x l IH]; intros H; [done|].
  rewrite !filter_cons. rewrite IH by (intros; apply H; by right).
  destruct (decide (x ∈ K')) as [Hx|Hx], (decide (x ∈ K)) as [Hy|Hy]; try done.
  - apply H in Hx; [done|left].
  - apply H in Hy; [done|left].
Qed.

(** Opening a sibling that has a registered kind and no editor yet. *)
Lemma openEditor_new_sibling parent first before c after w fuel pe cls :
  let siblings := before ++ c :: after in
  linked scene first siblings →
  getParent scene c = Some parent → isAttached scene c = true →
  getEditor w parent = Some pe →
  siblings_attached w parent siblings →
  in_document_order w parent siblings →
  getEditor w c = None →
  _Editors w !! getTypeId scene c = Some cls →
  length siblings + 2 ≤ fuel →
  ∃ e w',
    openEditor scene fuel c w = Returns (Some e, w')
    ∧ attachment w' = <[c := e]> (attachment w)
    ∧ _Editors w' = _Editors w
    ∧ inserted e (head (editorsIn w after)) (childrenOf w pe) (childrenOf w' pe)
    ∧ siblings_attached w' parent siblings
    ∧ in_document_order w' parent siblings.
Proof.
  intros siblings Hlinked Hparent Hatt Hpe (Hstore & Helem) (pe' & Hpe' & Horder)
    Hslot Hreg Hfuel.
  assert (pe' = pe) as -> by congruence. clear Hpe'.
  destruct (Hstore pe Hpe) as (Hpeobj & Hchdom).
  pose proof (linked_NoDup _ _ Hlinked) as Hnodup.
  assert (Hcb : c ∉ before ∧ c ∉ after).
  { subst siblings. apply NoDup_app in Hnodup as (_ & Hb & Ha).
    apply NoDup_cons in Ha as [? _]. split; [|done]. intros ?. eapply Hb; [done|left]. }
  destruct Hcb as [Hcb Hca].
  destruct fuel as [|[|k]]; [lia|lia|].
  assert (Hk : length after ≤ k).
  { subst siblings. rewrite length_app in Hfuel. simpl in Hfuel. lia. }
  rewrite (openEditor_new _ _ _ cls) by done. cbv zeta.
  set (e := fresh (dom (heap w))).
  set (w1 := store e (newEditor c) w).
  assert (Hfresh : e ∉ dom (heap w)) by apply fresh_not_in_dom.
  assert (Hepe : e ≠ pe).
  { intros ->. apply Hfresh. by apply elem_of_dom. }
  rewrite Hparent.
  rewrite (linkToAncestor_attached _ _ _ _ _ pe) by done.
  rewrite (findReference_linked k _ after)
    by (done || exact (linked_app _ _ _ _ Hlinked)).
  rewrite (editorsIn_ext w w1 after) by done. simpl.
  assert (Hch1 : ∀ j, childrenOf w1 j = childrenOf w j).
  { intros j. subst w1. destruct (decide (e = j)) as [<-|Hne].
    - rewrite childrenOf_store_same. simpl. unfold childrenOf.
      apply not_elem_of_dom in Hfresh. by rewrite Hfresh.
    - by apply childrenOf_store_ne. }
  assert (Hel1 : ∀ j, elementOf w1 j = if decide (j = e) then Some c else elementOf w j).
  { intros j. subst w1. case_decide as Hj.
    - subst j. by rewrite elementOf_store_same.
    - by rewrite elementOf_store_ne. }
  assert (HK : editorsIn w siblings = editorsIn w before ++ editorsIn w after).
  { subst siblings. rewrite editorsIn_app. simpl. by rewrite Hslot. }
  destruct (insertEditor_Returns w1 pe e (head (editorsIn w after)))
    as (w2 & l' & Hret & Hins & Hatt2 & Hreg2 & Hdom2 & Hch2 & _ & Hel2 & _ & _).
  { subst w1. unfold store. simpl. rewrite lookup_insert_ne by done. done. }
  { subst w1. unfold store. simpl. rewrite lookup_insert_eq. eauto. }
  { subst w1. by rewrite parentOf_store_same. }
  { intros r Hr%head_Some_elem_of. rewrite Hch1.
    assert (Hin : r ∈ editorsIn w siblings) by (rewrite HK, elem_of_app; auto).
    rewrite <- Horder in Hin. by apply list_elem_of_filter in Hin as [_ ?]. }
  rewrite Hret. simpl. rewrite Hch1 in Hins.
  set (w3 := with_attachment (<[c:=e]> (attachment w2)) w2).
  exists e, w3.
  assert (Hch3 : childrenOf w3 pe = l').
  { change (childrenOf w3 pe) with (childrenOf w2 pe).
    by rewrite Hch2, decide_True. }
  assert (Hslot3 : ∀ c', getEditor w3 c' = if decide (c' = c) then Some e else getEditor w c').
  { intros c'. subst w3. unfold getEditor. simpl. rewrite Hatt2, lookup_insert.
    subst w1. simpl. by destruct (decide (c = c')), (decide (c' = c)). }
  assert (HK3 : editorsIn w3 siblings = editorsIn w before ++ e :: editorsIn w after).
  { subst siblings. rewrite editorsIn_app. simpl. rewrite Hslot3, decide_True by done.
    f_equal; [|f_equal]; apply editorsIn_ext; intros c' Hc'; rewrite Hslot3;
      case_decide; congruence. }
  assert (Hel : e ∉ childrenOf w pe) by (intros ?; by apply Hfresh, Hchdom).
  split; [done|]. split; [by subst w3; simpl; rewrite Hatt2|]. split; [done|].
  split; [by rewrite Hch3|].
  assert (Helem3 : ∀ c' e', c' ∈ siblings → getEditor w3 c' = Some e' →
                            elementOf w3 e' = Some c').
  { intros c' e' Hc'. rewrite Hslot3.
    change (elementOf w3 e') with (elementOf w2 e'). rewrite Hel2, Hel1.
    destruct (decide (c' = c)) as [->|Hcc].
    - intros [= <-]. by rewrite decide_True.
    - intros He'. pose proof (Helem c' e' Hc' He') as Hee.
      case_decide as Hee'; [|done]. subst e'. exfalso. apply Hfresh.
      unfold elementOf in Hee. apply elem_of_dom.
      destruct (heap w !! e); [eauto|done]. }
  split.
  { split; [|done]. intros pe''. rewrite Hslot3. case_decide as Hpc.
    - subst. congruence.
    - rewrite Hpe. intros [= <-]. change (heap w3) with (heap w2). split.
      + apply elem_of_dom. rewrite Hdom2. subst w1. unfold store. simpl.
        rewrite dom_insert_L. apply elem_of_dom in Hpeobj. set_solver.
      + intros x. rewrite Hch3. intros [->|Hx]%(inserted_elem_of _ _ _ _ _ Hins);
          rewrite Hdom2; subst w1; unfold store; simpl; rewrite dom_insert_L;
          [set_solver|]. apply Hchdom in Hx. set_solver. }
  exists pe. split.
  { rewrite Hslot3. case_decide; [congruence|done]. }
  rewrite Hch3, HK3.
  set (K := editorsIn w siblings) in *.
  set (K' := editorsIn w before ++ e :: editorsIn w after).
  assert (HKK : ∀ x, x ∈ childrenOf w pe → x ∈ K' ↔ x ∈ K).
  { intros x Hx. subst K'. rewrite HK, !elem_of_app, elem_of_cons.
    assert (x ≠ e) by congruence. naive_solver. }
  assert (HeK : e ∈ K') by (subst K'; set_solver).
  destruct (head (editorsIn w after)) as [r|] eqn:Hhead; simpl in Hins.
  - destruct Hins as (bl & al & Hl & Hrb & ->).
    destruct (editorsIn w after) as [|r' Ka'] eqn:Hafter; [done|].
    injection Hhead as ->.
    assert (HrK : r ∈ K) by (rewrite HK; set_solver).
    assert (HrK' : r ∈ K') by (subst K'; set_solver).
    rewrite Hl in Horder, HKK.
    rewrite filter_app, filter_cons_True in Horder by done.
    pose proof (eq_trans Horder HK) as Horder2.
    assert (HnodupK : NoDup K).
    { apply editorsIn_NoDup; done. }
    rewrite HK in HnodupK. apply NoDup_app in HnodupK as (_ & Hdisj & _).
    destruct (split_at_first_unique _ _ _ _ _ Horder2) as [Hb Ha].
    { rewrite list_elem_of_filter. tauto. }
    { intros Hr. eapply Hdisj; [done|left]. }
    rewrite filter_app, !filter_cons_True by done.
    rewrite (filter_elem_of_ext K K' bl), (filter_elem_of_ext K K' al).
    + by rewrite Hb, Ha.
    + intros x Hx. apply HKK. rewrite elem_of_app, elem_of_cons. auto.
    + intros x Hx. apply HKK. rewrite elem_of_app. auto.
  - subst l'. destruct (editorsIn w after) as [|? ?] eqn:Hafter; [|done].
    rewrite filter_app, filter_cons_True, filter_nil by done.
    rewrite (filter_elem_of_ext K K') by done.
    rewrite Horder, HK. subst K'. by rewrite app_nil_r.
Qed.

Lemma editorsIn_none w l :
  (∀ c, c ∈ l → getEditor w c = None) → editorsIn w l = [].
Proof.
  induction l as [|c l IH]; simpl; [done|]. intros H.
  rewrite (H c) by left. apply IH. intros c' ?. apply H. by right.
Qed.

(** Opening a root element whose children have no editor yet gives a store
    in which its editor lists the (no) editors of the children in order. *)
Lemma openEditor_root_establishes_order parent siblings w cls fuel :
  getParent scene parent = None → isAttached scene parent = true →
  _Editors w !! getTypeId scene parent = Some cls →
  getEditor w parent = None →
  parent ∉ siblings →
  (∀ c, c ∈ siblings → getEditor w c = None) →
  ∃ pe w',
    openEditor scene (S fuel) parent w = Returns (Some pe, w')
    ∧ siblings_attached w' parent siblings
    ∧ in_document_order w' parent siblings.
Proof.
  intros Hroot Hatt Hreg Hslot Hnot Hnone.
  rewrite (openEditor_new _ _ _ cls) by done. cbv zeta. rewrite Hroot.
  set (pe := fresh (dom (heap w))).
  assert (Hlink : ∀ open k, linkToAncestor scene open k pe parent None
                              (store pe (newEditor parent) w)
                            = Returns (store pe (newEditor parent) w))
    by (intros open [|k]; done).
  rewrite Hlink. simpl.
  set (w' := with_attachment _ _).
  assert (Hslots : ∀ c, c ∈ siblings → getEditor w' c = None).
  { intros c Hc. unfold getEditor. subst w'. simpl.
    rewrite lookup_insert_ne by (intros ->; done). by apply Hnone. }
  assert (Hch : childrenOf w' pe = []).
  { unfold childrenOf. subst w'. simpl. by rewrite lookup_insert_eq. }
  assert (Hpe : getEditor w' parent = Some pe).
  { unfold getEditor. subst w'. simpl. apply lookup_insert_eq. }
  exists pe, w'. split; [done|]. split.
  - split.
    + intros pe'. rewrite Hpe. intros [= <-]. split.
      * subst w'. simpl. rewrite lookup_insert_eq. eauto.
      * intros x. rewrite Hch. by intros ?%elem_of_nil.
    + intros c e Hc. by rewrite Hslots.
  - exists pe. split; [done|]. rewrite Hch, editorsIn_none by done. done.
Qed.

(** Opening a child first: when the parent is an attached root with a
    registered editor class and neither it nor a sibling has an editor,
    [openEditor] on a sibling opens the parent's editor too, and the new
    editor is its only sub editor. *)
Lemma openEditor_first_child_opens_root parent first before c after w fuel cls cls' :
  let siblings := before ++ c :: after in
  linked scene first siblings →
  getParent scene c = Some parent → isAttached scene c = true →
  _Editors w !! getTypeId scene c = Some cls →
  getParent scene parent = None → isAttached scene parent = true →
  _Editors w !! getTypeId scene parent = Some cls' →
  getEditor w parent = None →
  parent ∉ siblings →
  (∀ c', c' ∈ siblings → getEditor w c' = None) →
  length siblings + 3 ≤ fuel →
  ∃ e pe w',
    openEditor scene fuel c w = Returns (Some e, w')
    ∧ getEditor w' parent = Some pe
    ∧ childrenOf w' pe = [e]
    ∧ siblings_attached w' parent siblings
    ∧ in_document_order w' parent siblings
    ∧ _Editors w' = _Editors w
    ∧ ∀ c', getEditor w' c'
            = if decide (c' = c) then Some e
              else if decide (c' = parent) then Some pe
              else getEditor w c'.
Proof.
  intros siblings Hlinked Hparent Hatt Hreg Hroot Hattp Hregp Hslotp Hnotin Hnone Hfuel.
  pose proof (linked_NoDup _ _ Hlinked) as Hnodup.
  assert (Hc : c ∈ siblings) by (subst siblings; set_solver).
  assert (Hcp : c ≠ parent) by (intros ->; done).
  destruct fuel as [|[|[|k]]]; [lia..|].
  assert (Hk : length after ≤ k).
  { subst siblings. rewrite length_app in Hfuel. simpl in Hfuel. lia. }
  rewrite (openEditor_new _ _ _ cls) by auto. cbv zeta. rewrite Hparent.
  set (e := fresh (dom (heap w))).
  set (w1 := store e (newEditor c) w).
  cbn [linkToAncestor]. change (getEditor w1 parent) with (getEditor w parent).
  rewrite Hslotp.
  rewrite (openEditor_new _ _ w1 cls') by done. cbv zeta. rewrite Hroot.
  set (pe := fresh (dom (heap w1))).
  assert (Hpee : pe ≠ e).
  { intros Heq. pose proof (fresh_not_in_dom w1) as Hf. fold pe in Hf.
    apply Hf. rewrite Heq. subst w1. unfold store. simpl. rewrite dom_insert_L.
    set_solver. }
  set (w2 := store pe (newEditor parent) w1).
  change (linkToAncestor scene (openEditor scene (S k)) (S k) pe parent None w2)
    with (Returns (A:=World) w2).
  cbn [mbind Outcome_bind bind].
  set (w3 := with_attachment (<[parent:=pe]> (attachment w2)) w2).
  rewrite (findReference_linked (S k) _ after)
    by (lia || exact (linked_app _ _ _ _ Hlinked)).
  assert (Hnone3 : ∀ c', c' ∈ siblings → getEditor w3 c' = None).
  { intros c' Hc'. unfold getEditor. subst w3 w2 w1. simpl.
    rewrite lookup_insert_ne by (intros ->; done). by apply Hnone. }
  rewrite editorsIn_none by (intros c' Hc'; apply Hnone3; subst siblings; set_solver).
  cbn [head mbind Outcome_bind bind].
  destruct (insertEditor_Returns w3 pe e None)
    as (w4 & l' & Hret & Hins & Hatt4 & Hreg4 & Hdom4 & Hch4 & _ & Hel4 & _ & _).
  { subst w3 w2. simpl. rewrite lookup_insert_eq. eauto. }
  { subst w3 w2 w1. simpl. rewrite lookup_insert_ne, lookup_insert_eq by done. eauto. }
  { unfold parentOf. subst w3 w2 w1. simpl.
    by rewrite lookup_insert_ne, lookup_insert_eq by done. }
  { intros r [=]. }
  rewrite Hret. cbn [mbind Outcome_bind bind].
  assert (Hch3 : childrenOf w3 pe = []).
  { unfold childrenOf. subst w3 w2. simpl. by rewrite lookup_insert_eq. }
  simpl in Hins. rewrite Hch3 in Hins. simpl in Hins. subst l'.
  set (w5 := with_attachment (<[c:=e]> (attachment w4)) w4).
  assert (Hslot5 : ∀ c', getEditor w5 c'
                         = if decide (c' = c) then Some e
                           else if decide (c' = parent) then Some pe
                           else getEditor w c').
  { intros c'. unfold getEditor. subst w5. simpl. rewrite Hatt4. subst w3 w2 w1. simpl.
    rewrite !lookup_insert.
    destruct (decide (c = c')), (decide (c' = c)); try done; try congruence.
    destruct (decide (parent = c')), (decide (c' = parent)); try done; congruence. }
  assert (Hch5 : childrenOf w5 pe = [e]).
  { change (childrenOf w5 pe) with (childrenOf w4 pe). by rewrite Hch4, decide_True. }
  assert (Hpe5 : getEditor w5 parent = Some pe).
  { rewrite Hslot5. rewrite decide_False by done. by rewrite decide_True. }
  assert (Hed5 : editorsIn w5 siblings = [e]).
  { subst siblings. apply NoDup_app in Hnodup as (_ & Hb & Ha).
    apply NoDup_cons in Ha as [Hca _].
    rewrite editorsIn_app. simpl. rewrite Hslot5, decide_True by done.
    rewrite !editorsIn_none; [done|..].
    - intros c' Hc'. rewrite Hslot5.
      rewrite decide_False by (intros ->; done).
      rewrite decide_False by (intros ->; apply Hnotin; set_solver).
      apply Hnone. set_solver.
    - intros c' Hc'. rewrite Hslot5.
      rewrite decide_False by (intros ->; by eapply Hb; [|left]).
      rewrite decide_False by (intros ->; apply Hnotin; set_solver).
      apply Hnone. set_solver. }
  exists e, pe, w5. split; [done|]. split; [done|]. split; [done|]. split.
  - split.
    + intros pe'. rewrite Hpe5. intros [= <-]. change (heap w5) with (heap w4). split.
      * apply elem_of_dom. rewrite Hdom4. subst w3 w2. simpl. rewrite dom_insert_L.
        set_solver.
      * intros x. rewrite Hch5. intros ->%list_elem_of_singleton.
        rewrite Hdom4. subst w3 w2 w1. simpl. rewrite !dom_insert_L. set_solver.
    + intros c' e' Hc'. rewrite Hslot5.
      change (elementOf w5 e') with (elementOf w4 e'). rewrite Hel4.
      destruct (decide (c' = c)) as [->|Hne].
      * intros [= <-]. unfold elementOf. subst w3 w2 w1. simpl.
        by rewrite lookup_insert_ne, lookup_insert_eq by done.
      * rewrite decide_False by (intros ->; done). by rewrite Hnone.
  - split; [|split; [|exact Hslot5]].
    2:{ change (_Editors w5) with (_Editors w4). by rewrite Hreg4. }
    exists pe. split; [done|]. rewrite Hch5, Hed5.
    rewrite filter_cons_True by set_solver. done.
Qed.

Lemma openEditor_sibling parent first siblings w fuel c :
  linked scene first siblings →
  (∀ c, c ∈ siblings → getParent scene c = Some parent ∧ isAttached scene c = true) →
  siblings_attached w parent siblings →
  in_document_order w parent siblings →
  c ∈ siblings →
  length siblings + 2 ≤ fuel →
  ∃ r w',
    openEditor scene fuel c w = Returns (r, w')
    ∧ siblings_attached w' parent siblings
    ∧ in_document_order w' parent siblings
    ∧ _Editors w' = _Editors w
    ∧ ∀ c', is_Some (getEditor w' c')
            ↔ is_Some (getEditor w c')
              ∨ (c' = c ∧ is_Some (_Editors w !! getTypeId scene c)).
Proof.
  intros Hlinked Hscene Hstore Horder Hc Hfuel.
  destruct (Hscene c Hc) as [Hparent Hatt].
  destruct fuel as [|fuel']; [lia|].
  destruct (getEditor w c) as [e0|] eqn:Hslot.
  { exists (Some e0), w. simpl. rewrite Hatt, Hslot. simpl.
    split; [done|]. split; [done|]. split; [done|]. split; [done|].
    intros c'. split; [auto|]. intros [?|[-> _]]; [done|]. rewrite Hslot. eauto. }
  destruct (_Editors w !! getTypeId scene c) as [cls|] eqn:Hreg.
  2:{ exists None, w. simpl. rewrite Hatt, Hslot. unfold createEditor. rewrite Hreg.
      simpl. split; [done|]. split; [done|]. split; [done|]. split; [done|].
      intros c'. split; [auto|]. intros [?|[_ [? ?]]]; done. }
  apply list_elem_of_split in Hc as (before & after & ->).
  destruct Horder as (pe & Hpe & Horder).
  destruct (openEditor_new_sibling parent first before c after w (S fuel') pe cls)
    as (e & w' & Hopen & Hatt' & Hreg' & _ & Hstore' & Horder'); try done.
  { by exists pe. }
  exists (Some e), w'. split; [done|]. split; [done|]. split; [done|]. split; [done|].
  intros c'. unfold getEditor. rewrite Hatt', lookup_insert.
  destruct (decide (c = c')) as [<-|Hne].
  - split; [intros _; right; eauto | eauto].
  - split; [auto|]. intros [?|[-> _]]; done.
Qed.

Lemma openAll_siblings parent first siblings fuel ops : ∀ w,
  linked scene first siblings →
  (∀ c, c ∈ siblings → getParent scene c = Some parent ∧ isAttached scene c = true) →
  length siblings + 2 ≤ fuel →
  siblings_attached w parent siblings →
  in_document_order w parent siblings →
  (∀ c, c ∈ ops → c ∈ siblings) →
  ∃ w', openAll scene fuel ops w = Returns w'
        ∧ in_document_order w' parent siblings
        ∧ ∀ c, is_Some (getEditor w' c)
               ↔ is_Some (getEditor w c)
                 ∨ (c ∈ ops ∧ is_Some (_Editors w !! getTypeId scene c)).
Proof.
  intros w Hlinked Hscene Hfuel. revert w.
  induction ops as [|c ops IH]; intros w Hstore Horder Hops; simpl.
  - exists w. split; [done|]. split; [done|]. intros c. split; [auto|].
    intros [?|[?%elem_of_nil _]]; done.
  - destruct (openEditor_sibling parent first siblings w fuel c)
      as (r & w1 & -> & Hstore1 & Horder1 & Hreg1 & Hslots1); try done.
    { apply Hops. left. }
    simpl. destruct (IH w1 Hstore1 Horder1) as (w' & -> & Horder' & Hslots').
    { intros c' ?. apply Hops. by right. }
    exists w'. split; [done|]. split; [done|]. intros c'.
    rewrite Hslots', Hslots1, Hreg1, elem_of_cons. naive_solver.
Qed.

Lemma openAll_below_root parent first siblings fuel ops : ∀ w,
  linked scene first siblings →
  (∀ c, c ∈ siblings → getParent scene c = Some parent ∧ isAttached scene c = true) →
  length siblings + 3 ≤ fuel →
  getParent scene parent = None → isAttached scene parent = true →
  is_Some (_Editors w !! getTypeId scene parent) →
  getEditor w parent = None →
  (∀ c, c ∈ siblings → getEditor w c = None) →
  (∀ c, c ∈ ops → c ∈ siblings) →
  (∃ c, c ∈ ops ∧ is_Some (_Editors w !! getTypeId scene c)) →
  ∃ w', openAll scene fuel ops w = Returns w'
        ∧ in_document_order w' parent siblings
        ∧ ∀ c, is_Some (getEditor w' c)
               ↔ is_Some (getEditor w c) ∨ c = parent
                 ∨ (c ∈ ops ∧ is_Some (_Editors w !! getTypeId scene c)).
Proof.
  intros w Hlinked Hscene Hfuel Hroot Hattp [cls' Hregp] Hslotp Hnone.
  assert (Hnotin : parent ∉ siblings).
  { intros Hin. destruct (Hscene _ Hin). congruence. }
  induction ops as [|c ops IH]; intros Hops Hsome.
  { destruct Hsome as (c & Hc%elem_of_nil & _). done. }
  assert (Hc : c ∈ siblings) by (apply Hops; left).
  destruct (Hscene c Hc) as [Hparent Hatt].
  destruct (_Editors w !! getTypeId scene c) as [cls|] eqn:Hreg.
  - apply list_elem_of_split in Hc as (before & after & Heq).
    rewrite Heq in Hlinked, Hfuel.
    destruct (openEditor_first_child_opens_root parent first before c after w fuel
                cls cls')
      as (e & pe & w1 & Hopen & Hpe & _ & Hstore1 & Horder1 & Hreg1 & Hslots1);
      try done; try (by rewrite <- Heq).
    rewrite <- Heq in *.
    cbn [openAll]. rewrite Hopen. cbn [mbind Outcome_bind bind].
    destruct (openAll_siblings parent first siblings fuel ops w1)
      as (w' & -> & Horder' & Hslots'); try done; [lia|intros; apply Hops; by right|].
    exists w'. split; [done|]. split; [done|]. intros c'.
    rewrite Hslots', Hslots1, Hreg1, elem_of_cons.
    destruct (decide (c' = c)) as [->|?]; [rewrite Hreg; naive_solver|].
    destruct (decide (c' = parent)) as [->|?]; naive_solver.
  - cbn [openAll]. destruct fuel as [|fuel']; [lia|].
    assert (Hnop : openEditor scene (S fuel') c w = Returns (None, w)).
    { simpl. rewrite Hatt, (Hnone c Hc). unfold createEditor. by rewrite Hreg. }
    rewrite Hnop. cbn [mbind Outcome_bind bind].
    destruct IH as (w' & -> & Horder' & Hslots').
    { intros c' ?. apply Hops. by right. }
    { destruct Hsome as (c' & [->|Hc']%elem_of_cons & Hr); [|eauto].
      rewrite Hreg in Hr. by destruct Hr. }
    exists w'. split; [done|]. split; [done|]. intros c'.
    rewrite Hslots', elem_of_cons. split; [naive_solver|].
    intros [?|[?|[[->|?] Hr]]]; auto. rewrite Hreg in Hr. by destruct Hr.
Qed.

(** Claim C1. Let [siblings] be a run of elements linked by [getNext()],
    all attached children of [parent]. (1) From a store in which the
    parent's editor lists the editors of the siblings in document order,
    any sequence of [openEditor] calls on siblings returns, and the
    parent's editor still lists the editors of the siblings in document
    order; a sibling has an editor afterwards exactly if it had one or was
    opened and has a registered editor class. (2) In such a store one
    [openEditor] on a sibling without editor puts the new editor
    immediately before the editor of the first later sibling that has one,
    and at the end when no later sibling has one. (3) When [parent] is an
    attached root with a registered editor class and neither it nor a
    sibling has an editor yet, a sequence of [openEditor] calls on
    siblings, one of them with a registered editor class, returns too, and
    the editor it opened for the parent lists the editors of the siblings
    in document order. *)
Theorem openEditor_keeps_document_order parent first siblings fuel :
  linked scene first siblings →
  (∀ c, c ∈ siblings → getParent scene c = Some parent ∧ isAttached scene c = true) →
  length siblings + 3 ≤ fuel →
  (∀ w ops,
     siblings_attached w parent siblings →
     in_document_order w parent siblings →
     (∀ c, c ∈ ops → c ∈ siblings) →
     ∃ w', openAll scene fuel ops w = Returns w'
           ∧ in_document_order w' parent siblings
           ∧ ∀ c, is_Some (getEditor w' c)
                  ↔ is_Some (getEditor w c)
                    ∨ (c ∈ ops ∧ is_Some (_Editors w !! getTypeId scene c)))
  ∧ (∀ w before c after,
       siblings_attached w parent siblings →
       in_document_order w parent siblings →
       siblings = before ++ c :: after →
       getEditor w c = None →
       is_Some (_Editors w !! getTypeId scene c) →
       ∃ e w' pe,
         openEditor scene fuel c w = Returns (Some e, w')
         ∧ getEditor w parent = Some pe
         ∧ getEditor w' c = Some e
         ∧ inserted e (head (editorsIn w after)) (childrenOf w pe) (childrenOf w' pe))
  ∧ (∀ w ops,
       getParent scene parent = None → isAttached scene parent = true →
       is_Some (_Editors w !! getTypeId scene parent) →
       getEditor w parent = None →
       (∀ c, c ∈ siblings → getEditor w c = None) →
       (∀ c, c ∈ ops → c ∈ siblings) →
       (∃ c, c ∈ ops ∧ is_Some (_Editors w !! getTypeId scene c)) →
       ∃ w', openAll scene fuel ops w = Returns w'
             ∧ in_document_order w' parent siblings
             ∧ ∀ c, is_Some (getEditor w' c)
                    ↔ is_Some (getEditor w c) ∨ c = parent
                      ∨ (c ∈ ops ∧ is_Some (_Editors w !! getTypeId scene c))).
Proof.
  intros Hlinked Hscene Hfuel. split; [|split].
  - intros w ops Hstore Horder Hops.
    apply (openAll_siblings parent first); auto. lia.
  - intros w before c after Hstore Horder -> Hslot [cls Hreg].
    destruct Horder as (pe & Hpe & Horder).
    destruct (Hscene c) as [Hparent Hatt]; [set_solver|].
    destruct (openEditor_new_sibling parent first before c after w fuel pe cls)
      as (e & w' & Hopen & Hatt' & _ & Hins & _ & _); try done; [by exists pe|lia|].
    exists e, w', pe. split; [done|]. split; [done|]. split; [|done].
    unfold getEditor. rewrite Hatt'. apply lookup_insert_eq.
  - intros w ops Hroot Hattp Hregp Hslotp Hnone Hops Hsome.
    by apply (openAll_below_root parent first).
Qed.
End OrderProperties.

(** ** Hit testing *)

Section HitTestProperties.
Context {PartId Part : Type}.
Implicit Types (w : @World PartId).
Variable geometry : Geometry.
Variable _getPartInfoAt :
  EditorId -> @GXElementEditor PartId -> GPoint -> GTransform -> option Part.
Variable acceptor : option (EditorId -> @GXElementEditor PartId -> bool).
Variable location : GPoint.
Variable transform : GTransform.

Local Notation hitTest :=
  (getPartInfoAt geometry _getPartInfoAt acceptor location transform).
Local Notation self :=
  (hitSelf geometry _getPartInfoAt acceptor location transform).

Lemma hitChildren_all_miss (hit : EditorId → Outcome (option Part * list Probe))
    children probes rest :
  all_miss hit children probes →
  hitChildren hit (children ++ rest) (length children)
  = Returns (None, concat (reverse probes)).
Proof.
  unfold all_miss. revert probes rest.
  induction children as [|c children IH] using rev_ind; intros probes rest Hall.
  - apply Forall2_nil_inv_l in Hall as ->. done.
  - apply Forall2_app_inv_l in Hall as (ps & pc & Hps & Hc & ->).
    apply Forall2_cons_inv_l in Hc as (p & ? & Hp & ->%Forall2_nil_inv_l & ->).
    rewrite length_app, Nat.add_1_r, <- app_assoc. simpl.
    rewrite lookup_app_r, Nat.sub_diag by done. simpl.
    rewrite Hp. simpl. rewrite (IH ps (c :: rest) Hps). simpl.
    rewrite reverse_app, concat_app. simpl. by rewrite app_nil_r.
Qed.

Lemma hitChildren_first_hit (hit : EditorId → Outcome (option Part * list Probe))
    before c after probes part pc rest :
  all_miss hit after probes →
  hit c = Returns (Some part, pc) →
  hitChildren hit (before ++ c :: after ++ rest) (length (before ++ c :: after))
  = Returns (Some part, concat (reverse probes) ++ pc).
Proof.
  unfold all_miss. revert probes rest.
  induction after as [|x after IH] using rev_ind; intros probes rest Hall Hc.
  - apply Forall2_nil_inv_l in Hall as ->.
    rewrite length_app, Nat.add_1_r. simpl.
    rewrite lookup_app_r, Nat.sub_diag by done. simpl. by rewrite Hc.
  - apply Forall2_app_inv_l in Hall as (ps & px & Hps & Hx & ->).
    apply Forall2_cons_inv_l in Hx as (p & ? & Hp & ->%Forall2_nil_inv_l & ->).
    replace (before ++ c :: (after ++ [x]) ++ rest)
      with ((before ++ c :: after) ++ x :: rest)
      by (by rewrite <- !app_assoc).
    replace (length (before ++ c :: after ++ [x]))
      with (S (length (before ++ c :: after)))
      by (rewrite !length_app; simpl; rewrite length_app; simpl; lia).
    simpl. rewrite lookup_app_r, Nat.sub_diag by done. simpl.
    rewrite Hp. simpl.
    replace ((before ++ c :: after) ++ x :: rest)
      with (before ++ c :: after ++ x :: rest)
      by (by rewrite <- !app_assoc).
    rewrite (IH ps (x :: rest) Hps Hc). simpl.
    rewrite reverse_app, concat_app. simpl. by rewrite app_nil_r, app_assoc.
Qed.

Lemma hitChildren_returns (hit : EditorId → Outcome (option Part * list Probe))
    children n :
  n ≤ length children →
  Forall (λ c, ∃ res, hit c = Returns res) children →
  ∃ res, hitChildren hit children n = Returns res.
Proof.
  intros Hn Hall. induction n as [|n IH]; simpl; [eauto|].
  destruct (children !! n) as [c|] eqn:Hc.
  2:{ apply lookup_ge_None in Hc. lia. }
  rewrite Forall_forall in Hall.
  destruct (Hall c) as ([[part|] probes] & ->); [by eapply list_elem_of_lookup_2|..];
    simpl; [eauto|].
  destruct IH as ([r later] & ->); [lia|]. simpl. eauto.
Qed.

Lemma getPartInfoAt_unfold w this this_ fuel :
  heap w !! this = Some this_ →
  hitTest (S fuel) w this
  = ('(result, probes) ← hitChildren (hitTest fuel w) (childrenOf w this)
                           (length (childrenOf w this));
     match result with
     | Some part => Returns (Some part, probes)
     | None => Returns (fst (self this this_), probes ++ snd (self this this_))
     end).
Proof.
  intros Hthis. simpl. unfold deref, childrenOf. rewrite Hthis. simpl.
  destruct (_editors this_) as [l|]; simpl.
  - destruct (hitChildren _ l (length l)) as [[[part|] probes]| |]; simpl; try done.
    by destruct (self this this_).
  - by destruct (self this this_).
Qed.

Lemma getPartInfoAt_returns w n this :
  finite_below w n this → ∃ res, hitTest n w this = Returns res.
Proof.
  revert this. induction n as [|n IH]; intros this; [done|].
  intros [[this_ Hthis] Hch]. rewrite (getPartInfoAt_unfold _ _ this_) by done.
  destruct (hitChildren_returns (hitTest n w) (childrenOf w this)
              (length (childrenOf w this))) as ([[part|] probes] & ->);
    [done| |simpl; eauto..].
  eapply Forall_impl; [exact Hch|]. intros c Hc. by apply IH.
Qed.

(** Claim C4, amended: the order of the hit test is the order of the
    [_editors] array, which [insertEditor] with a reference editor makes
    differ from the order of insertion. For an editor [this] of the store:
    (1) when the sub editors after [c] in the array all miss and [c] hits,
    the hit of [c] is returned, and the probes are those of the later sub
    editors from the last one back, followed by those of [c]: neither an
    earlier sub editor nor [this] itself is probed; (2) when every sub
    editor misses, the result is the one of the self test, made after all
    sub editors were probed; (3) an editor the acceptor rejects gives no
    hit of its own and its part lookup is not called; (4) an accepted
    editor hits exactly if its bounding box is nonempty, contains the
    location and its part lookup finds a part; (5) of two sub editors the
    one later in the array wins when it hits, whatever the earlier one
    would give; (6) over a finite editor tree the test returns (with
    [null] when nothing hits, by (2)). *)
Theorem getPartInfoAt_topmost_first w this this_ fuel :
  heap w !! this = Some this_ →
  (∀ before c after probes part pc,
     childrenOf w this = before ++ c :: after →
     all_miss (hitTest fuel w) after probes →
     hitTest fuel w c = Returns (Some part, pc) →
     hitTest (S fuel) w this = Returns (Some part, concat (reverse probes) ++ pc))
  ∧ (∀ probes,
       all_miss (hitTest fuel w) (childrenOf w this) probes →
       hitTest (S fuel) w this
       = Returns (fst (self this this_),
                  concat (reverse probes) ++ snd (self this this_)))
  ∧ (∀ f, acceptor = Some f → f this this_ = false →
          self this this_ = (None, [AcceptorCall this]))
  ∧ ((∀ f, acceptor = Some f → f this this_ = true) →
     fst (self this this_)
     = match getBBox geometry this_ transform with
       | Some bbox =>
           if negb (isEmpty geometry bbox) && containsPoint geometry bbox location
           then _getPartInfoAt this this_ location transform
           else None
       | None => None
       end)
  ∧ (∀ a b b_ part,
       childrenOf w this = [a; b] →
       heap w !! b = Some b_ → childrenOf w b = [] →
       fst (self b b_) = Some part →
       hitTest (S (S fuel)) w this = Returns (Some part, snd (self b b_)))
  ∧ (∀ n, finite_below w n this → ∃ res, hitTest n w this = Returns res).
Proof.
  intros Hthis.
  assert (Hmiss : ∀ k i i_ probes,
    heap w !! i = Some i_ →
    all_miss (hitTest k w) (childrenOf w i) probes →
    hitTest (S k) w i
    = Returns (fst (self i i_), concat (reverse probes) ++ snd (self i i_))).
  { intros k i i_ probes Hi Hall. rewrite (getPartInfoAt_unfold _ _ i_) by done.
    pose proof (hitChildren_all_miss _ _ _ [] Hall) as Hc.
    rewrite app_nil_r in Hc. by rewrite Hc. }
  assert (Hhit : ∀ k i i_ before c after probes part pc,
    heap w !! i = Some i_ →
    childrenOf w i = before ++ c :: after →
    all_miss (hitTest k w) after probes →
    hitTest k w c = Returns (Some part, pc) →
    hitTest (S k) w i = Returns (Some part, concat (reverse probes) ++ pc)).
  { intros k i i_ before c after probes part pc Hi Hch Hall Hc.
    rewrite (getPartInfoAt_unfold _ _ i_) by done. rewrite Hch.
    pose proof (hitChildren_first_hit _ before c after probes part pc [] Hall Hc) as Hr.
    rewrite app_nil_r in Hr. by rewrite Hr. }
  split; [|split; [|split; [|split; [|split]]]].
  - intros before c after probes part pc. by apply (Hhit fuel this this_).
  - intros probes. by apply Hmiss.
  - intros f Hf Hrej. unfold hitSelf. rewrite Hf. simpl. by rewrite Hrej.
  - intros Hacc. unfold hitSelf. destruct acceptor as [f|]; simpl.
    + rewrite (Hacc f eq_refl). simpl.
      destruct (getBBox _ this_ transform) as [bbox|]; [|done].
      by destruct (negb (isEmpty geometry bbox) && containsPoint geometry bbox location).
    + destruct (getBBox _ this_ transform) as [bbox|]; [|done].
      by destruct (negb (isEmpty geometry bbox) && containsPoint geometry bbox location).
  - intros a b b_ part Hch Hb Hleaf Hpart.
    rewrite (Hhit (S fuel) this this_ [a] b [] [] part (snd (self b b_)));
      try done; [constructor|].
    rewrite (Hmiss fuel b b_ []) by (done || rewrite Hleaf; constructor).
    by rewrite Hpart.
  - intros n. apply getPartInfoAt_returns.
Qed.
End HitTestProperties.

(** * Further properties *)

(** ** Flags as a bitset *)

Section FlagAlgebra.
Context {PartId : Type}.
Implicit Types (this : @GXElementEditor PartId) (host : @Host PartId).

Lemma with_flags_same this : with_flags (_flags this) this = this.
Proof. by destruct this. Qed.

Lemma hasFlag_false_land flag this :
  hasFlag flag this = false ↔ Z.land (_flags this) flag = 0%Z.
Proof.
  unfold hasFlag. rewrite negb_false_iff. apply Z.eqb_eq.
Qed.

Lemma land_lor_lnot_disjoint (a f : Z) :
  Z.land a f = 0%Z → Z.land (Z.lor a f) (Z.lnot f) = a.
Proof.
  intros H. apply Z.bits_inj'. intros n Hn.
  rewrite Z.land_spec, Z.lor_spec, Z.lnot_spec by done.
  assert (Hb := f_equal (λ z, Z.testbit z n) H). simpl in Hb.
  rewrite Z.land_spec, Z.bits_0 in Hb.
  by destruct (Z.testbit a n), (Z.testbit f n).
Qed.

Lemma land_lnot_disjoint (a f : Z) :
  Z.land a f = 0%Z → Z.land a (Z.lnot f) = a.
Proof.
  intros H. apply Z.bits_inj'. intros n Hn.
  rewrite Z.land_spec, Z.lnot_spec by done.
  assert (Hb := f_equal (λ z, Z.testbit z n) H). simpl in Hb.
  rewrite Z.land_spec, Z.bits_0 in Hb.
  by destruct (Z.testbit a n), (Z.testbit f n).
Qed.

Lemma lor_land_lnot_subset (a f : Z) :
  Z.land a f = f → Z.lor (Z.land a (Z.lnot f)) f = a.
Proof.
  intros H. apply Z.bits_inj'. intros n Hn.
  rewrite Z.lor_spec, Z.land_spec, Z.lnot_spec by done.
  assert (Hb := f_equal (λ z, Z.testbit z n) H). simpl in Hb.
  rewrite Z.land_spec in Hb.
  by destruct (Z.testbit a n), (Z.testbit f n).
Qed.

Lemma land_disjoint_lor (a f g : Z) :
  Z.land f g = 0%Z → Z.land (Z.lor a f) g = Z.land a g.
Proof.
  intros H. apply Z.bits_inj'. intros n Hn.
  rewrite !Z.land_spec, Z.lor_spec.
  assert (Hb := f_equal (λ z, Z.testbit z n) H). simpl in Hb.
  rewrite Z.land_spec, Z.bits_0 in Hb.
  by destruct (Z.testbit a n), (Z.testbit f n), (Z.testbit g n).
Qed.

Lemma land_disjoint_lnot (a f g : Z) :
  Z.land f g = 0%Z → Z.land (Z.land a (Z.lnot f)) g = Z.land a g.
Proof.
  intros H. apply Z.bits_inj'. intros n Hn.
  rewrite !Z.land_spec, Z.lnot_spec by done.
  assert (Hb := f_equal (λ z, Z.testbit z n) H). simpl in Hb.
  rewrite Z.land_spec, Z.bits_0 in Hb.
  by destruct (Z.testbit a n), (Z.testbit f n), (Z.testbit g n).
Qed.

(** A set flag of [GXElementEditor.Flag] has its one bit set. *)
Lemma hasFlag_named (f : FlagName) this :
  hasFlag (flagValue f) this = true → Z.land (_flags this) (flagValue f) = flagValue f.
Proof.
  unfold hasFlag. rewrite negb_true_iff, Z.eqb_neq. intros Hne.
  rewrite flagValue_bit in *. rewrite Z.shiftl_1_l in *.
  assert (Hpos : (0 <= flagBit f)%Z) by (by destruct f).
  apply Z.bits_inj'. intros n Hn. rewrite Z.land_spec.
  destruct (decide (n = flagBit f)) as [->|Hnf].
  - rewrite Z.pow2_bits_true by done. rewrite andb_true_r.
    destruct (Z.testbit (_flags this) (flagBit f)) eqn:Hbit; [done|].
    exfalso. apply Hne. apply Z.bits_inj'. intros m Hm.
    rewrite Z.land_spec, Z.bits_0.
    destruct (decide (m = flagBit f)) as [->|Hmf].
    + by rewrite Hbit.
    + rewrite (Z.pow2_bits_false _ m) by done. apply andb_false_r.
  - rewrite Z.pow2_bits_false by done. apply andb_false_r.
Qed.

Lemma removeFlag_setFlag_mask flag this host host' :
  Z.land (_flags this) flag = 0%Z →
  fst (removeFlag flag (fst (setFlag flag this host)) host') = this.
Proof.
  intros H0. rewrite setFlag_eq, (proj2 (hasFlag_false_land _ _) H0). cbv zeta. simpl.
  rewrite removeFlag_eq.
  destruct (hasFlag flag _) eqn:Hf; simpl.
  - rewrite land_lor_lnot_disjoint by done. by destruct this.
  - apply hasFlag_false_land in Hf.
    rewrite hasFlag_raised in Hf. subst flag.
    rewrite Z.lor_0_r. by destruct this.
Qed.

Lemma setFlag_removeFlag_mask flag this host host' :
  Z.land (_flags this) flag = flag →
  fst (setFlag flag (fst (removeFlag flag this host)) host') = this.
Proof.
  intros Hall. rewrite removeFlag_eq.
  destruct (hasFlag flag this) eqn:Hf; simpl.
  - rewrite setFlag_eq, hasFlag_cleared. cbv zeta. simpl.
    rewrite lor_land_lnot_subset by done. by destruct this.
  - apply hasFlag_false_land in Hf. rewrite Hf in Hall. subst flag.
    rewrite setFlag_eq.
    assert (hasFlag 0 this = false) as -> by (apply hasFlag_false_land, Z.land_0_r).
    cbv zeta. simpl. rewrite Z.lor_0_r. by destruct this.
Qed.

(** Property X1. [setFlag] followed by [removeFlag] of a flag mask of which
    no bit was set gives back the editor as it was, and so does
    [removeFlag] followed by [setFlag] of a flag of [GXElementEditor.Flag]
    that was set (more generally, of a mask whose bits were all set). *)
Theorem setFlag_removeFlag_round_trip this host host' :
  (∀ flag, hasFlag flag this = false →
     fst (removeFlag flag (fst (setFlag flag this host)) host') = this)
  ∧ (∀ flag, Z.land (_flags this) flag = flag →
       fst (setFlag flag (fst (removeFlag flag this host)) host') = this)
  ∧ (∀ f : FlagName, hasFlag (flagValue f) this = true →
       fst (setFlag (flagValue f) (fst (removeFlag (flagValue f) this host)) host')
       = this).
Proof.
  split; [|split].
  - intros flag Hf. apply removeFlag_setFlag_mask. by apply hasFlag_false_land.
  - intros flag. apply setFlag_removeFlag_mask.
  - intros f Hf. apply setFlag_removeFlag_mask. by apply hasFlag_named.
Qed.

Lemma hasFlag_setFlag_disjoint f g this host :
  Z.land f g = 0%Z → hasFlag g (fst (setFlag f this host)) = hasFlag g this.
Proof.
  intros Hd. rewrite setFlag_eq. destruct (hasFlag f this); [done|].
  cbv zeta. unfold hasFlag. simpl. by rewrite land_disjoint_lor.
Qed.

Lemma hasFlag_removeFlag_disjoint f g this host :
  Z.land f g = 0%Z → hasFlag g (fst (removeFlag f this host)) = hasFlag g this.
Proof.
  intros Hd. rewrite removeFlag_eq. destruct (hasFlag f this); [|done].
  cbv zeta. unfold hasFlag. simpl. by rewrite land_disjoint_lnot.
Qed.

Lemma flagValue_disjoint (f g : FlagName) :
  f ≠ g → Z.land (flagValue f) (flagValue g) = 0%Z.
Proof. by destruct f, g. Qed.

(** Property X2. Setting or removing one flag of [GXElementEditor.Flag]
    never changes what [hasFlag] answers for another one; the same holds
    for two flag masks without a common bit. *)
Theorem flags_do_not_interfere this host :
  (∀ f g : FlagName, f ≠ g →
     hasFlag (flagValue g) (fst (setFlag (flagValue f) this host))
     = hasFlag (flagValue g) this
     ∧ hasFlag (flagValue g) (fst (removeFlag (flagValue f) this host))
       = hasFlag (flagValue g) this)
  ∧ (∀ f g : Z, Z.land f g = 0%Z →
       hasFlag g (fst (setFlag f this host)) = hasFlag g this
       ∧ hasFlag g (fst (removeFlag f this host)) = hasFlag g this).
Proof.
  split.
  - intros f g Hne. split.
    + by apply hasFlag_setFlag_disjoint, flagValue_disjoint.
    + by apply hasFlag_removeFlag_disjoint, flagValue_disjoint.
  - intros f g Hd. split.
    + by apply hasFlag_setFlag_disjoint.
    + by apply hasFlag_removeFlag_disjoint.
Qed.
End FlagAlgebra.

(** ** Staging, resetting and applying a transform *)

Section StagingProperties.
Context {PartId : Type}.
Implicit Types (this : @GXElementEditor PartId) (host : @Host PartId).
Variable isIdentity : GTransform -> bool.
Variable GTransform_equals : option GTransform -> option GTransform -> bool.

Lemma resetTransform_fst this host :
  fst (resetTransform isIdentity this host)
  = with_flags (Z.land (_flags this) (Z.lnot Flag.Outline)) (with_transform None this).
Proof.
  unfold resetTransform. rewrite removeFlag_eq.
  destruct (hasFlag Flag.Outline (with_transform None this)) eqn:Hf; [done|].
  simpl. apply hasFlag_false_land in Hf. simpl in Hf.
  by rewrite land_lnot_disjoint.
Qed.

Lemma transform_fst (T : GTransform) this host :
  fst (transform GTransform_equals T this host)
  = if GTransform_equals (_transform this) (Some T) then this
    else with_transform (Some T) (with_flags (Z.lor (_flags this) Flag.Outline) this).
Proof.
  unfold transform. destruct (GTransform_equals _ _); [done|]. simpl.
  rewrite setFlag_eq. destruct (hasFlag Flag.Outline this) eqn:Hf; simpl; [|done].
  replace (Z.lor (_flags this) Flag.Outline) with (_flags this); [by destruct this|].
  unfold hasFlag in Hf. rewrite negb_true_iff, Z.eqb_neq in Hf.
  symmetry. apply Z.bits_inj'. intros n Hn. rewrite Z.lor_spec.
  destruct (Z.testbit Flag.Outline n) eqn:Hb; [|by rewrite orb_false_r].
  rewrite orb_true_r.
  assert (n = 4%Z) as ->.
  { change Flag.Outline with (2 ^ 4)%Z in Hb.
    destruct (decide (n = 4%Z)); [done|]. by rewrite Z.pow2_bits_false in Hb. }
  destruct (Z.testbit (_flags this) 4) eqn:Hbit; [done|].
  exfalso. apply Hf. apply Z.bits_inj'. intros m Hm.
  rewrite Z.land_spec, Z.bits_0. change Flag.Outline with (2 ^ 4)%Z.
  destruct (decide (m = 4%Z)) as [->|Hne].
  - by rewrite Hbit.
  - rewrite (Z.pow2_bits_false _ m) by done. apply andb_false_r.
Qed.

(** Property X3. On an editor that has no staged transform and no Outline
    flag, [transform(T)] followed by [resetTransform()] gives back the
    editor as it was, whatever [GTransform.equals] and [isIdentity()]
    answer. *)
Theorem transform_resetTransform_round_trip (T : GTransform) this host host' :
  _transform this = None →
  hasFlag Flag.Outline this = false →
  fst (resetTransform isIdentity
         (fst (transform GTransform_equals T this host)) host') = this.
Proof.
  intros Hnone Hout. rewrite resetTransform_fst, transform_fst.
  apply hasFlag_false_land in Hout.
  destruct (GTransform_equals _ _); simpl.
  - rewrite land_lnot_disjoint by done. destruct this. simpl in *. by subst.
  - rewrite land_lor_lnot_disjoint by done. destruct this. simpl in *. by subst.
Qed.

(** Property X4. [transform(T)] with a [T] that [GTransform.equals] tells
    from the staged transform asks for an invalidation of the editor as it
    was before anything changed, and last for one of the editor as it is in
    the end: with [T] staged and the Outline flag set, nothing else
    changed. With an equal [T] nothing happens at all. *)
Theorem transform_brackets_invalidation (T : GTransform) this host :
  if GTransform_equals (_transform this) (Some T) then
    transform GTransform_equals T this host = (this, host)
  else
    ∃ this' between,
      transform GTransform_equals T this host
      = (this', host ++ RequestInvalidation this :: between ++ [RequestInvalidation this'])
      ∧ this' = with_transform (Some T)
                  (with_flags (Z.lor (_flags this) Flag.Outline) this)
      ∧ hasFlag Flag.Outline this' = true
      ∧ Forall (λ c, isInvalidation c = true) between
      ∧ length between = (if hasFlag Flag.Outline this then 0 else 1)%nat.
Proof.
  pose proof (transform_fst T this host) as Hfst.
  unfold transform in *. destruct (GTransform_equals _ _); [done|]. simpl in *.
  assert (Hraised : hasFlag Flag.Outline
            (with_transform (Some T) (with_flags (Z.lor (_flags this) Flag.Outline) this))
          = true).
  { unfold hasFlag. simpl.
    pose proof (hasFlag_raised Flag.Outline this) as Hr. simpl in Hr.
    change (Z.lor (_flags this) 16) with (Z.lor (_flags this) Flag.Outline).
    by rewrite Hr. }
  destruct (hasFlag Flag.Outline this) eqn:Hf; simpl in *.
  - eexists _, []. unfold requestInvalidation. rewrite <- app_assoc. simpl.
    split; [reflexivity|]. rewrite Hfst. auto.
  - rewrite setFlag_eq, Hf in *. cbv zeta in *. simpl in *.
    eexists _, [_]. unfold requestInvalidation. rewrite <- app_assoc. simpl.
    split; [reflexivity|]. split; [done|]. split; [done|]. split; [|done].
    repeat constructor.
Qed.

(** Property X5. A successful [applyTransform] has consumed the staged
    transform: a second call throws a TypeError. It changes nothing of the
    editor but the staged transform and the Outline bit; and when the
    staged transform is the identity, the element's [transform] is not
    called: the host only receives invalidation requests. *)
Theorem applyTransform_is_single_use this host element this' host' :
  applyTransform isIdentity element this host = Returns (this', host') →
  (∀ element' host'',
     applyTransform isIdentity element' this' host'' = Throws TypeError)
  ∧ this' = with_flags (Z.land (_flags this) (Z.lnot Flag.Outline))
              (with_transform None this)
  ∧ (∀ T, _transform this = Some T → isIdentity T = true →
       ∃ rest, host' = host ++ rest ∧ Forall (λ c, isInvalidation c = true) rest).
Proof.
  unfold applyTransform. destruct (_transform this) as [T|] eqn:HT; [|done].
  intros [= Hres].
  pose proof (f_equal fst Hres) as Hthis'. rewrite resetTransform_fst in Hthis'.
  simpl in Hthis'. symmetry in Hthis'.
  split; [|split; [done|]].
  - intros element' host''. by rewrite Hthis'.
  - intros T' [= <-] Hid. rewrite Hid in Hres. simpl in Hres.
    destruct (resetTransform_spec isIdentity this host) as (t & rest & Heq & Hrest & _).
    rewrite Heq in Hres. injection Hres as _ <-. eauto.
Qed.

(** Property X6. While a transform is staged the annotations are hidden,
    and [resetTransform] shows them again on a selected editor:
    [_showAnnotations] is false after a [transform(T)] that staged [T], and
    after [resetTransform] it is what [hasFlag(Selected)] was. *)
Theorem annotations_hidden_while_staged (T : GTransform) this host :
  (GTransform_equals (_transform this) (Some T) = false →
   _showAnnotations (fst (transform GTransform_equals T this host)) = false)
  ∧ _showAnnotations (fst (resetTransform isIdentity this host))
    = hasFlag Flag.Selected this.
Proof.
  split.
  - intros Hne.
    destruct (transform_stages GTransform_equals T this host Hne)
      as (this' & rest & -> & _ & _ & Hout).
    unfold _showAnnotations. simpl. rewrite Hout. apply andb_false_r.
  - destruct (resetTransform_spec isIdentity this host)
      as (this' & rest & Heq & _ & Hout & _).
    pose proof (resetTransform_fst this host) as Hfst. rewrite Heq in *. simpl in *.
    unfold _showAnnotations. rewrite Hout, andb_true_r. rewrite Hfst.
    unfold hasFlag. simpl. f_equal. f_equal.
    apply (land_disjoint_lnot (_flags this) Flag.Outline Flag.Selected). done.
Qed.
End StagingProperties.

(** ** The annotation box *)

Section AnnotationBoxProperties.
Variable mapPoint : GTransform -> GPoint -> GPoint.
Context {PaintContext : Type}.

(** Property X7. For both annotation sizes, the box of [_getAnnotationBBox]
    is [size + 2] wide and high, and the mapped centre point lies in it at
    least [(size + 1) / 2] away from each of its four sides. Two centre
    points that are mapped into the same pixel get the same box. *)
Theorem annotationBBox_holds_center (transform : option GTransform)
    (center center' : GPoint) (small : bool) (context : PaintContext) :
  let mapped c := match transform with Some t => mapPoint t c | None => c end in
  let size :=
    if small then OPTIONS.annotationSizeSmall else OPTIONS.annotationSizeRegular in
  let box c := fst (_getAnnotationBBox mapPoint transform c small context) in
  rectWidth (box center) = (size + 2)%Q
  ∧ rectHeight (box center) = (size + 2)%Q
  ∧ (rectX (box center) + (size + 1) / 2 <= getX (mapped center))%Q
  ∧ (getX (mapped center)
     < rectX (box center) + rectWidth (box center) - (size + 1) / 2)%Q
  ∧ (rectY (box center) + (size + 1) / 2 <= getY (mapped center))%Q
  ∧ (getY (mapped center)
     < rectY (box center) + rectHeight (box center) - (size + 1) / 2)%Q
  ∧ (Qfloor (getX (mapped center)) = Qfloor (getX (mapped center')) →
     Qfloor (getY (mapped center)) = Qfloor (getY (mapped center')) →
     box center = box center').
Proof.
  intros mapped size box. subst box size. unfold _getAnnotationBBox. simpl.
  fold (mapped center). fold (mapped center').
  split; [done|]. split; [done|].
  assert (Hfloor : ∀ q : Q, (inject_Z (Qfloor q) <= q ∧ q < inject_Z (Qfloor q) + 1)%Q).
  { intros q. split; [apply Qfloor_le|].
    pose proof (Qlt_floor q) as Hq. by rewrite inject_Z_plus in Hq. }
  destruct (Hfloor (getX (mapped center))) as [Hx1 Hx2].
  destruct (Hfloor (getY (mapped center))) as [Hy1 Hy2].
  unfold OPTIONS.annotationSizeSmall, OPTIONS.annotationSizeRegular.
  split; [|split; [|split; [|split]]].
  1-2: revert Hx1 Hx2; generalize (inject_Z (Qfloor (getX (mapped center))));
    generalize (getX (mapped center)); intros x f Hx1 Hx2.
  3-4: revert Hy1 Hy2; generalize (inject_Z (Qfloor (getY (mapped center))));
    generalize (getY (mapped center)); intros y f Hy1 Hy2.
  1-4: destruct small; unfold Qdiv; change (/ 2)%Q with (1 # 2)%Q; lra.
  by intros -> ->.
Qed.
End AnnotationBoxProperties.

(** ** Looking up and replacing the part selection *)

Section SelectionProperties.
Context {PartId : Type} `{EqDecision PartId}.
Implicit Types (this : @GXElementEditor PartId) (host : @Host PartId).
Implicit Types (l S previous : list PartId) (id : PartId).

Lemma indexFrom_first i l id k :
  indexFrom i l id = Some k ↔
  ∃ j, k = (i + j)%nat ∧ l !! j = Some id ∧ ∀ j', (j' < j)%nat → l !! j' ≠ Some id.
Proof.
  revert i. induction l as [|x l IH]; intros i; simpl.
  - split; [done|]. by intros (j & _ & ? & _).
  - unfold _partIdAreEqual. case_bool_decide as Hx.
    + subst x. split.
      * intros [= <-]. exists 0%nat. split; [lia|]. split; [done|]. intros; lia.
      * intros (j & -> & Hj & Hfirst). destruct j as [|j]; [f_equal; lia|].
        by destruct (Hfirst 0%nat ltac:(lia)).
    + rewrite IH. split.
      * intros (j & -> & Hj & Hfirst). exists (S j). split; [lia|]. split; [done|].
        intros [|j'] Hlt; simpl; [congruence|]. apply Hfirst. lia.
      * intros ([|j] & -> & Hj & Hfirst); simpl in Hj; [congruence|].
        exists j. split; [lia|]. split; [done|].
        intros j' Hlt. apply (Hfirst (S j')). lia.
Qed.

(** Property X8. [_indexOfPartId] gives the position of the first entry
    equal to the part id, and [-1] exactly when the array is [null] or
    holds no such entry; so [isPartSelected] tells whether the id is among
    the selected ones. *)
Theorem _indexOfPartId_first_position (array : option (list PartId)) id this :
  (∀ k, _indexOfPartId array id = Some k ↔
        ∃ l, array = Some l ∧ l !! k = Some id
             ∧ ∀ j, (j < k)%nat → l !! j ≠ Some id)
  ∧ (_indexOfPartId array id = None ↔ id ∉ selectedIds array)
  ∧ (isPartSelected id this = true ↔ id ∈ selectedIds (_partSelection this)).
Proof.
  assert (Hsome : ∀ a, is_Some (_indexOfPartId a id) ↔ id ∈ selectedIds a).
  { intros [l|]; simpl; [apply _indexOfPartId_Some|].
    split; [intros [? ?]; done | by intros ?%elem_of_nil]. }
  split; [|split].
  - intros k. destruct array as [l|]; simpl.
    + destruct l as [|x l]; simpl.
      * split; [done|]. by intros (? & [= <-] & ? & _).
      * rewrite (indexFrom_first 0 (x :: l) id k). split.
        -- intros (j & -> & Hj & Hfirst). exists (x :: l). done.
        -- intros (l' & [= <-] & Hk & Hfirst). exists k. done.
    + split; [done|]. by intros (? & ? & _).
  - rewrite <- Hsome, eq_None_not_Some. done.
  - unfold isPartSelected. rewrite bool_decide_eq_true. apply Hsome.
Qed.

Variable gUtil_equals : option (list PartId) -> option (list PartId) -> bool.

Lemma updatePartSelection_unfold toggle selection this host :
  updatePartSelection gUtil_equals toggle selection this host
  = if hasFlag Flag.Selected this then
      let newSelection :=
        match toggle, _partSelection this with
        | true, Some previous =>
            match selection with
            | Some sel =>
                nonEmpty (filter (λ id, id ∉ sel) previous
                          ++ filter (λ id, id ∉ previous) sel)
            | None => None
            end
        | _, _ => nonEmpty (selectedIds selection)
        end in
      if gUtil_equals newSelection (_partSelection this) then (this, host)
      else (with_partSelection newSelection this,
            host ++ [RequestInvalidation this;
                     RequestInvalidation (with_partSelection newSelection this)])
    else (this, host).
Proof.
  unfold updatePartSelection. destruct (hasFlag Flag.Selected this); [|done].
  cbv zeta.
  assert (Hover : match selection with
                  | Some sel => if (0 <? length sel)%nat then Some sel else None
                  | None => None
                  end = nonEmpty (selectedIds selection)).
  { destruct selection as [[|x sel]|]; done. }
  assert (Hnew :
    match toggle, _partSelection this with
    | true, Some previous =>
        match selection with
        | Some sel =>
            match keepUntoggled sel previous ++ addNew previous sel with
            | [] => None
            | l => Some l
            end
        | None => None
        end
    | _, _ =>
        match selection with
        | Some sel => if (0 <? length sel)%nat then Some sel else None
        | None => None
        end
    end
    = match toggle, _partSelection this with
      | true, Some previous =>
          match selection with
          | Some sel =>
              nonEmpty (filter (λ id, id ∉ sel) previous
                        ++ filter (λ id, id ∉ previous) sel)
          | None => None
          end
      | _, _ => nonEmpty (selectedIds selection)
      end).
  { destruct toggle, (_partSelection this) as [previous|]; try exact Hover.
    destruct selection as [sel|]; [|done].
    rewrite keepUntoggled_filter, addNew_filter. unfold nonEmpty.
    by destruct (_ ++ _). }
  rewrite Hnew. destruct (gUtil_equals _ _); simpl; [done|].
  unfold _updatePartSelection, requestInvalidation. by rewrite <- app_assoc.
Qed.

Lemma nonEmpty_not_empty l : nonEmpty l ≠ Some [].
Proof. by destruct l. Qed.

(** Property X9. Whatever [gUtil.equals] answers, [updatePartSelection]
    changes nothing of the editor but its part selection, asks for no
    invalidation or for two of them (before and after the change), never
    stores an empty array (an empty selection is [null]), and keeps the
    selection free of duplicates when the ids it is given are. Without the
    Selected flag it does nothing. *)
Theorem updatePartSelection_keeps_selection_well_formed toggle selection this host :
  let this' := fst (updatePartSelection gUtil_equals toggle selection this host) in
  let host' := snd (updatePartSelection gUtil_equals toggle selection this host) in
  this' = with_partSelection (_partSelection this') this
  ∧ (host' = host
     ∨ host' = host ++ [RequestInvalidation this; RequestInvalidation this'])
  ∧ (_partSelection this ≠ Some [] → _partSelection this' ≠ Some [])
  ∧ (NoDup (selectedIds selection) → NoDup (selectedIds (_partSelection this)) →
     NoDup (selectedIds (_partSelection this')))
  ∧ (hasFlag Flag.Selected this = false → this' = this ∧ host' = host).
Proof.
  simpl. rewrite updatePartSelection_unfold.
  destruct (hasFlag Flag.Selected this) eqn:Hsel.
  2:{ simpl. split; [by destruct this|]. auto. }
  cbv zeta.
  set (newSelection := match toggle, _partSelection this with
                       | true, Some previous => _
                       | _, _ => _
                       end).
  assert (Hne : newSelection ≠ Some []).
  { subst newSelection. destruct toggle, (_partSelection this) as [previous|];
      try apply nonEmpty_not_empty.
    destruct selection; [apply nonEmpty_not_empty|done]. }
  assert (Hnd : NoDup (selectedIds selection) →
                NoDup (selectedIds (_partSelection this)) →
                NoDup (selectedIds newSelection)).
  { intros Hs Hp. subst newSelection.
    destruct toggle, (_partSelection this) as [previous|];
      try (by rewrite selectedIds_nonEmpty).
    destruct selection as [sel|]; simpl in *; [|constructor].
    rewrite selectedIds_nonEmpty. apply NoDup_app. split; [by apply NoDup_filter|].
    split; [|by apply NoDup_filter].
    intros x Hx%list_elem_of_filter Hx'%list_elem_of_filter. naive_solver. }
  destruct (gUtil_equals newSelection (_partSelection this)); simpl.
  - split; [by destruct this|]. split; [auto|]. split; [done|]. split; [done|].
    auto.
  - split; [done|]. split; [auto|]. split; [done|]. split; [done|]. congruence.
Qed.

Hypothesis equals_sound : ∀ a b,
  gUtil_equals a b = true → ∀ id, id ∈ selectedIds a ↔ id ∈ selectedIds b.

(** Property X10. On a selected editor, for a comparison [gUtil.equals]
    that only equates selections with the same ids: after
    [updatePartSelection(false, selection)] the selected part ids are
    exactly the ids of [selection], as [isPartSelected] tells them. *)
Theorem updatePartSelection_overwrite_then_isPartSelected selection this host id :
  hasFlag Flag.Selected this = true →
  let this' := fst (updatePartSelection gUtil_equals false selection this host) in
  (isPartSelected id this' = true ↔ id ∈ selectedIds selection)
  ∧ hasFlag Flag.Selected this' = true.
Proof.
  intros Hsel. simpl. rewrite updatePartSelection_unfold, Hsel. cbv zeta.
  unfold isPartSelected. rewrite bool_decide_eq_true.
  assert (Hsome : ∀ a, is_Some (_indexOfPartId a id) ↔ id ∈ selectedIds a).
  { intros [l|]; simpl; [apply _indexOfPartId_Some|].
    split; [intros [? ?]; done | by intros ?%elem_of_nil]. }
  rewrite Hsome.
  destruct (gUtil_equals _ _) eqn:Heq; simpl.
  - split; [|done]. rewrite <- (equals_sound _ _ Heq id).
    by rewrite selectedIds_nonEmpty.
  - split; [|done]. by rewrite selectedIds_nonEmpty.
Qed.

(** Property X11. Toggling with an empty array and toggling with [null]
    differ. On a selected editor, [updatePartSelection(true, [])] keeps the
    selected ids (and the very selection, unless it was an empty array),
    whereas [updatePartSelection(true, null)] leaves no id selected. *)
Theorem updatePartSelection_toggle_empty_or_null this host :
  hasFlag Flag.Selected this = true →
  let kept := fst (updatePartSelection gUtil_equals true (Some []) this host) in
  let cleared := fst (updatePartSelection gUtil_equals true None this host) in
  selectedIds (_partSelection kept) = selectedIds (_partSelection this)
  ∧ (_partSelection this ≠ Some [] → _partSelection kept = _partSelection this)
  ∧ selectedIds (_partSelection cleared) = [].
Proof.
  intros Hsel. simpl. rewrite !updatePartSelection_unfold, Hsel. cbv zeta.
  destruct (_partSelection this) as [previous|] eqn:Hprev; simpl.
  - rewrite filter_nil, app_nil_r.
    rewrite (filter_id_Forall (λ id, id ∉ [])) by
      (apply Forall_forall; intros ? _; apply not_elem_of_nil).
    split; [|split].
    + destruct (gUtil_equals _ _); simpl; [by rewrite Hprev|].
      by rewrite selectedIds_nonEmpty.
    + intros Hne. destruct (gUtil_equals _ _); simpl; [done|].
      destruct previous; done.
    + destruct (gUtil_equals None (Some previous)) eqn:Heq; simpl; [|done].
      rewrite Hprev. simpl. destruct previous as [|x previous]; [done|].
      pose proof (proj2 (equals_sound _ _ Heq x)) as Hx. simpl in Hx.
      by destruct (not_elem_of_nil x (Hx (list_elem_of_here _ _))).
  - split; [|split].
    + destruct (gUtil_equals _ _); simpl; by rewrite ?Hprev.
    + intros _. destruct (gUtil_equals _ _); simpl; by rewrite ?Hprev.
    + destruct (gUtil_equals _ _); simpl; by rewrite ?Hprev.
Qed.
End SelectionProperties.

(** ** Annotation templates and painting *)

Section PaintingProperties.
Variable mapPoint : GTransform -> GPoint -> GPoint.
Variable cos_quarter_pi : Q.
Context {Color : Type}.
Variable gColor_build : Z -> Z -> Z -> Color.
Implicit Types (templates : gmap Z AnnotationTemplate).

Local Notation template := (newAnnotationTemplate cos_quarter_pi).
Local Notation paint := (_paintAnnotation mapPoint cos_quarter_pi gColor_build).

Lemma newAnnotationTemplate_in_unit_square annotation :
  Forall in_unit_square (vertices (template annotation)).
Proof.
  unfold newAnnotationTemplate.
  destruct (annotation =? Annotation.Rectangle)%Z;
    [|destruct (annotation =? Annotation.Circle)%Z;
      [|destruct (annotation =? Annotation.Diamond)%Z]];
    simpl; repeat constructor; done.
Qed.

Lemma newAnnotationTemplate_scaleFactor annotation :
  annotation ≠ Annotation.Diamond → scaleFactor (template annotation) = 1%Q.
Proof.
  intros Hne. unfold newAnnotationTemplate.
  destruct (annotation =? Annotation.Rectangle)%Z; [done|].
  destruct (annotation =? Annotation.Circle)%Z; [done|].
  destruct (Z.eqb_spec annotation Annotation.Diamond); done.
Qed.

Lemma _getAnnotationTemplate_built annotation templates :
  templates_built cos_quarter_pi templates →
  _getAnnotationTemplate cos_quarter_pi annotation templates
  = (template annotation,
     match templates !! annotation with
     | Some _ => templates
     | None => <[annotation := template annotation]> templates
     end).
Proof.
  intros Hb. unfold _getAnnotationTemplate.
  destruct (templates !! annotation) as [t|] eqn:Ht; [|done].
  by rewrite (Hb _ _ Ht).
Qed.

(** Property X12. The table of annotation templates only memoizes: when its
    entries are templates that [_getAnnotationTemplate] built, the template
    returned for an annotation is the one built for it whatever the table
    holds, the table afterwards holds it under that annotation with its
    other entries unchanged, and a second call returns the same template
    and leaves the table as it is. Every template, also the empty one of an
    annotation that is none of the three, has its vertices between -1 and
    1, and its scale factor is 1 unless it is the diamond. *)
Theorem annotation_templates_are_memoized annotation templates :
  templates_built cos_quarter_pi templates →
  let t := fst (_getAnnotationTemplate cos_quarter_pi annotation templates) in
  let templates' := snd (_getAnnotationTemplate cos_quarter_pi annotation templates) in
  t = template annotation
  ∧ templates_built cos_quarter_pi templates'
  ∧ templates' !! annotation = Some t
  ∧ (∀ other, other ≠ annotation → templates' !! other = templates !! other)
  ∧ _getAnnotationTemplate cos_quarter_pi annotation templates' = (t, templates')
  ∧ Forall in_unit_square (vertices t)
  ∧ (annotation ≠ Annotation.Diamond → scaleFactor t = 1%Q).
Proof.
  intros Hb. simpl. rewrite (_getAnnotationTemplate_built _ _ Hb). simpl.
  split; [done|].
  destruct (templates !! annotation) as [t0|] eqn:Ht.
  - split; [done|]. split; [by rewrite Ht, (Hb _ _ Ht)|]. split; [done|].
    split; [|split].
    + rewrite (_getAnnotationTemplate_built _ _ Hb). by rewrite Ht.
    + apply newAnnotationTemplate_in_unit_square.
    + apply newAnnotationTemplate_scaleFactor.
  - split; [|split; [|split; [|split; [|split]]]].
    + intros a t. rewrite lookup_insert. case_decide as Ha.
      * intros [= <-]. by subst.
      * apply Hb.
    + apply lookup_insert_eq.
    + intros other Hne. by apply lookup_insert_ne.
    + unfold _getAnnotationTemplate. by rewrite lookup_insert_eq.
    + apply newAnnotationTemplate_in_unit_square.
    + apply newAnnotationTemplate_scaleFactor.
Qed.

Lemma _paintAnnotation_calls (context : GXPaintContext) transform center annotation
    (selected small : bool) templates :
  templates_built cos_quarter_pi templates →
  let mapped := match transform with Some t => mapPoint t center | None => center end in
  let size :=
    if small then OPTIONS.annotationSizeSmall else OPTIONS.annotationSizeRegular in
  let s := (size / 2 / scaleFactor (template annotation))%Q in
  let cx := (inject_Z (Qfloor (getX mapped)) + (if selected then 1 # 2 else 0))%Q in
  let cy := (inject_Z (Qfloor (getY mapped)) + (if selected then 1 # 2 else 0))%Q in
  fst (paint context transform center annotation selected small templates)
  = mkPaintContext (selectionOutlineColor context)
      (canvas context
       ++ PutVertices (vertices (template annotation)) (mkGTransform s 0 0 s cx cy)
          :: (if selected
              then [FillVertices (gColor_build 255 255 255);
                    StrokeVertices (selectionOutlineColor context) 1]
              else [FillVertices (selectionOutlineColor context)])).
Proof.
  intros Hb. unfold _paintAnnotation.
  rewrite (_getAnnotationTemplate_built _ _ Hb). by destruct selected.
Qed.

(** Property X13. An annotation that is not the diamond is painted inside
    the box that [_getAnnotationBBox] gives for the same arguments. The
    canvas gets one [putVertices] of the template (whose coordinates are
    between -1 and 1) under a transform that only scales by [s = size / 2]
    and translates to [(tx, ty)], then one fill, and one stroke of width 1
    exactly when the annotation is selected; the square from [tx - s] to
    [tx + s] and from [ty - s] to [ty + s], widened by half the stroke
    width when there is a stroke, lies within the box. The colours are the
    outline colour for the fill of an unselected annotation, and white fill
    with outline coloured stroke for a selected one. *)
Theorem annotation_is_painted_inside_its_box (context : GXPaintContext) transform
    center annotation (selected small : bool) templates :
  templates_built cos_quarter_pi templates →
  annotation ≠ Annotation.Diamond →
  let box := fst (_getAnnotationBBox mapPoint transform center small context) in
  let context' :=
    fst (paint context transform center annotation selected small templates) in
  let margin : Q := (if selected then 1 # 2 else 0)%Q in
  ∃ source t,
    canvas context'
    = canvas context
      ++ PutVertices source t
         :: (if selected
             then [FillVertices (gColor_build 255 255 255);
                   StrokeVertices (selectionOutlineColor context) 1]
             else [FillVertices (selectionOutlineColor context)])
    ∧ selectionOutlineColor context' = selectionOutlineColor context
    ∧ Forall in_unit_square source
    ∧ t_shx t = 0%Q ∧ t_shy t = 0%Q ∧ t_sx t = t_sy t ∧ (0 < t_sx t)%Q
    ∧ (rectX box <= t_tx t - t_sx t - margin)%Q
    ∧ (t_tx t + t_sx t + margin <= rectX box + rectWidth box)%Q
    ∧ (rectY box <= t_ty t - t_sy t - margin)%Q
    ∧ (t_ty t + t_sy t + margin <= rectY box + rectHeight box)%Q.
Proof.
  intros Hb Hne. cbv zeta. rewrite (_paintAnnotation_calls _ _ _ _ _ _ _ Hb). simpl.
  eexists _, _. split; [reflexivity|]. split; [done|].
  split; [apply newAnnotationTemplate_in_unit_square|]. simpl.
  rewrite (newAnnotationTemplate_scaleFactor _ Hne).
  unfold OPTIONS.annotationSizeSmall, OPTIONS.annotationSizeRegular.
  split; [done|]. split; [done|]. split; [done|].
  set (mapped := match transform with Some t => mapPoint t center | None => center end).
  generalize (inject_Z (Qfloor (getX mapped))).
  generalize (inject_Z (Qfloor (getY mapped))). intros fy fx.
  unfold Qdiv. change (/ 2)%Q with (1 # 2)%Q. change (/ 1)%Q with 1%Q.
  repeat split; destruct small, selected; lra.
Qed.

(** Property X14. The diamond template is scaled by [size / 2] divided by
    [Math.cos(Math.PI / 4)]. With the value of that cosine between 0 and
    3/4 (it is about 0.707), the transform put on the diamond template has
    [tx - s] left of the box of [_getAnnotationBBox] for the same
    arguments, where [s] is its scaling and [tx] its horizontal
    translation, and [(-1, 0)] is a vertex of the template: for the regular
    size, and for the small size when the annotation is not selected. *)
Theorem diamond_annotation_exceeds_its_box (context : GXPaintContext) transform
    center (selected small : bool) templates :
  templates_built cos_quarter_pi templates →
  (0 < cos_quarter_pi)%Q → (cos_quarter_pi < 3 # 4)%Q →
  small = false ∨ selected = false →
  let box := fst (_getAnnotationBBox mapPoint transform center small context) in
  let context' :=
    fst (paint context transform center Annotation.Diamond selected small templates) in
  ∃ source t rest,
    canvas context' = canvas context ++ PutVertices source t :: rest
    ∧ (Move, Some ((-1)%Q, 0%Q)) ∈ source
    ∧ t_shx t = 0%Q
    ∧ (t_tx t - t_sx t < rectX box)%Q.
Proof.
  intros Hb Hpos Hlt Hcase. cbv zeta. rewrite (_paintAnnotation_calls _ _ _ _ _ _ _ Hb).
  simpl. eexists _, _, _. split; [reflexivity|].
  split; [cbn; set_solver|]. split; [done|]. simpl.
  set (mapped := match transform with Some t => mapPoint t center | None => center end).
  generalize (inject_Z (Qfloor (getX mapped))). intros fx.
  unfold OPTIONS.annotationSizeSmall, OPTIONS.annotationSizeRegular.
  assert (Hreg : (4 < 6 / 2 / cos_quarter_pi)%Q).
  { apply Qlt_shift_div_l; [done|]. unfold Qdiv. change (/ 2)%Q with (1 # 2)%Q. lra. }
  assert (Hsmall : (8 # 3 < 4 / 2 / cos_quarter_pi)%Q).
  { apply Qlt_shift_div_l; [done|]. unfold Qdiv. change (/ 2)%Q with (1 # 2)%Q. lra. }
  destruct Hcase as [-> | ->]; [destruct selected|destruct small].
  - revert Hreg. generalize (6 / 2 / cos_quarter_pi)%Q. intros s Hs.
    unfold Qdiv. change (/ 2)%Q with (1 # 2)%Q. lra.
  - revert Hreg. generalize (6 / 2 / cos_quarter_pi)%Q. intros s Hs.
    unfold Qdiv. change (/ 2)%Q with (1 # 2)%Q. lra.
  - revert Hsmall. generalize (4 / 2 / cos_quarter_pi)%Q. intros s Hs.
    unfold Qdiv. change (/ 2)%Q with (1 # 2)%Q. lra.
  - revert Hreg. generalize (6 / 2 / cos_quarter_pi)%Q. intros s Hs.
    unfold Qdiv. change (/ 2)%Q with (1 # 2)%Q. lra.
Qed.
End PaintingProperties.

(** ** Visiting the editor tree *)

Lemma elem_of_concat {A} (x : A) (ls : list (list A)) :
  x ∈ concat ls ↔ ∃ l, x ∈ l ∧ l ∈ ls.
Proof.
  induction ls as [|l ls IH]; simpl.
  - split; [by intros ?%elem_of_nil | by intros (? & _ & ?%elem_of_nil)].
  - rewrite elem_of_app, IH. split.
    + intros [?|(l' & ? & ?)]; [exists l | exists l']; split; auto; [left | by right].
    + intros (l' & Hx & [->|?]%elem_of_cons); [by left | right; eauto].
Qed.

Section VisitingProperties.
Context {PartId St : Type}.
Implicit Types (w : @World PartId) (s : St).
Variable visitor : EditorId -> @GXElementEditor PartId -> St -> bool * St.

Lemma accept_unfold w this this_ n s :
  heap w !! this = Some this_ →
  accept visitor (S n) w this s
  = if fst (visitor this this_ s) then Returns (false, snd (visitor this this_ s))
    else acceptEach (accept visitor n w) (childrenOf w this)
           (snd (visitor this this_ s)).
Proof.
  intros Hthis. simpl. unfold deref, childrenOf. rewrite Hthis. simpl.
  destruct (visitor this this_ s) as [[|] s']; simpl; [done|].
  by destruct (_editors this_).
Qed.

Lemma visitInTurn_app w l1 l2 s :
  visitInTurn visitor w (l1 ++ l2) s
  = if fst (visitInTurn visitor w l1 s)
    then visitInTurn visitor w l2 (snd (visitInTurn visitor w l1 s))
    else (false, snd (visitInTurn visitor w l1 s)).
Proof.
  revert s. induction l1 as [|i l1 IH]; intros s; simpl; [done|].
  destruct (heap w !! i) as [i_|]; [|apply IH].
  destruct (visitor i i_ s) as [[|] s']; simpl; [done|apply IH].
Qed.

Lemma acceptEach_in_turn w n l s :
  (∀ c s, c ∈ l →
     accept visitor n w c s = Returns (visitInTurn visitor w (preorder w n c) s)) →
  acceptEach (accept visitor n w) l s
  = Returns (visitInTurn visitor w (concat (preorder w n <$> l)) s).
Proof.
  revert s. induction l as [|c l IH]; intros s Hl; simpl; [done|].
  rewrite (Hl c s) by left. simpl. rewrite visitInTurn_app.
  destruct (visitInTurn visitor w (preorder w n c) s) as [[|] s']; simpl; [|done].
  apply IH. intros c' s'' Hc'. apply Hl. by right.
Qed.

Lemma accept_in_turn w n this s :
  finite_below w n this →
  accept visitor n w this s = Returns (visitInTurn visitor w (preorder w n this) s).
Proof.
  revert this s. induction n as [|n IH]; intros this s; [done|].
  intros [[this_ Hthis] Hch]. rewrite (accept_unfold _ _ this_) by done.
  cbn [preorder visitInTurn]. rewrite Hthis.
  destruct (visitor this this_ s) as [[|] s']; simpl; [done|].
  apply acceptEach_in_turn. intros c s'' Hc. apply IH.
  rewrite Forall_forall in Hch. by apply Hch.
Qed.

(** Property X15. Over a finite editor tree, [accept(visitor)] returns. It
    calls the visitor on the editors in the order in which each editor
    comes before its sub editors and the sub editors come in the order of
    the array, up to the first call that answers [false], and calls it on
    no editor after that one; it returns [false] exactly when a call
    answered [false]. *)
Theorem accept_visits_in_preorder w n this s :
  finite_below w n this →
  accept visitor n w this s = Returns (visitInTurn visitor w (preorder w n this) s)
  ∧ (∀ before i i_ after,
       preorder w n this = before ++ i :: after →
       heap w !! i = Some i_ →
       fst (visitInTurn visitor w before s) = true →
       fst (visitor i i_ (snd (visitInTurn visitor w before s))) = true →
       accept visitor n w this s
       = Returns (false, snd (visitor i i_ (snd (visitInTurn visitor w before s))))).
Proof.
  intros Hfin. split; [by apply accept_in_turn|].
  intros before i i_ after Hpre Hi Hwent Hcancel.
  rewrite accept_in_turn, Hpre, visitInTurn_app, Hwent by done. simpl. rewrite Hi.
  by destruct (visitor i i_ _) as [[|] s'].
Qed.
End VisitingProperties.

(** ** What a hit test calls, and what it returns *)

Section HitTestSoundness.
Context {PartId Part : Type}.
Implicit Types (w : @World PartId).
Variable geometry : Geometry.
Variable _getPartInfoAt :
  EditorId -> @GXElementEditor PartId -> GPoint -> GTransform -> option Part.
Variable acceptor : option (EditorId -> @GXElementEditor PartId -> bool).
Variable location : GPoint.
Variable transform : GTransform.

Local Notation hitTest :=
  (getPartInfoAt geometry _getPartInfoAt acceptor location transform).
Local Notation self :=
  (hitSelf geometry _getPartInfoAt acceptor location transform).
Local Notation hits := (hittable geometry acceptor location transform).
Local Notation found := (found_by_last_probe _getPartInfoAt location transform).

Lemma hitSelf_sound w this this_ :
  heap w !! this = Some this_ →
  (∀ i, PartLookup i ∈ snd (self this this_) → i = this ∧ hits w this)
  ∧ found w (fst (self this this_)) (snd (self this this_)).
Proof.
  intros Hthis. unfold hitSelf.
  set (accepted := match acceptor with
                   | Some f => (f this this_, [AcceptorCall this])
                   | None => (true, [])
                   end).
  assert (Hacc : ∀ i, PartLookup i ∉ snd accepted).
  { intros i. subst accepted. destruct acceptor; simpl; set_solver. }
  assert (Hlast : ∀ i, last (snd accepted ++ [PartLookup i]) = Some (PartLookup i)).
  { intros i. by rewrite last_snoc. }
  destruct (fst accepted) eqn:Hok; simpl.
  2:{ split; [intros i Hi; by apply Hacc in Hi | by intros part]. }
  destruct (getBBox geometry this_ transform) as [bbox|] eqn:Hbox.
  2:{ split; [intros i Hi; by apply Hacc in Hi | by intros part]. }
  destruct (isEmpty geometry bbox) eqn:Hempty; simpl.
  { split; [intros i Hi; by apply Hacc in Hi | by intros part]. }
  destruct (containsPoint geometry bbox location) eqn:Hin; simpl.
  2:{ split; [intros i Hi; by apply Hacc in Hi | by intros part]. }
  split.
  - intros i [Hi|Hi]%elem_of_app; [by apply Hacc in Hi|].
    apply list_elem_of_singleton in Hi as [= ->]. split; [done|].
    exists this_, bbox. split; [done|]. split.
    { intros f Hf. subst accepted. rewrite Hf in Hok. done. }
    split; [|done].
    unfold getBBox in Hbox.
    destruct (hasFlag Flag.Selected this_); [by left|].
    destruct (hasFlag Flag.Highlighted this_); [by right|done].
  - intros part Hpart. exists this, this_. done.
Qed.

Lemma hitChildren_sound w (hit : EditorId → Outcome (option Part * list Probe))
    (P : EditorId → Prop) editors n result probes :
  (∀ c r p, c ∈ editors → hit c = Returns (r, p) →
     (∀ i, PartLookup i ∈ p → P i) ∧ found w r p) →
  hitChildren hit editors n = Returns (result, probes) →
  (∀ i, PartLookup i ∈ probes → P i)
  ∧ found w result probes
  ∧ (result = None → ∀ c, c ∈ take n editors → ∃ p, hit c = Returns (None, p)).
Proof.
  intros Hhit. revert result probes.
  induction n as [|n IH]; intros result probes; simpl.
  - intros [= <- <-]. split; [set_solver|]. split; [by intros part|].
    intros _ c Hc. rewrite take_0 in Hc. by apply elem_of_nil in Hc.
  - destruct (editors !! n) as [c|] eqn:Hc; [|done].
    destruct (hit c) as [[r p]| |] eqn:Hr; simpl; [|done..].
    assert (Hcin : c ∈ editors) by (by eapply list_elem_of_lookup_2).
    destruct (Hhit c r p Hcin Hr) as [Hp Hfound].
    destruct r as [part|].
    + intros [= <- <-]. split; [done|]. split; [done|]. done.
    + destruct (hitChildren hit editors n) as [[r' later]| |] eqn:Hrest; simpl; [|done..].
      intros [= <- <-]. destruct (IH _ _ eq_refl) as (Hl & Hf & Hmiss).
      split; [|split].
      * intros i [?|?]%elem_of_app; auto.
      * intros part Hpart. destruct (Hf part Hpart) as (i & i_ & Hlast & Hi).
        exists i, i_. split; [|done].
        destruct later as [|x later] using rev_ind; [done|].
        rewrite app_assoc, last_snoc. by rewrite last_snoc in Hlast.
      * intros -> c' Hc'. rewrite (take_S_r _ _ c) in Hc' by done.
        apply elem_of_app in Hc' as [Hc'|Hc'%list_elem_of_singleton].
        -- by apply Hmiss.
        -- subst c'. eauto.
Qed.

Lemma getPartInfoAt_sound w fuel this result probes :
  hitTest fuel w this = Returns (result, probes) →
  (∀ i, PartLookup i ∈ probes → i ∈ preorder w fuel this ∧ hits w i)
  ∧ found w result probes.
Proof.
  revert this result probes. induction fuel as [|fuel IH]; intros this result probes;
    [done|].
  destruct (heap w !! this) as [this_|] eqn:Hthis.
  2:{ simpl. unfold deref. by rewrite Hthis. }
  rewrite (getPartInfoAt_unfold _ _ _ _ _ _ _ this_) by done.
  destruct (hitChildren _ _ _) as [[r p]| |] eqn:Hch; simpl; [|done..].
  destruct (hitChildren_sound w (hitTest fuel w)
              (λ i, i ∈ concat (preorder w fuel <$> childrenOf w this) ∧ hits w i)
              _ _ _ _ (λ c r' p' Hc Hr,
                 conj (λ i Hi, conj
                         (proj2 (elem_of_concat _ _)
                            (ex_intro _ (preorder w fuel c)
                               (conj (proj1 (proj1 (IH c r' p' Hr) i Hi))
                                  (list_elem_of_fmap_2 _ _ _ Hc))))
                         (proj2 (proj1 (IH c r' p' Hr) i Hi)))
                      (proj2 (IH c r' p' Hr))) Hch)
    as (Hp & Hf & _).
  destruct (hitSelf_sound w this this_ Hthis) as [Hsp Hsf].
  destruct r as [part|].
  - intros [= <- <-]. split; [|done].
    intros i Hi. destruct (Hp i Hi) as [Hin Hhit]. split; [|done].
    cbn [preorder]. by right.
  - intros [= <- <-]. split.
    + intros i [Hi|Hi]%elem_of_app.
      * destruct (Hp i Hi) as [Hin Hhit]. split; [|done]. cbn [preorder]. by right.
      * destruct (Hsp i Hi) as [-> Hhit]. split; [|done]. cbn [preorder]. by left.
    + intros part Hpart. destruct (Hsf part Hpart) as (i & i_ & Hlast & Hi).
      exists i, i_. split; [|done].
      destruct (snd (self this this_)) as [|x l] using rev_ind; [done|].
      rewrite app_assoc, last_snoc. by rewrite last_snoc in Hlast.
Qed.

(** Property X16. A hit test calls the part lookup [_getPartInfoAt] only on
    editors of the tree that the acceptor accepts (when there is one), that
    are selected or highlighted, and whose nonempty bounding box contains
    the location; and a part that it returns is the part that the last of
    these lookups found. *)
Theorem getPartInfoAt_only_looks_up_hittable_editors w fuel this result probes :
  hitTest fuel w this = Returns (result, probes) →
  (∀ i, i ∈ partLookups probes →
     i ∈ preorder w fuel this
     ∧ ∃ i_ bbox,
         heap w !! i = Some i_
         ∧ (∀ f, acceptor = Some f → f i i_ = true)
         ∧ (hasFlag Flag.Selected i_ = true ∨ hasFlag Flag.Highlighted i_ = true)
         ∧ getBBox geometry i_ transform = Some bbox
         ∧ isEmpty geometry bbox = false
         ∧ containsPoint geometry bbox location = true)
  ∧ (∀ part, result = Some part →
       ∃ i i_, last probes = Some (PartLookup i)
               ∧ heap w !! i = Some i_
               ∧ _getPartInfoAt i i_ location transform = Some part).
Proof.
  intros Hrun. destruct (getPartInfoAt_sound _ _ _ _ _ Hrun) as [Hp Hf].
  split; [|exact Hf].
  intros i Hi. apply Hp. unfold partLookups in Hi.
  apply list_elem_of_omap in Hi as ([j|j] & Hj & [= ->]). done.
Qed.
End HitTestSoundness.

(** ** The order of a hit test and the order of a visit *)

Section HitTestOrder.
Context {PartId Part : Type}.
Implicit Types (w : @World PartId).
Variable geometry : Geometry.
Variable accepts : EditorId -> @GXElementEditor PartId -> bool.
Variable location : GPoint.
Variable transform : GTransform.

Local Notation baseHitTest :=
  (getPartInfoAt (Part:=Part) geometry Prototype._getPartInfoAt (Some accepts)
     location transform).

Lemma acceptorCalls_app (a b : list Probe) :
  acceptorCalls (a ++ b) = acceptorCalls a ++ acceptorCalls b.
Proof. apply omap_app. Qed.

Lemma acceptorCalls_concat (l : list (list Probe)) :
  acceptorCalls (concat l) = concat (acceptorCalls <$> l).
Proof.
  induction l as [|a l IH]; simpl; [done|]. by rewrite acceptorCalls_app, IH.
Qed.

Lemma reverse_concat {A} (l : list (list A)) :
  reverse (concat l) = concat (reverse (reverse <$> l)).
Proof.
  induction l as [|a l IH]; simpl; [done|].
  rewrite reverse_app, IH, reverse_cons, concat_app. simpl. by rewrite app_nil_r.
Qed.

Lemma baseHitTest_misses w n this :
  finite_below w n this →
  ∃ probes, baseHitTest n w this = Returns (None, probes)
            ∧ acceptorCalls probes = reverse (preorder w n this).
Proof.
  revert this. induction n as [|n IH]; intros this; [done|].
  intros [[this_ Hthis] Hch].
  rewrite (getPartInfoAt_unfold _ _ _ _ _ _ _ this_) by done.
  assert (∃ probes, all_miss (baseHitTest n w) (childrenOf w this) probes
                    ∧ acceptorCalls <$> probes
                      = (reverse ∘ preorder w n) <$> childrenOf w this)
    as (probes & Hall & Hcalls).
  { induction Hch as [|c l Hc _ IHl]; [exists []; split; [constructor|done]|].
    destruct (IH c Hc) as (p & Hp & Hpc). destruct IHl as (ps & Hps & Hpsc).
    exists (p :: ps). split; [by constructor|]. rewrite !fmap_cons. simpl. by rewrite Hpc, Hpsc. }
  pose proof (hitChildren_all_miss _ _ _ [] Hall) as Hc. rewrite app_nil_r in Hc.
  rewrite Hc. simpl. eexists. split.
  - f_equal. f_equal. unfold hitSelf, Prototype._getPartInfoAt. simpl.
    destruct (accepts this this_); simpl; [|done].
    destruct (getBBox geometry this_ transform) as [bbox|]; [|done].
    by destruct (negb (isEmpty geometry bbox) && containsPoint geometry bbox location).
  - rewrite acceptorCalls_app, acceptorCalls_concat, fmap_reverse, Hcalls.
    cbn [preorder]. rewrite reverse_cons, reverse_concat. f_equal.
    + by rewrite list_fmap_compose.
    + unfold hitSelf. simpl. destruct (accepts this this_); simpl; [|done].
      destruct (getBBox geometry this_ transform) as [bbox|]; [|done].
      by destruct (negb (isEmpty geometry bbox) && containsPoint geometry bbox location).
Qed.

(** Property X17. Over a finite tree of editors that keep the base
    [_getPartInfoAt], a hit test with an acceptor returns [null] and calls
    the acceptor on every editor of the tree, in the exact reverse of the
    order in which [accept] calls a visitor that never cancels: the sub
    editor visited last is asked first, and the editor the test started at
    is asked last. *)
Theorem hit_test_asks_in_reverse_visiting_order w n this :
  finite_below w n this →
  ∃ probes visits,
    baseHitTest n w this = Returns (None, probes)
    ∧ accept noting n w this [] = Returns (true, visits)
    ∧ acceptorCalls probes = reverse visits
    ∧ last (acceptorCalls probes) = Some this
    ∧ head visits = Some this.
Proof.
  intros Hfin. destruct (baseHitTest_misses w n this Hfin) as (probes & Hrun & Hcalls).
  exists probes, (preorder w n this). split; [done|].
  assert (Hnoting : ∀ l s, (∀ i, i ∈ l → is_Some (heap w !! i)) →
                           visitInTurn noting w l s = (true, s ++ l)).
  { induction l as [|i l IHl]; intros s Hl; simpl; [by rewrite app_nil_r|].
    destruct (Hl i) as [i_ ->]; [left|]. simpl.
    rewrite IHl by (intros; apply Hl; by right). by rewrite <- app_assoc. }
  assert (Hobj : ∀ m i j, finite_below w m i → j ∈ preorder w m i →
                          is_Some (heap w !! j)).
  { induction m as [|m IHm]; intros i j; [done|]. intros [Hi Hch].
    cbn [preorder]. intros [->|Hj]%elem_of_cons; [done|].
    apply elem_of_concat in Hj as (l & Hj & Hl).
    apply list_elem_of_fmap in Hl as (c & -> & Hc).
    rewrite Forall_forall in Hch. by apply (IHm c j); [apply Hch|]. }
  split; [|split; [done|]].
  - rewrite accept_in_turn by done. rewrite Hnoting; [done|].
    intros i. by apply Hobj.
  - rewrite Hcalls. destruct n as [|n]; [done|]. cbn [preorder].
    rewrite reverse_cons, last_snoc. done.
Qed.
End HitTestOrder.

(** ** Inserting and removing a sub editor *)

Section StructuralRoundTrips.
Context {PartId : Type}.
Implicit Types (w : @World PartId) (o : @GXElementEditor PartId).
Implicit Types (l : list EditorId).

Lemma with_parentEditor_same o : with_parentEditor (_parentEditor o) o = o.
Proof. by destruct o. Qed.

Lemma with_editors_same o : with_editors (_editors o) o = o.
Proof. by destruct o. Qed.

Lemma world_eq w w' :
  heap w' = heap w → attachment w' = attachment w → _Editors w' = _Editors w → w' = w.
Proof. destruct w, w'. simpl. by intros -> -> ->. Qed.

(** The objects of the store after [insertEditor] of another editor. *)
Lemma insertEditor_heap w this editor ref w' :
  insertEditor this editor ref w = Returns w' → editor ≠ this →
  ∃ this_ editor_,
    heap w !! this = Some this_ ∧ heap w !! editor = Some editor_
    ∧ heap w'
      = <[editor := with_parentEditor (Some this) editor_]>
          (<[this := with_editors (Some (childrenOf w' this)) this_]> (heap w)).
Proof.
  intros Hrun Hne. unfold insertEditor, deref in Hrun.
  destruct (heap w !! this) as [this_|] eqn:Hthis; simpl in Hrun; [|done].
  apply bind_Returns in Hrun as (index & _ & Hrun).
  destruct (heap w !! editor) as [editor_|] eqn:Hed; simpl in Hrun; [|done].
  destruct (_parentEditor editor_); [done|]. cbv zeta in Hrun.
  unfold store at 2 in Hrun. simpl in Hrun.
  rewrite lookup_insert_ne in Hrun by done. rewrite Hed in Hrun. simpl in Hrun.
  injection Hrun as <-. exists this_, editor_. split; [done|]. split; [done|].
  unfold childrenOf, store. simpl.
  rewrite lookup_insert_ne by done. by rewrite lookup_insert_eq.
Qed.

(** The objects of the store after [removeEditor] of another editor. *)
Lemma removeEditor_heap w this editor w' :
  removeEditor this editor w = Returns w' → editor ≠ this →
  ∃ this_ editor_,
    heap w !! this = Some this_ ∧ heap w !! editor = Some editor_
    ∧ heap w'
      = <[editor := with_parentEditor None editor_]>
          (<[this := with_editors (Some (childrenOf w' this)) this_]> (heap w)).
Proof.
  intros Hrun Hne. unfold removeEditor, deref in Hrun.
  destruct (heap w !! this) as [this_|] eqn:Hthis; simpl in Hrun; [|done].
  destruct (_editors this_) as [l|]; [|done].
  destruct (indexOf l editor) as [i|]; [|done]. cbv zeta in Hrun.
  unfold store at 2 in Hrun. simpl in Hrun.
  rewrite lookup_insert_ne in Hrun by done.
  destruct (heap w !! editor) as [editor_|] eqn:Hed; simpl in Hrun; [|done].
  injection Hrun as <-. exists this_, editor_. split; [done|]. split; [done|].
  unfold childrenOf, store. simpl.
  rewrite lookup_insert_ne by done. by rewrite lookup_insert_eq.
Qed.

Lemma inserted_before_head e (before after : list EditorId) :
  NoDup (before ++ after) →
  inserted e (head after) (before ++ after) (before ++ e :: after).
Proof.
  intros Hnd. destruct after as [|r after]; simpl.
  - by rewrite app_nil_r.
  - exists before, after. split; [done|]. split; [|done].
    apply NoDup_app in Hnd as (_ & Hdisj & _). intros Hr. apply (Hdisj r Hr). left.
Qed.

Lemma inserted_unique e ref (l l1 l2 : list EditorId) :
  inserted e ref l l1 → inserted e ref l l2 → l1 = l2.
Proof.
  destruct ref as [r|]; simpl.
  - intros (b1 & a1 & Hl1 & Hn1 & ->) (b2 & a2 & Hl2 & Hn2 & ->).
    rewrite Hl1 in Hl2.
    by destruct (split_at_first_unique _ _ _ _ _ Hl2 Hn1 Hn2) as [-> ->].
  - by intros -> ->.
Qed.

(** Property X18. [insertEditor] and [removeEditor] undo each other, for
    two distinct editor objects of the store. (1) Inserting a parentless
    editor that the receiver does not list yet and removing it again gives
    back the store, except that a receiver whose array of sub editors was
    [null] now has an empty array. (2) Removing a sub editor whose
    [_parentEditor] is the receiver, from an array without duplicates, and
    inserting it again before the editor that followed it (appending it
    when none did) gives back the very store. *)
Theorem insertEditor_removeEditor_round_trip w this editor :
  editor ≠ this →
  (∀ ref this_,
     heap w !! this = Some this_ → is_Some (heap w !! editor) →
     parentOf w editor = None →
     (∀ r, ref = Some r → r ∈ childrenOf w this) →
     editor ∉ childrenOf w this →
     ∃ w1 w2,
       insertEditor this editor ref w = Returns w1
       ∧ removeEditor this editor w1 = Returns w2
       ∧ heap w2 = <[this := with_editors (Some (childrenOf w this)) this_]> (heap w)
       ∧ attachment w2 = attachment w ∧ _Editors w2 = _Editors w
       ∧ (is_Some (_editors this_) → w2 = w))
  ∧ (∀ before after,
       is_Some (heap w !! editor) →
       parentOf w editor = Some this →
       arrayOf w this = Some (before ++ editor :: after) →
       NoDup (before ++ editor :: after) →
       ∃ w1 w2,
         removeEditor this editor w = Returns w1
         ∧ childrenOf w1 this = before ++ after
         ∧ insertEditor this editor (head after) w1 = Returns w2
         ∧ w2 = w).
Proof.
  intros Hne. split.
  - intros ref this_ Hthis Hed Hpar Href Hnot.
    destruct (insertEditor_Returns w this editor ref) as
      (w1 & l' & Hins & Hl' & Hatt1 & Hreg1 & Hdom1 & Hch1 & Hpa1 & _); eauto.
    destruct (removeEditor_Returns w1 this editor) as
      (w2 & b & a & Hrem & Hsplit & Hb & Hatt2 & Hreg2 & Hdom2 & Hch2 & Hpa2 & _).
    { apply elem_of_dom. rewrite Hdom1. by apply elem_of_dom. }
    { rewrite Hch1, decide_True by done.
      apply (inserted_elem_of _ _ _ _ editor Hl'). by left. }
    assert (Hback : childrenOf w2 this = childrenOf w this).
    { rewrite Hch2, decide_True by done. rewrite Hch1, decide_True in Hsplit by done.
      destruct (inserted_once _ _ _ _ Hl' Hnot) as (b' & a' & -> & Hb' & Ha').
      destruct (split_at_first_unique _ _ _ _ _ Hsplit Hb' Hb) as [<- <-].
      destruct ref as [r|]; simpl in Hl'.
      - destruct Hl' as (b0 & a0 & Hl & Hr & Heq).
        assert (editor ∉ b0) by (rewrite Hl, elem_of_app in Hnot; tauto).
        destruct (split_at_first_unique _ _ _ _ _ Heq Hb' H) as [-> ->]. done.
      - destruct a' as [|x a'] using rev_ind.
        + rewrite app_nil_r. by apply app_inj_tail in Hl' as [-> _].
        + rewrite app_comm_cons, app_assoc in Hl'.
          apply app_inj_tail in Hl' as [<- ->].
          exfalso. apply Ha'. rewrite elem_of_app, list_elem_of_singleton. by right. }
    destruct (insertEditor_heap _ _ _ _ _ Hins Hne)
      as (t1 & e1 & Ht1 & He1 & Hheap1).
    destruct (removeEditor_heap _ _ _ _ Hrem Hne)
      as (t2 & e2 & Ht2 & He2 & Hheap2).
    rewrite Hthis in Ht1. injection Ht1 as <-.
    rewrite Hheap1 in Ht2, He2.
    rewrite lookup_insert_ne, lookup_insert_eq in Ht2 by done. injection Ht2 as <-.
    rewrite lookup_insert_eq in He2. injection He2 as <-.
    assert (Hheap : heap w2
                    = <[this := with_editors (Some (childrenOf w this)) this_]> (heap w)).
    { rewrite Hheap2, Hheap1, Hback. apply map_eq. intros j.
      destruct (decide (j = editor)) as [->|Hje].
      - rewrite lookup_insert_eq, lookup_insert_ne by done. rewrite He1. f_equal.
        unfold parentOf in Hpar. rewrite He1 in Hpar. destruct e1. simpl in *.
        by subst.
      - rewrite lookup_insert_ne by done.
        destruct (decide (j = this)) as [->|Hjt].
        + by rewrite !lookup_insert_eq.
        + by rewrite !lookup_insert_ne by done. }
    exists w1, w2. split; [done|]. split; [done|]. split; [done|].
    split; [congruence|]. split; [congruence|].
    intros [l Hl]. apply world_eq; [|congruence..].
    rewrite Hheap. apply map_eq. intros j.
    destruct (decide (j = this)) as [->|Hjt].
    + rewrite lookup_insert_eq, Hthis. f_equal. unfold childrenOf. rewrite Hthis, Hl.
      rewrite <- Hl. apply with_editors_same.
    + by rewrite lookup_insert_ne.
  - intros before after Hed Hpar Harr Hnd.
    assert (Hch : childrenOf w this = before ++ editor :: after).
    { revert Harr. unfold arrayOf, childrenOf. destruct (heap w !! this); [by intros ->|done]. }
    destruct (removeEditor_Returns w this editor) as
      (w1 & b & a & Hrem & Hsplit & Hb & Hatt1 & Hreg1 & Hdom1 & Hch1 & Hpa1 & _);
      [done|rewrite Hch; set_solver|].
    rewrite Hch in Hsplit.
    assert (Hnb : editor ∉ before).
    { apply NoDup_app in Hnd as (_ & Hdisj & _). intros Hin. apply (Hdisj _ Hin). left. }
    destruct (split_at_first_unique _ _ _ _ _ Hsplit Hnb Hb) as [<- <-].
    assert (Hnd1 : NoDup (before ++ after)).
    { apply NoDup_app in Hnd as (? & Hdisj & Hnda). apply NoDup_cons in Hnda as [_ ?].
      apply NoDup_app. split; [done|]. split; [|done].
      intros x Hx Hxa. apply (Hdisj x Hx). by right. }
    assert (Hch1' : childrenOf w1 this = before ++ after)
      by (by rewrite Hch1, decide_True).
    destruct (insertEditor_Returns w1 this editor (head after)) as
      (w2 & l' & Hins & Hl' & Hatt2 & Hreg2 & Hdom2 & Hch2 & Hpa2 & _).
    { apply elem_of_dom. rewrite Hdom1. apply elem_of_dom.
      unfold arrayOf in Harr. destruct (heap w !! this); [eauto|done]. }
    { apply elem_of_dom. rewrite Hdom1. by apply elem_of_dom. }
    { by rewrite Hpa1, decide_True. }
    { intros r Hr. rewrite Hch1'. destruct after as [|x after]; [done|].
      injection Hr as <-. set_solver. }
    rewrite Hch1' in Hl'.
    pose proof (inserted_unique _ _ _ _ _ Hl' (inserted_before_head editor _ _ Hnd1))
      as ->.
    exists w1, w2. split; [done|]. split; [done|]. split; [done|].
    destruct (removeEditor_heap _ _ _ _ Hrem Hne) as (t1 & e1 & Ht1 & He1 & Hheap1).
    destruct (insertEditor_heap _ _ _ _ _ Hins Hne) as (t2 & e2 & Ht2 & He2 & Hheap2).
    rewrite Hheap1 in Ht2, He2.
    rewrite lookup_insert_ne, lookup_insert_eq in Ht2 by done. injection Ht2 as <-.
    rewrite lookup_insert_eq in He2. injection He2 as <-.
    apply world_eq; [|congruence..].
    rewrite Hheap2, Hheap1, Hch2, decide_True by done. apply map_eq. intros j.
    destruct (decide (j = editor)) as [->|Hje].
    + rewrite lookup_insert_eq, He1. f_equal.
      unfold parentOf in Hpar. rewrite He1 in Hpar. destruct e1. simpl in *. by subst.
    + rewrite lookup_insert_ne by done.
      destruct (decide (j = this)) as [->|Hjt].
      * rewrite lookup_insert_eq, Ht1. f_equal.
        unfold arrayOf in Harr. rewrite Ht1 in Harr. destruct t1. simpl in *. by subst.
      * by rewrite !lookup_insert_ne by done.
Qed.
End StructuralRoundTrips.

(** ** Opening below ancestors without a registered editor *)

Section OverjumpProperties.
Context {PartId : Type}.
Implicit Types (w : @World PartId).
Variable scene : Scene.

Lemma openEditor_unregistered fuel a w :
  isAttached scene a = true → getEditor w a = None →
  _Editors w !! getTypeId scene a = None →
  openEditor scene (S fuel) a w = Returns (None, w).
Proof.
  intros Hatt Hslot Hreg. simpl. rewrite Hatt, Hslot. unfold createEditor.
  by rewrite Hreg.
Qed.

Lemma linkToAncestor_step open fuel e el node w :
  linkToAncestor scene open (S fuel) e el (Some node) w
  = ('(parentEditor, w) ←
       match getEditor w node with
       | Some parentEditor => Returns (Some parentEditor, w)
       | None => open node w
       end;
     match parentEditor with
     | Some parentEditor =>
         referenceEditor ← findReference scene fuel (getNext scene el) w;
         insertEditor parentEditor e referenceEditor w
     | None => linkToAncestor scene open fuel e el (getParent scene node) w
     end).
Proof. reflexivity. Qed.

(** The loop over the ancestors passes the ones that have no editor and
    no registered editor class. *)
Lemma linkToAncestor_skips chain : ∀ fopen k e el from top w,
  ancestry scene from chain top →
  (∀ a, a ∈ chain →
     isAttached scene a = true ∧ getEditor w a = None
     ∧ _Editors w !! getTypeId scene a = None) →
  linkToAncestor scene (openEditor scene (S fopen)) (length chain + k) e el from w
  = linkToAncestor scene (openEditor scene (S fopen)) k e el top w.
Proof.
  induction chain as [|a chain IH]; intros fopen k e el from top w;
    cbn [length Nat.add ancestry].
  - by intros ->.
  - intros [-> Hrest] Hchain.
    destruct (Hchain a) as (Hatt & Hslot & Hreg); [left|].
    rewrite linkToAncestor_step, Hslot, openEditor_unregistered by done.
    cbn [mbind Outcome_bind bind].
    apply IH; [done|]. intros a' Ha'. apply Hchain. by right.
Qed.

(** Property X19. [openEditor] jumps over the ancestors of the element that
    have no editor and whose class has no registered editor. For an
    attached element without editor, of a class with a registered editor,
    whose ancestors [chain] are such, [openEditor] returns a new editor
    object attached to the element, and: (1) when the chain ends at the
    root, the new editor has no parent, and nothing else changes; (2) when
    the chain ends below an ancestor that has an editor, the new editor is
    a sub editor of that editor, put in front of the editor of the first
    following sibling of the element that has one (at the end when none
    has), and no other object changes. In both cases no ancestor of the
    chain gets an editor. *)
Theorem openEditor_links_to_nearest_editor el chain top after w fuel :
  isAttached scene el = true → getEditor w el = None →
  is_Some (_Editors w !! getTypeId scene el) →
  ancestry scene (getParent scene el) chain top →
  (∀ a, a ∈ chain →
     isAttached scene a = true ∧ getEditor w a = None
     ∧ _Editors w !! getTypeId scene a = None) →
  linked scene (getNext scene el) after →
  length chain + length after + 2 ≤ fuel →
  let e := fresh (dom (heap w)) in
  e ∉ dom (heap w)
  ∧ (top = None →
     openEditor scene fuel el w
     = Returns (Some e, with_attachment (<[el := e]> (attachment w))
                          (store e (newEditor el) w)))
  ∧ (∀ anc pe,
       top = Some anc → getEditor w anc = Some pe → is_Some (heap w !! pe) →
       (∀ r, head (editorsIn w after) = Some r → r ∈ childrenOf w pe) →
       ∃ w', openEditor scene fuel el w = Returns (Some e, w')
             ∧ attachment w' = <[el := e]> (attachment w)
             ∧ _Editors w' = _Editors w
             ∧ heap w' !! e = Some (with_parentEditor (Some pe) (newEditor el))
             ∧ inserted e (head (editorsIn w after)) (childrenOf w pe) (childrenOf w' pe)
             ∧ (∀ j, j ≠ pe → j ≠ e → heap w' !! j = heap w !! j)).
Proof.
  intros Hatt Hslot [cls Hreg] Hanc Hchain Hafter Hfuel e.
  pose proof (fresh_not_in_dom w) as Hfresh. fold e in Hfresh.
  split; [done|].
  destruct fuel as [|fuel]; [lia|].
  destruct fuel as [|fopen]; [lia|].
  rewrite (openEditor_new scene _ _ _ cls) by done. cbv zeta. fold e.
  set (w1 := store e (newEditor el) w).
  assert (Hchain1 : ∀ a, a ∈ chain →
            isAttached scene a = true ∧ getEditor w1 a = None
            ∧ _Editors w1 !! getTypeId scene a = None) by exact Hchain.
  assert (∃ k, S fopen = length chain + S k ∧ length after ≤ k) as (k & Hk & Hka)
    by (exists (fopen - length chain); lia).
  pose proof (linkToAncestor_skips chain fopen (S k) e el _ top w1 Hanc Hchain1) as Hskip.
  rewrite <- Hk in Hskip. rewrite Hskip. clear Hskip.
  split.
  - by intros ->.
  - intros anc pe -> Hpe Hobj Href.
    rewrite (linkToAncestor_attached scene _ _ e el anc pe w1) by exact Hpe.
    rewrite (findReference_linked scene _ _ after w1) by (done || lia).
    rewrite (editorsIn_ext w w1 after) by done.
    cbn [mbind Outcome_bind bind].
    assert (Hne : pe ≠ e).
    { intros ->. apply Hfresh. by apply elem_of_dom. }
    destruct (insertEditor_Returns w1 pe e (head (editorsIn w after))) as
      (w2 & l' & Hins & Hl' & Hatt2 & Hreg2 & Hdom2 & Hch2 & Hpa2 & Hel2 & Hheap2 & Hnew2).
    { subst w1. unfold store. simpl. by rewrite lookup_insert_ne. }
    { subst w1. unfold store. simpl. rewrite lookup_insert_eq. eauto. }
    { subst w1. by rewrite parentOf_store_same. }
    { intros r Hr. subst w1. rewrite childrenOf_store_ne by done. by apply Href. }
    rewrite Hins. cbn [mbind Outcome_bind bind]. eexists. split; [reflexivity|].
    simpl. split; [by rewrite Hatt2|]. split; [by rewrite Hreg2|].
    split; [|split].
    + rewrite Hnew2 by done. subst w1. unfold store. simpl.
      by rewrite lookup_insert_eq.
    + change (childrenOf (with_attachment _ w2) pe) with (childrenOf w2 pe).
      rewrite Hch2, decide_True by done. subst w1.
      by rewrite childrenOf_store_ne in Hl' by done.
    + intros j Hjp Hje. rewrite Hheap2 by done. subst w1. unfold store. simpl.
      by rewrite lookup_insert_ne.
Qed.
End OverjumpProperties.

(** ** Closing the sub editors *)

Section CloseChildrenProperties.
Context {PartId : Type}.
Implicit Types (w : @World PartId).
Variable scene : Scene.

Lemma arrayOf_childrenOf w p l : arrayOf w p = Some l → childrenOf w p = l.
Proof.
  unfold arrayOf, childrenOf. destruct (heap w !! p); [by intros ->|done].
Qed.

Lemma childrenOf_arrayOf w p :
  is_Some (arrayOf w p) → arrayOf w p = Some (childrenOf w p).
Proof. intros [l Hl]. by rewrite (arrayOf_childrenOf _ _ _ Hl). Qed.

Lemma elementOf_deref w c el :
  elementOf w c = Some el →
  ∃ c_, heap w !! c = Some c_ ∧ deref w c = Returns c_ ∧ getElement c_ = el.
Proof.
  unfold elementOf, deref. destruct (heap w !! c) as [c_|]; [|done].
  intros [= <-]. eauto.
Qed.

Lemma closeChildren_array close f owner i w l :
  arrayOf w owner = Some l →
  closeChildren close (S f) owner i w
  = match l !! i with
    | None => Returns w
    | Some child =>
        child_ ← deref w child;
        w ← close (getElement child_) w;
        closeChildren close f owner (S i) w
    end.
Proof.
  intros Harr. rewrite closeChildren_step. unfold arrayOf in Harr. unfold deref.
  destruct (heap w !! owner); [|done]. cbn [mbind Outcome_bind bind]. by rewrite Harr.
Qed.

Lemma closeEditor_step fuel el w e cls :
  getEditor w el = Some e → _Editors w !! getTypeId scene el = Some cls →
  closeEditor scene (S fuel) el w
  = (e_ ← deref w e;
     w ← match getEditors e_ with
         | Some _ => closeChildren (closeEditor scene fuel) fuel e 0 w
         | None => Returns w
         end;
     e_ ← deref w e;
     w ← match getParentEditor e_ with
         | Some parentEditor => removeEditor parentEditor e w
         | None => Returns w
         end;
     Returns (with_attachment (delete el (attachment w)) w)).
Proof. intros He Hreg. cbn [closeEditor]. by rewrite He, Hreg. Qed.

(** Closing the editor of an element whose editor is a sub editor
    without sub editors. *)
Lemma closeEditor_leaf w p c el k :
  leaf_sub_editor scene w p c → elementOf w c = Some el →
  c ∈ childrenOf w p → 2 ≤ k →
  ∃ w' before after,
    closeEditor scene k el w = Returns w'
    ∧ childrenOf w p = before ++ c :: after ∧ c ∉ before
    ∧ attachment w' = delete el (attachment w)
    ∧ _Editors w' = _Editors w
    ∧ dom (heap w') = dom (heap w)
    ∧ (∀ j, childrenOf w' j = if decide (j = p) then before ++ after else childrenOf w j)
    ∧ (∀ j, parentOf w' j = if decide (j = c) then None else parentOf w j)
    ∧ (∀ j, elementOf w' j = elementOf w j)
    ∧ (∀ j, is_Some (arrayOf w j) → is_Some (arrayOf w' j)).
Proof.
  intros (Hpar & Hleaf & el' & Hel' & Hslot & [cls Hreg]) Hel Hin Hk.
  assert (el' = el) as -> by congruence.
  destruct k as [|k]; [lia|]. destruct k as [|k]; [lia|].
  rewrite (closeEditor_step _ _ _ c cls) by done.
  destruct (elementOf_deref _ _ _ Hel) as (c_ & Hc_ & -> & _).
  cbn [mbind Outcome_bind bind].
  assert (match getEditors c_ with
          | Some _ => closeChildren (closeEditor scene (S k)) (S k) c 0 w
          | None => Returns w
          end = Returns w) as ->.
  { unfold getEditors. destruct (_editors c_) as [l0|] eqn:Hl0; [|done].
    assert (Harr : arrayOf w c = Some l0) by (unfold arrayOf; by rewrite Hc_).
    rewrite (closeChildren_array _ _ _ _ _ _ Harr).
    rewrite <- (arrayOf_childrenOf _ _ _ Harr), Hleaf. done. }
  cbn [mbind Outcome_bind bind]. unfold deref. rewrite Hc_.
  cbn [mbind Outcome_bind bind]. unfold getParentEditor.
  assert (_parentEditor c_ = Some p) as ->.
  { revert Hpar. unfold parentOf. by rewrite Hc_. }
  destruct (removeEditor_Returns w p c) as
    (w' & before & after & Hrem & Hsplit & Hb & Hatt & Hregs & Hdom & Hch & Hpa & Helt & _);
    [eauto|done|].
  rewrite Hrem. cbn [mbind Outcome_bind bind].
  eexists _, before, after. split; [reflexivity|]. split; [done|]. split; [done|].
  split; [simpl; by rewrite Hatt|]. split; [exact Hregs|]. split; [exact Hdom|].
  split; [exact Hch|]. split; [exact Hpa|]. split; [exact Helt|].
  intros j Hj. exact (removeEditor_arrayOf w p c w' j Hrem Hj).
Qed.

Lemma list_pair_ind {A} (P : list A → Prop) :
  P [] → (∀ a, P [a]) → (∀ a b l, P l → P (a :: b :: l)) → ∀ l, P l.
Proof.
  intros Hnil Hone Hstep l.
  assert (P l ∧ ∀ a, P (a :: l)) as [? _]; [|done].
  induction l as [|b l [IH1 IH2]]; [by split|]. split; [apply IH2|].
  intros a. by apply Hstep.
Qed.

Lemma evenEntries_cons {A} (a : A) (l : list A) :
  evenEntries (a :: l) = a :: oddEntries l.
Proof. by destruct l. Qed.

Lemma elem_of_evenEntries {A} (x : A) (l : list A) : x ∈ evenEntries l → x ∈ l.
Proof.
  induction l as [|a|a b l IH] using list_pair_ind; [done..|].
  cbn [evenEntries]. rewrite !elem_of_cons. naive_solver.
Qed.

Lemma elem_of_oddEntries {A} (x : A) (l : list A) : x ∈ oddEntries l → x ∈ l.
Proof.
  destruct l as [|a l]; [done|]. unfold oddEntries. simpl.
  intros ?%elem_of_evenEntries. by right.
Qed.

Lemma evenEntries_oddEntries_disjoint {A} (x : A) (l : list A) :
  NoDup l → x ∈ evenEntries l → x ∉ oddEntries l.
Proof.
  induction l as [|a|a b l IH] using list_pair_ind.
  - by intros _ ?%elem_of_nil.
  - intros _ _. unfold oddEntries. simpl. apply not_elem_of_nil.
  - intros Hnd. apply NoDup_cons in Hnd as [Ha Hnd]. apply NoDup_cons in Hnd as [Hb Hnd].
    change (oddEntries (a :: b :: l)) with (evenEntries (b :: l)).
    rewrite (evenEntries_cons b l). cbn [evenEntries]. rewrite !elem_of_cons.
    intros [->|Hx] [->|Hx'].
    + apply Ha. left.
    + apply Ha. right. by apply elem_of_oddEntries.
    + apply Hb. by apply elem_of_evenEntries.
    + by apply (IH Hnd).
Qed.

Lemma lookup_even_odd {A} (l : list A) i x :
  l !! i = Some x →
  if Nat.even i then x ∈ evenEntries l else x ∈ oddEntries l.
Proof.
  revert i. induction l as [|a|a b l IH] using list_pair_ind; intros i; [done|..].
  - destruct i as [|i]; [|done]. intros [= ->]. simpl. left.
  - destruct i as [|[|i]].
    + intros [= ->]. simpl. left.
    + intros [= ->]. change (x ∈ evenEntries (x :: l)).
      rewrite (evenEntries_cons x l). left.
    + intros Hi. simpl in Hi. specialize (IH i Hi).
      change (Nat.even (S (S i))) with (Nat.even i).
      destruct (Nat.even i).
      * cbn [evenEntries]. by right.
      * change (oddEntries (a :: b :: l)) with (evenEntries (b :: l)).
        rewrite (evenEntries_cons b l). by right.
Qed.

(** The loop of [closeEditor] over the sub editors of [p], all without
    sub editors of their own: from the index [length kept] on, it closes
    the editors at every other position of [rest] and leaves the ones in
    between. *)
Lemma closeChildren_every_other p k :
  2 ≤ k → ∀ rest kept w f,
  arrayOf w p = Some (kept ++ rest) → NoDup (kept ++ rest) →
  (∀ c, c ∈ kept ++ rest → leaf_sub_editor scene w p c) →
  length rest < f →
  ∃ w', closeChildren (closeEditor scene k) f p (length kept) w = Returns w'
        ∧ arrayOf w' p = Some (kept ++ oddEntries rest)
        ∧ _Editors w' = _Editors w
        ∧ dom (heap w') = dom (heap w)
        ∧ (∀ j, elementOf w' j = elementOf w j)
        ∧ (∀ j, parentOf w' j
                = if decide (j ∈ evenEntries rest) then None else parentOf w j)
        ∧ (∀ el e, getEditor w' el = Some e → getEditor w el = Some e)
        ∧ (∀ c el, c ∈ evenEntries rest → elementOf w c = Some el →
                   getEditor w' el = None)
        ∧ (∀ el, (∀ c, c ∈ evenEntries rest → elementOf w c ≠ Some el) →
                 getEditor w' el = getEditor w el)
        ∧ (∀ j, j ≠ p → childrenOf w' j = childrenOf w j).
Proof.
  intros Hk rest.
  induction rest as [|c|c d rest IH] using list_pair_ind; intros kept w f Harr Hnd Hleaf Hf.
  - destruct f as [|f]; [simpl in Hf; lia|].
    rewrite (closeChildren_array _ _ _ _ _ _ Harr).
    rewrite lookup_ge_None_2 by (rewrite app_nil_r; lia).
    exists w. split; [done|]. split; [done|]. split; [done|]. split; [done|].
    split; [done|]. split; [intros j; by rewrite decide_False by apply not_elem_of_nil|].
    split; [done|]. split; [by intros c el ?%elem_of_nil|]. done.
  - destruct f as [|[|f]]; [simpl in Hf; lia..|].
    rewrite (closeChildren_array _ _ _ _ _ _ Harr).
    rewrite lookup_app_r, Nat.sub_diag by done. cbn [lookup list_lookup].
    destruct (Hleaf c) as (Hpar & Hnone & el & Hel & Hslot & Hreg); [set_solver|].
    destruct (elementOf_deref _ _ _ Hel) as (c_ & Hc_ & -> & <-).
    cbn [mbind Outcome_bind bind].
    destruct (closeEditor_leaf w p c (getElement c_) k) as
      (w1 & before & after & -> & Hsplit & Hb & Hatt & Hregs & Hdom & Hch & Hpa & Helt & Harr1);
      [by apply Hleaf; set_solver|done| |done|].
    { rewrite (arrayOf_childrenOf _ _ _ Harr). set_solver. }
    cbn [mbind Outcome_bind bind].
    rewrite (arrayOf_childrenOf _ _ _ Harr) in Hsplit.
    assert (Hck : c ∉ kept).
    { apply NoDup_app in Hnd as (_ & Hdisj & _). intros Hin. apply (Hdisj _ Hin). left. }
    destruct (split_at_first_unique _ _ _ _ _ Hsplit Hck Hb) as [<- <-].
    assert (Harr1' : arrayOf w1 p = Some (kept ++ [])).
    { rewrite childrenOf_arrayOf by (apply Harr1; eauto).
      by rewrite Hch, decide_True. }
    rewrite (closeChildren_array _ _ _ _ _ _ Harr1').
    rewrite lookup_ge_None_2 by (rewrite app_nil_r; lia).
    exists w1. split; [done|]. split; [done|]. split; [done|]. split; [done|].
    split; [done|]. split; [|split; [|split; [|split]]].
    + intros j. rewrite Hpa. simpl.
      destruct (decide (j = c)) as [->|Hne].
      * by rewrite decide_True by left.
      * rewrite decide_False; [done|]. by intros ->%list_elem_of_singleton.
    + intros el e. unfold getEditor. rewrite Hatt, lookup_delete.
      by case_decide.
    + intros c' el' ->%list_elem_of_singleton Hel'.
      assert (el' = getElement c_) as -> by congruence.
      unfold getEditor. rewrite Hatt. apply lookup_delete_eq.
    + intros el' Hel'. unfold getEditor. rewrite Hatt, lookup_delete_ne; [done|].
      intros <-. apply (Hel' c); [left|done].
    + intros j Hj. by rewrite Hch, decide_False.
  - destruct f as [|f]; [simpl in Hf; lia|].
    rewrite (closeChildren_array _ _ _ _ _ _ Harr).
    rewrite lookup_app_r, Nat.sub_diag by done. cbn [lookup list_lookup].
    destruct (Hleaf c) as (Hpar & Hnone & el & Hel & Hslot & Hreg); [set_solver|].
    destruct (elementOf_deref _ _ _ Hel) as (c_ & Hc_ & -> & <-).
    cbn [mbind Outcome_bind bind].
    destruct (closeEditor_leaf w p c (getElement c_) k) as
      (w1 & before & after & -> & Hsplit & Hb & Hatt & Hregs & Hdom & Hch & Hpa & Helt & Harr1);
      [by apply Hleaf; set_solver|done| |done|].
    { rewrite (arrayOf_childrenOf _ _ _ Harr). set_solver. }
    cbn [mbind Outcome_bind bind].
    rewrite (arrayOf_childrenOf _ _ _ Harr) in Hsplit.
    assert (Hck : c ∉ kept).
    { apply NoDup_app in Hnd as (_ & Hdisj & _). intros Hin. apply (Hdisj _ Hin). left. }
    destruct (split_at_first_unique _ _ _ _ _ Hsplit Hck Hb) as [<- <-].
    assert (NoDup ((kept ++ [d]) ++ rest) ∧ c ∉ (kept ++ [d]) ++ rest)
      as [Hnd1 Hc1].
    { rewrite <- app_assoc. simpl.
      apply NoDup_app in Hnd as (Hk1 & Hdisj & Hnda).
      apply NoDup_cons in Hnda as [Hc Hnda]. split.
      - apply NoDup_app. split; [done|]. split; [|done].
        intros x Hx Hxa. apply (Hdisj x Hx). by right.
      - rewrite elem_of_app. intros [?|?]; [done|]. done. }
    assert (Harr1' : arrayOf w1 p = Some ((kept ++ [d]) ++ rest)).
    { rewrite childrenOf_arrayOf by (apply Harr1; eauto).
      rewrite Hch, decide_True by done. by rewrite <- app_assoc. }
    assert (Hpc : p ≠ c).
    { intros ->. rewrite (arrayOf_childrenOf _ _ _ Harr) in Hnone.
      by destruct kept. }
    destruct (IH (kept ++ [d]) w1 f Harr1' Hnd1) as
      (w' & Hrun & Harr' & Hregs' & Hdom' & Helt' & Hpa' & Hshr' & Hcl' & Hkeep' & Hch');
      [|simpl in Hf; lia|].
    { intros x Hx.
      assert (Hxc : x ≠ c) by (by intros ->).
      destruct (Hleaf x) as (Hxp & Hxn & elx & Hxel & Hxs & Hxr).
      { rewrite <- app_assoc in Hx. simpl in Hx.
        rewrite elem_of_app in *. rewrite !elem_of_cons in *. tauto. }
      assert (Hxp' : x ≠ p).
      { intros ->. rewrite (arrayOf_childrenOf _ _ _ Harr) in Hxn. by destruct kept. }
      split; [by rewrite Hpa, decide_False|].
      split; [by rewrite Hch, decide_False|].
      exists elx. split; [by rewrite Helt|]. split; [|by rewrite Hregs].
      unfold getEditor. rewrite Hatt, lookup_delete_ne; [done|].
      intros <-. congruence. }
    replace (length (kept ++ [d])) with (S (length kept)) in Hrun
      by (rewrite length_app; simpl; lia).
    exists w'. split; [done|].
    change (oddEntries (c :: d :: rest)) with (evenEntries (d :: rest)).
    rewrite (evenEntries_cons d rest). cbn [evenEntries].
    split; [by rewrite Harr', <- app_assoc|]. split; [congruence|].
    split; [congruence|]. split; [intros j; by rewrite Helt'|].
    split; [|split; [|split; [|split]]].
    + intros j. rewrite Hpa', Hpa.
      destruct (decide (j = c)) as [->|Hne].
      * rewrite (decide_True (P:=c ∈ c :: evenEntries rest)) by left.
        by case_decide.
      * destruct (decide (j ∈ evenEntries rest)) as [Hin|Hnin].
        -- by rewrite decide_True by (by right).
        -- rewrite decide_False; [done|]. rewrite elem_of_cons. tauto.
    + intros el e He. apply Hshr' in He. revert He.
      unfold getEditor. rewrite Hatt, lookup_delete. by case_decide.
    + intros c' el' [->|Hc']%elem_of_cons Hel'.
      * assert (el' = getElement c_) as -> by congruence.
        destruct (getEditor w' (getElement c_)) as [e|] eqn:He; [|done].
        apply Hshr' in He. revert He. unfold getEditor.
        by rewrite Hatt, lookup_delete_eq.
      * apply (Hcl' c'); [done|]. by rewrite Helt.
    + intros el' Hel'. rewrite Hkeep'.
      * unfold getEditor. rewrite Hatt, lookup_delete_ne; [done|].
        intros <-. apply (Hel' c); [left|done].
      * intros c' Hc'. rewrite Helt. apply Hel'. by right.
    + intros j Hj. by rewrite Hch', Hch, decide_False.
Qed.

(** Property X20. [closeEditor] closes only every other sub editor. Its
    loop runs the index up the array that the nested calls shorten, so
    after closing the entry at index 0 it goes on with what was the entry
    at index 2. For an editor [p] whose sub editors are attached editors
    without sub editors of their own, [closeEditor] of the element of [p]
    returns with [p] detached, and: the sub editors at the positions 0, 2,
    4, ... are closed; the sub editors at the positions 1, 3, 5, ... are
    still attached to their elements, still have the detached [p] as
    [_parentEditor], and are what the array of [p] still holds. *)
Theorem closeEditor_closes_every_other_sub_editor P p l w fuel :
  getEditor w P = Some p →
  is_Some (_Editors w !! getTypeId scene P) →
  arrayOf w p = Some l →
  NoDup l →
  (∀ c, c ∈ l → leaf_sub_editor scene w p c) →
  (∀ pp, parentOf w p = Some pp → p ∈ childrenOf w pp) →
  length l + 3 ≤ fuel →
  ∃ w', closeEditor scene fuel P w = Returns w'
        ∧ getEditor w' P = None
        ∧ parentOf w' p = None
        ∧ childrenOf w' p = oddEntries l
        ∧ (∀ i c el, l !! i = Some c → elementOf w c = Some el →
             if Nat.even i
             then getEditor w' el = None ∧ parentOf w' c = None
             else getEditor w' el = Some c ∧ parentOf w' c = Some p).
Proof.
  intros HP [cls Hreg] Harr Hnd Hleaf Hback Hfuel.
  destruct fuel as [|k]; [lia|].
  rewrite (closeEditor_step _ _ _ p cls) by done.
  assert (∃ p_, heap w !! p = Some p_) as [p_ Hp_].
  { unfold arrayOf in Harr. destruct (heap w !! p); [eauto|done]. }
  assert (Hd : deref w p = Returns p_) by (unfold deref; by rewrite Hp_).
  rewrite Hd. cbn [mbind Outcome_bind bind]. unfold getEditors.
  assert (_editors p_ = Some l) as ->.
  { revert Harr. unfold arrayOf. by rewrite Hp_. }
  destruct (closeChildren_every_other p k ltac:(lia) l [] w k) as
    (w1 & Hrun & Harr1 & Hregs1 & Hdom1 & Helt1 & Hpa1 & Hshr1 & Hcl1 & Hkeep1 & Hch1);
    [done|done|done|lia|].
  simpl in Hrun, Harr1. rewrite Hrun. cbn [mbind Outcome_bind bind].
  assert (Hpl : p ∉ l).
  { intros Hin. destruct (Hleaf p Hin) as (_ & Hnone & _).
    rewrite (arrayOf_childrenOf _ _ _ Harr) in Hnone. subst l. by apply elem_of_nil in Hin. }
  assert (Hpeven : p ∉ evenEntries l) by (intros ?%elem_of_evenEntries; done).
  assert (HP1 : getEditor w1 P = Some p).
  { rewrite Hkeep1; [done|]. intros c Hc Hel.
    destruct (Hleaf c) as (_ & _ & el & Hel' & Hs & _); [by apply elem_of_evenEntries|].
    assert (el = P) as -> by congruence. assert (c = p) as -> by congruence. done. }
  assert (Hpar1 : parentOf w1 p = parentOf w p) by (by rewrite Hpa1, decide_False).
  assert (∃ p1, heap w1 !! p = Some p1) as [p1 Hp1].
  { apply elem_of_dom. rewrite Hdom1. apply elem_of_dom. eauto. }
  unfold deref. rewrite Hp1. cbn [mbind Outcome_bind bind]. unfold getParentEditor.
  assert (Hpp : _parentEditor p1 = parentOf w p).
  { rewrite <- Hpar1. unfold parentOf. by rewrite Hp1. }
  rewrite Hpp.
  assert (∃ w2,
    match parentOf w p with
    | Some parentEditor => removeEditor parentEditor p w1
    | None => Returns w1
    end = Returns w2
    ∧ attachment w2 = attachment w1
    ∧ parentOf w2 p = None
    ∧ childrenOf w2 p = childrenOf w1 p
    ∧ ∀ c, c ∈ l → parentOf w2 c = parentOf w1 c)
    as (w2 & -> & Hatt2 & Hpar2 & Hch2 & Hpa2).
  { destruct (parentOf w p) as [pp|] eqn:Hppw.
    - assert (Hne : pp ≠ p).
      { intros ->. specialize (Hback p eq_refl).
        by rewrite (arrayOf_childrenOf _ _ _ Harr) in Hback. }
      destruct (removeEditor_Returns w1 pp p) as
        (w2 & b & a & Hrem & _ & _ & Hatt & _ & _ & Hch & Hpa & _); [eauto| |].
      { rewrite Hch1 by done. by apply Hback. }
      exists w2. split; [done|]. split; [done|].
      split; [by rewrite Hpa, decide_True|].
      split; [by rewrite Hch, decide_False|].
      intros c Hc. rewrite Hpa, decide_False; [done|]. by intros ->.
    - exists w1. split; [done|]. split; [done|]. split; [congruence|]. done. }
  cbn [mbind Outcome_bind bind]. eexists. split; [reflexivity|].
  split; [unfold getEditor; simpl; apply lookup_delete_eq|].
  split; [exact Hpar2|].
  split.
  { change (childrenOf (with_attachment _ w2) p) with (childrenOf w2 p).
    rewrite Hch2. by apply arrayOf_childrenOf. }
  intros i c el Hi Hel.
  assert (Hcl : c ∈ l) by (by eapply list_elem_of_lookup_2).
  change (parentOf (with_attachment _ w2) c) with (parentOf w2 c).
  rewrite (Hpa2 c Hcl), Hpa1.
  destruct (Hleaf c Hcl) as (Hcp & _ & el' & Hel' & Hs & _).
  assert (el' = el) as -> by congruence.
  assert (HelP : el ≠ P).
  { intros ->. assert (c = p) as -> by congruence. done. }
  unfold getEditor. simpl. rewrite lookup_delete_ne by done. rewrite Hatt2.
  pose proof (lookup_even_odd l i c Hi) as Hpos.
  destruct (Nat.even i).
  - split; [by apply (Hcl1 c)|]. by rewrite decide_True.
  - assert (Hnot : c ∉ evenEntries l).
    { intros Hin. by apply (evenEntries_oddEntries_disjoint c l Hnd). }
    split; [|by rewrite decide_False].
    change (getEditor w1 el = Some c). rewrite Hkeep1; [done|].
    intros c' Hc' Hel''.
    destruct (Hleaf c') as (_ & _ & el'' & He'' & Hs'' & _);
      [by apply elem_of_evenEntries|].
    assert (el'' = el) as -> by congruence. assert (c' = c) as -> by congruence. done.
Qed.
End CloseChildrenProperties.

(** ** What [closeEditor] leaves of an [openEditor] *)

Section OpenCloseProperties.
Context {PartId : Type}.
Implicit Types (w : @World PartId).
Variable scene : Scene.

(** Property X21. [closeEditor] does not undo what [openEditor] did above
    the element. When the parent is an attached root with a registered
    editor class and neither it nor a child has an editor, [openEditor] on
    a child also opens the editor of the parent; [closeEditor] on the child
    then detaches the editor of the child only: the parent, that had no
    editor before, keeps its new editor, now without sub editor. *)
Theorem closeEditor_leaves_parent_editor_open parent first before c after w
    fuel fuel' :
  let siblings := before ++ c :: after in
  closed w →
  linked scene first siblings →
  getParent scene c = Some parent → isAttached scene c = true →
  is_Some (_Editors w !! getTypeId scene c) →
  getParent scene parent = None → isAttached scene parent = true →
  is_Some (_Editors w !! getTypeId scene parent) →
  getEditor w parent = None →
  parent ∉ siblings →
  (∀ c', c' ∈ siblings → getEditor w c' = None) →
  length siblings + 3 ≤ fuel →
  ∃ e pe w1 w2,
    openEditor scene fuel c w = Returns (Some e, w1)
    ∧ getEditor w1 parent = Some pe
    ∧ childrenOf w1 pe = [e]
    ∧ closeEditor scene (S fuel') c w1 = Returns w2
    ∧ getEditor w2 c = None
    ∧ getEditor w2 parent = Some pe
    ∧ childrenOf w2 pe = []
    ∧ parentOf w2 e = None.
Proof.
  intros siblings Hcl Hlinked Hpar Hatt [cls Hreg] Hroot Hpatt [cls' Hreg'] Hnop Hnot
    Hnone Hfuel.
  destruct (openEditor_first_child_opens_root scene parent first before c after w
              fuel cls cls') as (e & pe & w1 & Hopen & Hpe & Hch & _); try done.
  assert (Hslot : getEditor w c = None) by (apply Hnone; set_solver).
  destruct (openEditor_post _ _ _ _ _ _ Hopen Hcl) as [_ _ Hreg1 _ Hslot1 Hnew].
  specialize (Hslot1 e eq_refl).
  destruct (Hnew Hslot e eq_refl) as (_ & _ & p & He & Honly & _).
  assert (p = Some pe) as ->.
  { apply Honly. rewrite Hch. left. }
  exists e, pe, w1. rewrite (closeEditor_step scene _ _ _ e cls)
    by (done || by rewrite Hreg1).
  unfold deref. rewrite He. cbn [mbind Outcome_bind bind]. simpl.
  rewrite He. cbn [mbind Outcome_bind bind]. simpl.
  destruct (removeEditor_Returns w1 pe e) as
    (w' & b & a & Hrem & Hsplit & Hb & Hatt' & _ & _ & Hch' & Hpa' & _);
    [eauto|rewrite Hch; left|].
  rewrite Hrem. cbn [mbind Outcome_bind bind]. eexists.
  split; [done|]. split; [done|]. split; [done|]. split; [done|].
  assert (b = [] ∧ a = []) as [-> ->].
  { rewrite Hch in Hsplit. destruct b as [|x b]; simpl in Hsplit.
    - by injection Hsplit as <-.
    - injection Hsplit as <- Hnil. by destruct b. }
  split; [unfold getEditor; simpl; apply lookup_delete_eq|].
  split; [|split].
  - unfold getEditor. simpl. rewrite lookup_delete_ne, Hatt'; [done|].
    intros <-. apply Hnot. subst siblings. set_solver.
  - change (childrenOf (with_attachment _ w') pe) with (childrenOf w' pe).
    by rewrite Hch', decide_True.
  - change (parentOf (with_attachment _ w') e) with (parentOf w' e).
    by rewrite Hpa', decide_True.
Qed.
End OpenCloseProperties.

(** ** A following sibling whose editor is elsewhere *)

Section ForeignReference.
Context {PartId : Type}.
Implicit Types (w : @World PartId).
Variable scene : Scene.

(** Property X22. [openEditor] takes the editor of the first following
    sibling that has one as the place to insert at, without looking where
    that editor is. When it is not a sub editor of the editor of the
    parent, [openEditor] throws instead of returning an editor: the error
    "Unknown reference editor." when the parent's editor has an array of
    sub editors, and a TypeError when that array is still [null]. *)
Theorem openEditor_throws_on_foreign_sibling_editor el parent pe after r w fuel :
  isAttached scene el = true → getEditor w el = None →
  is_Some (_Editors w !! getTypeId scene el) →
  getParent scene el = Some parent →
  getEditor w parent = Some pe → is_Some (heap w !! pe) →
  linked scene (getNext scene el) after →
  head (editorsIn w after) = Some r →
  r ∉ childrenOf w pe →
  length after + 2 ≤ fuel →
  openEditor scene fuel el w
  = Throws match arrayOf w pe with
           | Some _ => JsError "Unknown reference editor."
           | None => TypeError
           end.
Proof.
  intros Hatt Hslot [cls Hreg] Hpar Hpe [pe_ Hobj] Hafter Href Hnot Hfuel.
  destruct fuel as [|fuel]; [lia|]. destruct fuel as [|fuel]; [lia|].
  rewrite (openEditor_new scene _ _ _ cls) by done. cbv zeta. rewrite Hpar.
  set (e := fresh (dom (heap w))). set (w1 := store e (newEditor el) w).
  assert (Hne : pe ≠ e).
  { intros ->. apply (fresh_not_in_dom w). apply elem_of_dom. eauto. }
  rewrite (linkToAncestor_attached scene _ _ e el parent pe w1) by exact Hpe.
  rewrite (findReference_linked scene _ _ after w1) by (done || lia).
  rewrite (editorsIn_ext w w1 after), Href by done.
  cbn [mbind Outcome_bind bind].
  unfold insertEditor, deref. subst w1. unfold store at 1. simpl.
  rewrite (lookup_insert_ne _ e pe) by congruence. rewrite Hobj. cbn [mbind Outcome_bind bind].
  unfold arrayOf, childrenOf in *. rewrite Hobj in *.
  destruct (_editors pe_) as [l|]; [|done].
  apply indexOf_None in Hnot. by rewrite Hnot.
Qed.
End ForeignReference.

(** ** What [openEditor] returns and what it keeps *)

Section OpenKeeps.
Context {PartId : Type}.
Implicit Types (w : @World PartId).
Variable scene : Scene.

Lemma keeps_attachments_refl w : keeps_attachments w w.
Proof. by split. Qed.

Lemma keeps_attachments_trans w1 w2 w3 :
  keeps_attachments w1 w2 → keeps_attachments w2 w3 → keeps_attachments w1 w3.
Proof. intros [Hr Ha] [Hr' Ha']. split; [congruence|auto]. Qed.

Lemma insertEditor_keeps_attachments w this editor ref w' :
  insertEditor this editor ref w = Returns w' → keeps_attachments w w'.
Proof.
  intros Hins. destruct (insertEditor_inv _ _ _ _ _ Hins) as (Hthis & Hed & Hpar & Href).
  destruct (insertEditor_Returns w this editor ref Hthis Hed Hpar Href)
    as (w'' & l' & Hret & _ & Hatt & Hreg & _).
  rewrite Hins in Hret. injection Hret as <-.
  split; [done|]. intros el e. unfold getEditor. by rewrite Hatt.
Qed.

Lemma linkToAncestor_keeps_attachments open e el k : ∀ parentNode w w',
  (∀ el0 w0 r0 w0', open el0 w0 = Returns (r0, w0') → keeps_attachments w0 w0') →
  linkToAncestor scene open k e el parentNode w = Returns w' →
  keeps_attachments w w'.
Proof.
  induction k as [|k IH]; intros [node|] w w' Hopen; simpl; try done.
  - intros [= <-]. apply keeps_attachments_refl.
  - intros Hrun. apply bind_Returns in Hrun as ([parentEditor wc] & Hstep & Hrun).
    assert (Hc : keeps_attachments w wc).
    { destruct (getEditor w node) as [pe|].
      - injection Hstep as _ <-. apply keeps_attachments_refl.
      - by apply Hopen in Hstep. }
    destruct parentEditor as [pe|].
    + apply bind_Returns in Hrun as (ref & _ & Hins).
      eapply keeps_attachments_trans; [exact Hc|].
      by eapply insertEditor_keeps_attachments.
    + eapply keeps_attachments_trans; [exact Hc|]. by eapply IH.
  - intros [= <-]. apply keeps_attachments_refl.
Qed.

Lemma openEditor_keeps_attachments fuel : ∀ el w r w',
  openEditor scene fuel el w = Returns (r, w') → keeps_attachments w w'.
Proof.
  induction fuel as [|fuel IH]; intros el w r w'; simpl; [done|].
  destruct (isAttached scene el); simpl; [|done].
  destruct (getEditor w el) as [e0|] eqn:Hslot.
  { intros [= _ <-]. apply keeps_attachments_refl. }
  unfold createEditor. destruct (_Editors w !! getTypeId scene el) as [cls|].
  2:{ intros [= _ <-]. apply keeps_attachments_refl. }
  intros Hrun. apply bind_Returns in Hrun as (w2 & Hlink & [= _ <-]).
  apply linkToAncestor_keeps_attachments in Hlink as [Hreg Hatt]; [|exact IH].
  split; [done|]. intros el0 e0 He0. unfold getEditor. simpl.
  rewrite lookup_insert_ne by (intros <-; congruence). by apply Hatt.
Qed.

(** Property X23. When [openEditor] returns, it has only added: every
    element that had an editor still has the same editor, and the registry
    is as it was. It returns [null] exactly when the element had no editor
    and its class has no registered editor, and then nothing at all has
    changed (no ancestor was opened); otherwise the editor it returns is
    the one attached to the element afterwards. *)
Theorem openEditor_only_adds fuel el w r w' :
  openEditor scene fuel el w = Returns (r, w') →
  keeps_attachments w w'
  ∧ (r = None ↔ getEditor w el = None ∧ _Editors w !! getTypeId scene el = None)
  ∧ (r = None → w' = w)
  ∧ (∀ e, r = Some e → getEditor w' el = Some e)
  ∧ isAttached scene el = true.
Proof.
  intros Hrun. split; [by eapply openEditor_keeps_attachments|].
  split; [|split; [|split; [|by eapply openEditor_attached]]].
  - destruct fuel as [|fuel]; simpl in Hrun; [done|].
    destruct (isAttached scene el); simpl in Hrun; [|done].
    destruct (getEditor w el) as [e0|] eqn:Hslot.
    { injection Hrun as <- _. split; [done|]. by intros [? _]. }
    unfold createEditor in Hrun.
    destruct (_Editors w !! getTypeId scene el) as [cls|].
    + apply bind_Returns in Hrun as (w2 & _ & [= <- _]). split; [done|]. by intros [_ ?].
    + by injection Hrun as <- _.
  - intros ->. destruct fuel as [|fuel]; simpl in Hrun; [done|].
    destruct (isAttached scene el); simpl in Hrun; [|done].
    destruct (getEditor w el) as [e0|]; [done|].
    unfold createEditor in Hrun.
    destruct (_Editors w !! getTypeId scene el) as [cls|].
    + by apply bind_Returns in Hrun as (w2 & _ & [=]).
    + by injection Hrun as <-.
  - intros e ->. by eapply openEditor_slot.
Qed.
End OpenKeeps.

(** ** Opening and closing in a store nested like the scene *)

Section NestingProperties.
Context {PartId : Type}.
Implicit Types (w : @World PartId).
Variable scene : Scene.

Lemma ancestry_app from c1 c2 top :
  ancestry scene from (c1 ++ c2) top
  ↔ ∃ mid, ancestry scene from c1 mid ∧ ancestry scene mid c2 top.
Proof.
  revert from. induction c1 as [|x c1 IH]; intros from; simpl.
  - split; [eauto|]. by intros (mid & -> & ?).
  - rewrite IH. naive_solver.
Qed.

Lemma ancestry_unique from c1 c2 :
  ancestry scene from c1 None → ancestry scene from c2 None → c1 = c2.
Proof.
  revert from c2. induction c1 as [|x c1 IH]; intros from [|y c2]; simpl.
  - done.
  - intros -> [? _]. done.
  - intros [-> _] ?. done.
  - intros [-> H1] [[= <-] H2]. f_equal. eauto.
Qed.

Lemma ancestry_acyclic E chain :
  ancestry scene (getParent scene E) chain None → E ∉ chain.
Proof.
  intros Hanc (c1 & c2 & ->)%list_elem_of_split.
  pose proof Hanc as (mid & _ & [_ Hc2])%ancestry_app.
  pose proof (ancestry_unique _ _ _ Hanc Hc2) as Hlen%(f_equal length).
  rewrite length_app in Hlen. simpl in Hlen. lia.
Qed.

Lemma ancestry_prefix c1 : ∀ from a chain,
  ancestry scene from c1 (Some a) → ancestry scene from chain None →
  ∃ rest, chain = c1 ++ a :: rest.
Proof.
  induction c1 as [|x c1 IH]; intros from a [|y chain]; simpl.
  - intros -> ?. done.
  - intros -> [[= <-] _]. eauto.
  - intros [-> _] ?. done.
  - intros [-> H1] [[= <-] H2]. destruct (IH _ _ _ H1 H2) as [rest ->]. eauto.
Qed.

Lemma ancestry_host_unique w c1 : ∀ from a1 c2 a2,
  ancestry scene from c1 (Some a1) → ancestry scene from c2 (Some a2) →
  Forall (passed_over scene w) c1 → Forall (passed_over scene w) c2 →
  ¬ passed_over scene w a1 → ¬ passed_over scene w a2 →
  c1 = c2 ∧ a1 = a2.
Proof.
  induction c1 as [|x c1 IH]; intros from a1 [|y c2] a2; simpl.
  - intros -> [= <-]. done.
  - intros -> [[= <-] _] _ Hy%Forall_cons_1 Hn. by destruct Hy.
  - intros [-> _] [= <-] Hx%Forall_cons_1 _ _ Hn. by destruct Hx.
  - intros [-> H1] [[= <-] H2] [_ Hc1]%Forall_cons_1 [_ Hc2]%Forall_cons_1 Hn1 Hn2.
    destruct (IH _ _ _ _ H1 H2 Hc1 Hc2 Hn1 Hn2) as [-> ->]. done.
Qed.

Lemma passed_over_ext w w' x :
  attachment w' = attachment w → _Editors w' = _Editors w →
  passed_over scene w x → passed_over scene w' x.
Proof. unfold passed_over, getEditor. by intros -> ->. Qed.

Lemma nested_mono w w' :
  nested scene w →
  attachment w' = attachment w → _Editors w' = _Editors w →
  (∀ j x, x ∈ childrenOf w j → x ∈ childrenOf w' j) →
  nested scene w'.
Proof.
  intros Hn Hatt Hreg Hch s r chain a Hs Hanc Hpass Ha.
  unfold getEditor in *. rewrite Hatt in Hs. rewrite Hatt, Hreg in Ha.
  destruct (Hn s r chain a Hs Hanc) as (pe & Hpe & Hin); [|done|].
  - eapply Forall_impl; [exact Hpass|]. intros x. by apply passed_over_ext.
  - exists pe. rewrite Hatt. auto.
Qed.

Lemma nested_no_attachment w : attachment w = ∅ → nested scene w.
Proof. intros Hatt s r chain a Hs. unfold getEditor in Hs. by rewrite Hatt in Hs. Qed.

(** What the result of [openEditor] tells about the element. *)
Lemma openEditor_result fuel el w r w' :
  openEditor scene fuel el w = Returns (r, w') →
  (r = None → w' = w ∧ _Editors w !! getTypeId scene el = None)
  ∧ (getEditor w el = None → is_Some r → is_Some (_Editors w !! getTypeId scene el)).
Proof.
  destruct fuel as [|fuel]; simpl; [done|].
  destruct (isAttached scene el); simpl; [|done].
  destruct (getEditor w el) as [e0|].
  { intros [= <- <-]. split; [done|]. done. }
  unfold createEditor. destruct (_Editors w !! getTypeId scene el) as [cls|].
  - intros (w2 & _ & [= <- _])%bind_Returns. split; [done|eauto].
  - intros [= <- <-]. split; [done|]. by intros _ [? ?].
Qed.

(** [openEditor] attaches editors to elements of registered classes only. *)
Lemma linkToAncestor_attaches_registered open e el k : ∀ parentNode w w' x,
  (∀ el0 w0 r0 w0', open el0 w0 = Returns (r0, w0') → keeps_attachments w0 w0') →
  (∀ el0 w0 r0 w0' x0, open el0 w0 = Returns (r0, w0') →
     getEditor w0 x0 = None → is_Some (getEditor w0' x0) →
     is_Some (_Editors w0 !! getTypeId scene x0)) →
  linkToAncestor scene open k e el parentNode w = Returns w' →
  getEditor w x = None → is_Some (getEditor w' x) →
  is_Some (_Editors w !! getTypeId scene x).
Proof.
  induction k as [|k IH]; intros [node|] w w' x Hkeep Hopen; simpl; try done.
  - intros [= <-] -> [? ?]. done.
  - intros Hrun Hx Hx'. apply bind_Returns in Hrun as ([parentEditor wc] & Hstep & Hrun).
    assert (Hc : keeps_attachments w wc
                 ∧ (is_Some (getEditor wc x) → is_Some (_Editors w !! getTypeId scene x))).
    { destruct (getEditor w node) as [pe|].
      - injection Hstep as _ <-. split; [apply keeps_attachments_refl|].
        rewrite Hx. by intros [? ?].
      - split; [by eapply Hkeep|]. by eapply Hopen. }
    destruct Hc as [[Hreg _] Hc].
    destruct (getEditor wc x) as [ex|] eqn:Hxc; [apply Hc; eauto|].
    destruct parentEditor as [pe|].
    + apply bind_Returns in Hrun as (ref & _ & Hins).
      destruct (insertEditor_inv _ _ _ _ _ Hins) as (Hthis & Hed & Hpar & Href).
      destruct (insertEditor_Returns wc pe e ref Hthis Hed Hpar Href)
        as (w'' & l' & Hret & _ & Hatt & _).
      rewrite Hins in Hret. injection Hret as <-.
      unfold getEditor in Hx', Hxc. rewrite Hatt, Hxc in Hx'. by destruct Hx'.
    + rewrite <- Hreg. by eapply IH.
  - intros [= <-] -> [? ?]. done.
Qed.

Lemma openEditor_attaches_registered fuel : ∀ el w r w' x,
  openEditor scene fuel el w = Returns (r, w') →
  getEditor w x = None → is_Some (getEditor w' x) →
  is_Some (_Editors w !! getTypeId scene x).
Proof.
  induction fuel as [|fuel IH]; intros el w r w' x; simpl; [done|].
  destruct (isAttached scene el); simpl; [|done].
  destruct (getEditor w el) as [e0|] eqn:Hslot.
  { intros [= _ <-] -> [? ?]. done. }
  unfold createEditor. destruct (_Editors w !! getTypeId scene el) as [cls|] eqn:Hreg.
  2:{ intros [= _ <-] -> [? ?]. done. }
  intros Hrun Hx Hx'. apply bind_Returns in Hrun as (w2 & Hlink & [= _ <-]).
  unfold getEditor in Hx'. simpl in Hx'.
  destruct (decide (el = x)) as [<-|Hne]; [eauto|].
  rewrite lookup_insert_ne in Hx' by done.
  apply (linkToAncestor_attaches_registered _ _ _ _ _ _ _ x
           (λ el0 w0 r0 w0', openEditor_keeps_attachments scene fuel el0 w0 r0 w0')
           (λ el0 w0 r0 w0' x0, IH el0 w0 r0 w0' x0)) in Hlink; done.
Qed.

(** The loop of [openEditor] over the ancestors returns in a nested
    store, and keeps it nested; [prefix] is the part of the ancestors
    [chain] that the loop has passed over, [walk] the part still ahead. *)
Lemma linkToAncestor_nested E e after chain f :
  ancestry scene (getParent scene E) chain None →
  linked scene (getNext scene E) after →
  (∀ s, s ∈ after → getParent scene s = getParent scene E) →
  (∀ pre a rest w0, chain = pre ++ a :: rest → closed w0 → nested scene w0 →
     ∃ r w', openEditor scene f a w0 = Returns (r, w') ∧ nested scene w'
             ∧ ∀ x, x ∉ a :: rest → getEditor w' x = getEditor w0 x) →
  ∀ walk prefix from k wc,
    chain = prefix ++ walk →
    ancestry scene (getParent scene E) prefix from →
    ancestry scene from walk None →
    Forall (passed_over scene wc) prefix →
    closed wc → nested scene wc →
    unreferenced wc e → heap wc !! e = Some (newEditor E) →
    length walk + length after + 1 ≤ k →
    ∃ w2,
      linkToAncestor scene (openEditor scene f) k e E from wc = Returns w2
      ∧ nested scene w2
      ∧ _Editors w2 = _Editors wc
      ∧ (∀ x, x ∉ walk → getEditor w2 x = getEditor wc x)
      ∧ (Forall (passed_over scene w2) chain
         ∨ ∃ prefix' a pe,
             ancestry scene (getParent scene E) prefix' (Some a)
             ∧ Forall (passed_over scene w2) prefix'
             ∧ getEditor w2 a = Some pe ∧ e ∈ childrenOf w2 pe).
Proof.
  intros Hchain Hafter Hsib Hopen.
  induction walk as [|a walk IH]; intros prefix from k wc Hsplit Hpre Hwalk Hpass Hcl
    Hnest Hunref He Hk.
  - simpl in Hwalk. subst from. exists wc.
    split; [by destruct k|]. split; [done|]. split; [done|]. split; [done|].
    left. by rewrite Hsplit, app_nil_r.
  - simpl in Hwalk. destruct Hwalk as [-> Hwalk].
    destruct k as [|k]; [simpl in Hk; lia|]. simpl in Hk.
    rewrite linkToAncestor_step.
    assert (Hpar : parentOf wc e = None) by (unfold parentOf; by rewrite He).
    destruct (getEditor wc a) as [pe|] eqn:Ha.
    + (* the ancestor has an editor *)
      cbn [mbind Outcome_bind bind].
      rewrite (findReference_linked scene k _ after wc) by (done || lia).
      cbn [mbind Outcome_bind bind].
      destruct (insertEditor_Returns wc pe e (head (editorsIn wc after)))
        as (w2 & l' & Hret & Hins & Hatt & Hreg & _ & Hch & _); [| |done| |].
      { apply elem_of_dom. destruct Hcl as (Hs & _). by apply (Hs a). }
      { eauto. }
      { intros r Hr. assert (Hin : r ∈ editorsIn wc after).
        { destruct (editorsIn wc after); simplify_eq/=. left. }
        apply elem_of_editorsIn in Hin as (s & Hs & Hsr).
        destruct (Hnest s r prefix a) as (pe' & Hpe' & Hin'); [done| |done|eauto|].
        - by rewrite (Hsib s Hs).
        - by assert (pe' = pe) as <- by congruence. }
      exists w2. split; [done|].
      assert (Hgrow : ∀ j x, x ∈ childrenOf wc j → x ∈ childrenOf w2 j).
      { intros j x Hx. rewrite Hch. case_decide as Hj; [subst j|done].
        apply (inserted_elem_of _ _ _ _ x Hins). by right. }
      split; [by eapply nested_mono|]. split; [done|].
      split; [intros x _; unfold getEditor; by rewrite Hatt|].
      right. exists prefix, a, pe. split; [done|]. split; [|split].
      * eapply Forall_impl; [exact Hpass|]. intros x. by apply passed_over_ext.
      * unfold getEditor. by rewrite Hatt.
      * rewrite Hch, decide_True by done. apply (inserted_elem_of _ _ _ _ e Hins). by left.
    + (* the ancestor has none: [openEditor] on it *)
      destruct (Hopen prefix a walk wc Hsplit Hcl Hnest) as (r & w' & Hrun & Hnest' & Hout).
      rewrite Hrun. cbn [mbind Outcome_bind bind].
      destruct (openEditor_post scene _ _ _ _ _ Hrun Hcl)
        as [Hcl' Hdom' Hreg' Hframe Hslot' Hnew].
      destruct (openEditor_result _ _ _ _ _ Hrun) as [Hnull Hsome].
      destruct r as [pa|].
      * (* a new editor for the ancestor *)
        destruct (Hframe e) as [Hunref' He']; [apply elem_of_dom; eauto|done|].
        rewrite He in He'.
        specialize (Hslot' pa eq_refl).
        destruct (Hnew Ha pa eq_refl) as (_ & _ & p & Hpa & _).
        assert (Hpass' : Forall (passed_over scene w') prefix).
        { eapply Forall_impl; [exact Hpass|]. intros x [Hx Hxr]. split; [|by rewrite Hreg'].
          destruct (getEditor w' x) as [ex|] eqn:Hx'; [|done].
          destruct (openEditor_attaches_registered _ _ _ _ _ x Hrun Hx) as [c Hc]; [eauto|].
          congruence. }
        assert (Hnone : editorsIn w' after = []).
        { apply editorsIn_none. intros s Hs.
          destruct (getEditor w' s) as [r|] eqn:Hsr; [|done].
          destruct (Hnest' s r prefix a) as (pe' & Hpe' & Hin'); [done| |done| |].
          - by rewrite (Hsib s Hs).
          - left. unfold getEditor. eauto.
          - unfold getEditor in Hpe'. assert (pe' = pa) as -> by congruence.
            unfold childrenOf in Hin'. rewrite Hpa in Hin'. simpl in Hin'.
            by apply elem_of_nil in Hin'. }
        rewrite (findReference_linked scene k _ after w') by (done || lia).
        rewrite Hnone. cbn [mbind Outcome_bind bind head].
        destruct (insertEditor_Returns w' pa e None)
          as (w2 & l' & Hret & Hins & Hatt & Hreg & _ & Hch & _); [eauto|eauto| |done|].
        { unfold parentOf. by rewrite He'. }
        exists w2. split; [done|].
        assert (Hgrow : ∀ j x, x ∈ childrenOf w' j → x ∈ childrenOf w2 j).
        { intros j x Hx. rewrite Hch. case_decide as Hj; [subst j|done].
          apply (inserted_elem_of _ _ _ _ x Hins). by right. }
        split; [by eapply nested_mono|]. split; [congruence|].
        split.
        { intros x Hx. unfold getEditor at 1. rewrite Hatt. by apply Hout. }
        right. exists prefix, a, pa. split; [done|]. split; [|split].
        -- eapply Forall_impl; [exact Hpass'|]. intros x. by apply passed_over_ext.
        -- unfold getEditor. by rewrite Hatt.
        -- rewrite Hch, decide_True by done. apply (inserted_elem_of _ _ _ _ e Hins). by left.
      * (* the class of the ancestor has no registered editor *)
        destruct (Hnull eq_refl) as [-> Hnoreg].
        destruct (IH (prefix ++ [a]) (getParent scene a) k wc) as
          (w2 & Hret & Hnest2 & Hreg2 & Hout2 & Hhost); try done.
        { by rewrite <- app_assoc. }
        { apply ancestry_app. exists (Some a). split; [done|]. by simpl. }
        { apply Forall_app. split; [done|]. by repeat constructor. }
        { lia. }
        exists w2. split; [done|]. split; [done|]. split; [done|]. split; [|done].
        intros x Hx. apply Hout2. intros Hin. apply Hx. by right.
Qed.

(** In a nested store [openEditor] returns, and keeps the store nested;
    it attaches editors to the element and its ancestors only. *)
Lemma openEditor_nested m : ∀ n chain E fuel w,
  length chain < n →
  below_root scene E chain m →
  closed w → nested scene w →
  length chain + m + 2 ≤ fuel →
  ∃ r w', openEditor scene fuel E w = Returns (r, w') ∧ nested scene w'
          ∧ ∀ x, x ∉ E :: chain → getEditor w' x = getEditor w x.
Proof.
  induction n as [|n IH]; intros chain E fuel w Hn [Hanc Hsc] Hcl Hnest Hfuel; [lia|].
  destruct fuel as [|f]; [lia|].
  destruct (Hsc E) as (Hatt & after & Hafter & Hlen & Hsib); [left|].
  destruct (getEditor w E) as [e0|] eqn:Hslot.
  { exists (Some e0), w. simpl. rewrite Hatt, Hslot. done. }
  destruct (_Editors w !! getTypeId scene E) as [cls|] eqn:Hreg.
  2:{ exists None, w. by rewrite openEditor_unregistered. }
  rewrite (openEditor_new scene _ _ _ cls) by done. cbv zeta.
  set (e := fresh (dom (heap w))). set (wc := store e (newEditor E) w).
  destruct (store_fresh_facts w E Hcl) as (Hclc & Hunref & He & _ & _).
  fold e in Hunref, He, Hclc. fold wc in Hunref, He, Hclc.
  assert (Hnestc : nested scene wc).
  { apply (nested_mono w); [done|done|done|]. intros j x Hx.
    destruct (decide (e = j)) as [<-|Hne].
    - exfalso. pose proof (fresh_not_in_dom w) as Hf. apply not_elem_of_dom in Hf.
      unfold childrenOf in Hx. fold e in Hf. rewrite Hf in Hx. by apply elem_of_nil in Hx.
    - subst wc. by rewrite childrenOf_store_ne. }
  destruct (linkToAncestor_nested E e after chain f Hanc Hafter Hsib) with
    (walk := chain) (prefix := @nil ElementId) (from := getParent scene E) (k := f)
    (wc := wc) as (w2 & Hret & Hnest2 & Hreg2 & Hout & Hhost); try done.
  { intros pre a rest w0 Hsplit Hcl0 Hnest0.
    apply (IH rest a f w0); try done.
    - subst chain. rewrite length_app in Hn. simpl in Hn. lia.
    - split.
      + subst chain. by apply ancestry_app in Hanc as (mid & _ & [_ ?]).
      + intros x Hx. apply Hsc. right. subst chain. apply elem_of_app. by right.
    - subst chain. rewrite length_app in Hfuel. simpl in Hfuel. lia. }
  { lia. }
  rewrite Hret. cbn [mbind Outcome_bind bind]. eexists _, _. split; [done|].
  assert (HE : getEditor w2 E = None).
  { rewrite Hout by (by apply ancestry_acyclic). exact Hslot. }
  split.
  - intros s r chain' a' Hs Hanc' Hpass' Ha'.
    change (childrenOf (with_attachment _ w2)) with (childrenOf w2).
    assert (Hpass2 : Forall (passed_over scene w2) chain').
    { eapply Forall_impl; [exact Hpass'|]. intros x [Hx Hxr]. split; [|done].
      unfold getEditor in Hx. simpl in Hx.
      destruct (decide (E = x)) as [<-|Hne]; [by rewrite lookup_insert_eq in Hx|].
      by rewrite lookup_insert_ne in Hx. }
    assert (Ha2 : is_Some (getEditor w2 a') ∨ is_Some (_Editors w2 !! getTypeId scene a')).
    { destruct (decide (E = a')) as [<-|Hne].
      - right. rewrite Hreg2. change (_Editors wc) with (_Editors w). eauto.
      - destruct Ha' as [Ha'|Ha']; [left|by right].
        unfold getEditor in Ha'. simpl in Ha'. by rewrite lookup_insert_ne in Ha'. }
    assert (Hkeep : ∀ pe, getEditor w2 a' = Some pe →
                          getEditor (with_attachment (<[E := e]> (attachment w2)) w2) a'
                          = Some pe).
    { intros pe Hpe. unfold getEditor. simpl. rewrite lookup_insert_ne; [done|].
      intros <-. congruence. }
    unfold getEditor in Hs. simpl in Hs.
    destruct (decide (E = s)) as [<-|Hne].
    + rewrite lookup_insert_eq in Hs. injection Hs as <-.
      destruct Hhost as [Hall|(prefix' & a & pe & Hanc2 & Hpre2 & Hpe & Hin)].
      * destruct (ancestry_prefix _ _ _ _ Hanc' Hanc) as [rest ->].
        apply Forall_app in Hall as [_ [[Hno Hnr] _]%Forall_cons_1].
        rewrite Hno, Hnr in Ha2. destruct Ha2 as [[? ?]|[? ?]]; done.
      * destruct (ancestry_host_unique w2 _ _ _ _ _ Hanc' Hanc2 Hpass2 Hpre2) as [-> ->].
        -- intros [Hno Hnr]. rewrite Hno, Hnr in Ha2. destruct Ha2 as [[? ?]|[? ?]]; done.
        -- intros [Hno _]. congruence.
        -- exists pe. auto.
    + rewrite lookup_insert_ne in Hs by done.
      destruct (Hnest2 s r chain' a' Hs Hanc' Hpass2 Ha2) as (pe & Hpe & Hin).
      exists pe. auto.
  - intros x Hx. unfold getEditor at 1. simpl.
    rewrite lookup_insert_ne by (intros <-; apply Hx; left).
    change (attachment w2 !! x) with (getEditor w2 x).
    rewrite Hout by (intros Hin; apply Hx; by right). done.
Qed.

(** Claim C3. Let [E] be an attached element whose class has a registered
    editor. (1) Let [E] have no editor, in a store without dangling
    identity whose editors are nested like the elements of the scene (the
    empty store is, and [openEditor] keeps both), with [E] and its
    ancestors attached, up to a root. Then [openEditor(E)] returns a new
    editor [e], attached to [E], in a store that is again without dangling
    identity and nested; [closeEditor(E)] then returns, the slot of [E] is
    empty again, and no editor of the store (so none that the call
    created) has [e] among its sub editors or as its [_parentEditor].
    (2) Let [E] have an editor, in a tidy store with finite editor trees.
    Then [openEditor(E)] returns that editor and the store as it was,
    having created nothing, and [closeEditor(E)] returns with the slot of
    [E] empty and the same objects in the store. A store in which
    [closeEditor] has passed by a sub editor need not be nested, and
    [openEditor] can throw there. *)
Theorem closeEditor_undoes_openEditor E w :
  isAttached scene E = true →
  is_Some (_Editors w !! getTypeId scene E) →
  (∀ chain m fuel fuel',
     getEditor w E = None →
     closed w → nested scene w →
     below_root scene E chain m →
     length chain + m + 2 ≤ fuel →
     ∃ e w1 w2,
       openEditor scene fuel E w = Returns (Some e, w1)
       ∧ e ∉ dom (heap w)
       ∧ getEditor w1 E = Some e
       ∧ closed w1 ∧ nested scene w1
       ∧ closeEditor scene (S fuel') E w1 = Returns w2
       ∧ getEditor w2 E = None
       ∧ ∀ j, e ∉ childrenOf w2 j ∧ parentOf w2 j ≠ Some e)
  ∧ (∀ e0 n m fuel fuel',
       getEditor w E = Some e0 →
       tidy w →
       finite_below w n e0 →
       (∀ j, length (childrenOf w j) ≤ m) →
       n + m < fuel' →
       ∃ w2,
         openEditor scene (S fuel) E w = Returns (Some e0, w)
         ∧ closeEditor scene fuel' E w = Returns w2
         ∧ getEditor w2 E = None
         ∧ dom (heap w2) = dom (heap w)).
Proof.
  intros Hatt Hreg. split.
  - intros chain m fuel fuel' Hslot Hcl Hnest Hscene Hfuel.
    destruct (openEditor_nested m (S (length chain)) chain E fuel w)
      as (r & w1 & Hopen & Hnest1 & _); try done; [lia|].
    destruct (closeEditor_after_openEditor scene E w fuel fuel' r w1 Hreg Hcl Hslot Hopen)
      as (e & w2 & -> & Hslot1 & Hclose & Hnone & Hlinks).
    destruct (openEditor_post scene _ _ _ _ _ Hopen Hcl) as [Hcl1 _ _ _ _ Hnew].
    destruct (Hnew Hslot e eq_refl) as [Hfresh _].
    exists e, w1, w2. done.
  - intros e0 n m fuel fuel' Hslot Htidy Hfin Hm Hfuel.
    destruct (closeEditor_returns scene m n fuel' w E) as (w2 & Hret & _ & Hsh & Hnone);
      try done.
    { intros e He. assert (e = e0) as -> by congruence. done. }
    exists w2. split; [simpl; by rewrite Hatt, Hslot|]. split; [done|].
    split; [by apply Hnone|]. by destruct Hsh as (? & _).
Qed.
End NestingProperties.

(** ** The properties on the sample data *)

Example sampleRootOpen_by_openEditor :
  openEditor sampleScene 1 0 sampleRegistered = Returns (Some 0, sampleRootOpen).
Proof. vm_compute. reflexivity. Qed.

Lemma openEditor_keeps_document_order_witness :
  (∃ w', openAll sampleScene 5 [2; 1] sampleRootOpen = Returns w'
         ∧ in_document_order w' 0 [1; 2]
         ∧ childrenOf w' 0 = [2; 1]
         ∧ editorsIn w' [1; 2] = [2; 1])
  ∧ (∃ w', openAll sampleScene 5 [2; 1] sampleRegistered = Returns w'
           ∧ in_document_order w' 0 [1; 2]
           ∧ childrenOf w' 1 = [2; 0]
           ∧ editorsIn w' [1; 2] = [2; 0]).
Proof.
  destruct (openEditor_keeps_document_order (PartId:=Z) sampleScene 0 (Some 1)
              [1; 2] 5)
    as (Hseq & _ & Hroot).
  - simpl. auto.
  - intros c Hc. split; [|reflexivity].
    apply elem_of_cons in Hc as [->|Hc]; [reflexivity|].
    apply list_elem_of_singleton in Hc as ->. reflexivity.
  - simpl. lia.
  - split.
    + destruct (Hseq sampleRootOpen [2; 1]) as (w' & Hrun & Horder & _).
      * split.
        -- intros pe Hpe. vm_compute in Hpe. injection Hpe as <-. split.
           ++ vm_compute. eauto.
           ++ intros x Hx. vm_compute in Hx. by apply elem_of_nil in Hx.
        -- intros c e Hc He. exfalso.
           apply elem_of_cons in Hc as [->|Hc]; [vm_compute in He; discriminate|].
           apply list_elem_of_singleton in Hc as ->. vm_compute in He. discriminate.
      * exists 0. split; reflexivity.
      * intros c Hc. set_solver.
      * exists w'. split; [exact Hrun|]. split; [exact Horder|].
        vm_compute in Hrun. injection Hrun as <-. split; reflexivity.
    + destruct (Hroot sampleRegistered [2; 1]) as (w' & Hrun & Horder & _).
      * reflexivity.
      * reflexivity.
      * vm_compute. eauto.
      * reflexivity.
      * intros c Hc. reflexivity.
      * intros c Hc. set_solver.
      * exists 2. split; [set_solver|]. vm_compute. eauto.
      * exists w'. split; [exact Hrun|]. split; [exact Horder|].
        vm_compute in Hrun. injection Hrun as <-. split; reflexivity.
Defined.

Lemma openEditor_idempotent_witness :
  openEditor sampleScene 1 0 sampleRootOpen = Returns (Some 0, sampleRootOpen).
Proof.
  exact (proj1 (openEditor_idempotent sampleScene 0) sampleRootOpen 0 0 eq_refl eq_refl).
Defined.

Lemma sampleRegistered_closed : closed sampleRegistered.
Proof.
  split; [|split].
  - intros el e H. vm_compute in H. discriminate.
  - intros j c H. vm_compute in H. by apply elem_of_nil in H.
  - intros j p H. vm_compute in H. discriminate.
Defined.

Lemma sampleTree_finite : finite_below sampleTree 2 0.
Proof.
  split; [vm_compute; eauto|].
  repeat constructor; vm_compute; eauto.
Defined.

Lemma sampleScene_below_root : below_root sampleScene 1 [0] 1.
Proof.
  split; [by simpl|]. intros x Hx. split; [reflexivity|].
  apply elem_of_cons in Hx as [->|Hx]; [|apply list_elem_of_singleton in Hx as ->].
  - exists [2]. split; [by simpl|]. split; [simpl; lia|].
    intros s Hs. by apply list_elem_of_singleton in Hs as ->.
  - exists []. split; [by simpl|]. split; [simpl; lia|].
    intros s Hs. by apply elem_of_nil in Hs.
Defined.

Lemma sampleTree_heap j :
  heap sampleTree !! j
  = match j with
    | 0 => Some (with_editors (Some [1; 2]) (with_flags Flag.Selected (newEditor 0)))
    | 1 => Some (with_parentEditor (Some 0) (with_flags Flag.Selected (newEditor 1)))
    | 2 => Some (with_parentEditor (Some 0) (with_flags Flag.Selected (newEditor 2)))
    | _ => None
    end.
Proof.
  destruct j as [|[|[|j]]]; [reflexivity..|].
  unfold sampleTree. simpl. rewrite !lookup_insert_ne by lia.
  by rewrite lookup_singleton_ne by lia.
Defined.

Lemma sampleTree_attachment el :
  attachment sampleTree !! el
  = match el with 0 => Some 0 | 1 => Some 1 | 2 => Some 2 | _ => None end.
Proof.
  destruct el as [|[|[|el]]]; [reflexivity..|].
  unfold sampleTree. simpl. rewrite !lookup_insert_ne by lia.
  by rewrite lookup_singleton_ne by lia.
Defined.

Lemma sampleTree_tidy : tidy sampleTree.
Proof.
  assert (Hdom : ∀ j, j < 3 → j ∈ dom (heap sampleTree)).
  { intros j Hj. apply elem_of_dom. rewrite sampleTree_heap.
    destruct j as [|[|[|j]]]; eauto. lia. }
  split; [split; [|split]|split].
  - intros el e. rewrite sampleTree_attachment.
    destruct el as [|[|[|el]]]; intros [= <-]; apply Hdom; lia.
  - intros j c. unfold childrenOf. rewrite sampleTree_heap.
    destruct j as [|[|[|j]]]; simpl; intros Hc; try by apply elem_of_nil in Hc.
    apply elem_of_cons in Hc as [->|Hc]; [apply Hdom; lia|].
    apply list_elem_of_singleton in Hc as ->. apply Hdom; lia.
  - intros j p. unfold parentOf. rewrite sampleTree_heap.
    destruct j as [|[|[|j]]]; simpl; intros [= <-]; apply Hdom; lia.
  - intros c p. unfold parentOf, childrenOf. rewrite !sampleTree_heap.
    destruct c as [|[|[|c]]]; simpl; intros [= <-]; simpl; set_solver.
  - intros p c el e. unfold childrenOf, elementOf, getEditor.
    rewrite !sampleTree_heap, sampleTree_attachment.
    destruct p as [|[|[|p]]]; simpl; intros Hc; try by apply elem_of_nil in Hc.
    apply elem_of_cons in Hc as [->|Hc]; [|apply list_elem_of_singleton in Hc as ->];
      simpl; intros [= <-] [= <-]; done.
Defined.

Lemma sampleTree_children j : length (childrenOf sampleTree j) ≤ 2.
Proof.
  unfold childrenOf. rewrite sampleTree_heap.
  destruct j as [|[|[|j]]]; simpl; lia.
Defined.

Lemma closeEditor_undoes_openEditor_witness :
  (∃ e w1 w2,
     openEditor sampleScene 4 1 sampleRegistered = Returns (Some e, w1)
     ∧ e ∉ dom (heap sampleRegistered)
     ∧ getEditor w1 1 = Some e
     ∧ closed w1 ∧ nested sampleScene w1
     ∧ closeEditor sampleScene 1 1 w1 = Returns w2
     ∧ getEditor w2 1 = None
     ∧ ∀ j, e ∉ childrenOf w2 j ∧ parentOf w2 j ≠ Some e)
  ∧ (∃ w2,
       openEditor sampleScene 1 0 sampleTree = Returns (Some 0, sampleTree)
       ∧ closeEditor sampleScene 5 0 sampleTree = Returns w2
       ∧ getEditor w2 0 = None
       ∧ dom (heap w2) = dom (heap sampleTree)).
Proof.
  split.
  - apply (proj1 (closeEditor_undoes_openEditor sampleScene 1 sampleRegistered
                    eq_refl (ex_intro _ 7 eq_refl)) [0] 1 4 0).
    + reflexivity.
    + exact sampleRegistered_closed.
    + apply nested_no_attachment. reflexivity.
    + exact sampleScene_below_root.
    + simpl. lia.
  - apply (proj2 (closeEditor_undoes_openEditor sampleScene 0 sampleTree
                    eq_refl (ex_intro _ 7 eq_refl)) 0 2 2 0 5).
    + reflexivity.
    + exact sampleTree_tidy.
    + exact sampleTree_finite.
    + exact sampleTree_children.
    + lia.
Defined.

(** Where the store is not nested: after the three editors of
    [sampleScene] are opened and the editor of the root is closed, the
    editor of element 2 is still attached, and the root has no editor;
    [openEditor] on element 1 then opens the root again and throws when
    it looks for the editor of element 2 in the new editor of the root. *)
Example openEditor_throws_where_not_nested :
  ∃ w3 w4,
    openAll sampleScene 4 [0; 1; 2] sampleRegistered = Returns w3
    ∧ closeEditor sampleScene 3 0 w3 = Returns w4
    ∧ getEditor w4 0 = None ∧ getEditor w4 1 = None ∧ getEditor w4 2 = Some 2
    ∧ ¬ nested sampleScene w4
    ∧ openEditor sampleScene 4 1 w4 = Throws TypeError.
Proof.
  eexists _, _. split; [vm_compute; reflexivity|]. split; [vm_compute; reflexivity|].
  split; [reflexivity|]. split; [reflexivity|]. split; [reflexivity|].
  split; [|vm_compute; reflexivity].
  intros Hnested. destruct (Hnested 2 2 [] 0) as (pe & Hpe & _).
  - reflexivity.
  - reflexivity.
  - constructor.
  - right. exists 7. reflexivity.
  - vm_compute in Hpe. discriminate.
Qed.

(** The loop of [closeEditor] runs over the array it empties: closing the
    editor of the root of [sampleTree] closes its first sub editor, then
    finds no entry at index 1, so the editor of element 2 stays attached
    below a detached parent. *)
Example closeEditor_skips_second_sub_editor :
  ∃ w', closeEditor sampleScene 3 0 sampleTree = Returns w'
        ∧ getEditor w' 0 = None
        ∧ getEditor w' 1 = None
        ∧ getEditor w' 2 = Some 2
        ∧ parentOf w' 2 = Some 0
        ∧ childrenOf w' 0 = [2].
Proof. eexists. split; [vm_compute; reflexivity|]. vm_compute. repeat split. Qed.

Lemma getPartInfoAt_topmost_first_witness :
  sampleHitTest 2 sampleTree 0 = Returns (Some 2, [AcceptorCall 2; PartLookup 2]).
Proof.
  destruct (getPartInfoAt_topmost_first sampleGeometry
              (λ i _ _ _, Some i) (Some (λ _ _, true))
              (mkGPoint 1 1) (mkGTransform 1 0 0 1 0 0)
              sampleTree 0
              (with_editors (Some [1; 2]) (with_flags Flag.Selected (newEditor 0)))
              0 eq_refl)
    as (_ & _ & _ & _ & Hlater & _).
  exact (Hlater 1 2
           (with_parentEditor (Some 0) (with_flags Flag.Selected (newEditor 2)))
           2 eq_refl eq_refl eq_refl eq_refl).
Defined.

(** Claim C4 as stated fails here: editor 2 is inserted first and editor 1
    later (before 2, as [openEditor] does for an earlier sibling). Both
    are accepted and contain the location, each hits when tested alone,
    and the test on their parent returns the part of 2, the one that was
    inserted first. *)
Lemma getPartInfoAt_later_inserted_loses :
  ∃ w1 w2,
    insertEditor 0 2 None sampleParentless = Returns w1
    ∧ insertEditor 0 1 (Some 2) w1 = Returns w2
    ∧ childrenOf w2 0 = [1; 2]
    ∧ sampleHitTest 1 w2 1 = Returns (Some 1, [AcceptorCall 1; PartLookup 1])
    ∧ sampleHitTest 1 w2 2 = Returns (Some 2, [AcceptorCall 2; PartLookup 2])
    ∧ sampleHitTest 2 w2 0 = Returns (Some 2, [AcceptorCall 2; PartLookup 2])
    ∧ sampleHitTest 2 w2 0 ≠ Returns (Some 1, [AcceptorCall 1; PartLookup 1]).
Proof.
  eexists _, _. split; [vm_compute; reflexivity|]. split; [vm_compute; reflexivity|].
  vm_compute. repeat split. discriminate.
Qed.

Lemma updatePartSelection_toggle_self_inverse_witness :
  let '(this1, host1) :=
    updatePartSelection sampleEquals true (Some [2; 3]%Z) sampleSelected [] in
  let '(this2, host2) :=
    updatePartSelection sampleEquals true (Some [2; 3]%Z) this1 host1 in
  _partSelection this1 = Some [1; 3]%Z
  ∧ ∀ id, id ∈ selectedIds (_partSelection this2)
          ↔ id ∈ selectedIds (_partSelection sampleSelected).
Proof.
  pose proof (updatePartSelection_toggle_self_inverse sampleEquals
                (λ a b H, eq_ind_r (λ a0, ∀ id, id ∈ selectedIds a0 ↔ id ∈ selectedIds b)
                            (λ id, conj (λ x, x) (λ x, x))
                            (bool_decide_eq_true_1 _ H))
                [2; 3]%Z sampleSelected [] eq_refl) as H.
  destruct (updatePartSelection sampleEquals true (Some [2; 3]%Z) sampleSelected [])
    as [this1 host1] eqn:E1.
  destruct (updatePartSelection sampleEquals true (Some [2; 3]%Z) this1 host1)
    as [this2 host2] eqn:E2.
  destruct H as [Hrestored Hformula]. split; [|exact Hrestored].
  rewrite (Hformula [1; 2]%Z eq_refl); [reflexivity | discriminate].
Defined.

Lemma applyTransform_commits_staged_once_witness :
  ∃ this' rest,
    applyTransform sampleIsIdentity 3 sampleStaged []
    = Returns (this', [] ++ ElementTransform 3 sampleShift :: rest)
    ∧ Forall (λ c, isInvalidation c = true) rest
    ∧ _transform this' = None
    ∧ hasFlag Flag.Outline this' = false.
Proof.
  exact (applyTransform_commits_staged_once sampleIsIdentity sampleStaged [] 3
           sampleShift eq_refl eq_refl).
Defined.

Lemma applyTransform_without_staged_transform_throws_witness :
  applyTransform sampleIsIdentity 3 (newEditor (PartId:=Z) 0) [] = Throws TypeError.
Proof.
  exact (applyTransform_without_staged_transform_throws sampleIsIdentity
           (newEditor 0) [] 3 eq_refl).
Defined.

Lemma structural_primitives_check_their_preconditions_witness :
  (∃ t, removeEditor 0 1 sampleLoose = Throws t)
  ∧ (∃ t, insertEditor 0 1 (Some 5) sampleLoose = Throws t)
  ∧ ∃ w', insertEditor 0 1 None sampleLoose = Returns w'
          ∧ parentOf w' 1 = Some 0
          ∧ childrenOf w' 0 = [1]
          ∧ ∃ t, insertEditor 0 1 None w' = Throws t.
Proof.
  destruct (structural_primitives_check_their_preconditions sampleLoose 0 1)
    as (_ & Href & Hrem & Hins & _).
  split; [|split].
  - apply Hrem. vm_compute. apply not_elem_of_nil.
  - apply Href. vm_compute. apply not_elem_of_nil.
  - destruct (Hins None) as (w' & Hret & Hpar & Hch).
    + vm_compute. eauto.
    + vm_compute. eauto.
    + reflexivity.
    + intros r [=].
    + exists w'. split; [exact Hret|]. split; [exact Hpar|]. split; [exact Hch|].
      destruct (structural_primitives_check_their_preconditions w' 0 1)
        as (Happ & _).
      apply Happ. rewrite Hpar. eauto.
Defined.

Lemma setFlag_removeFlag_round_trip_witness :
  fst (removeFlag Flag.Selected
         (fst (setFlag Flag.Selected (newEditor (PartId:=Z) 0) [])) [])
  = newEditor 0
  ∧ fst (setFlag Flag.Selected (fst (removeFlag Flag.Selected samplePlain [])) [])
    = samplePlain.
Proof.
  split.
  - exact (proj1 (setFlag_removeFlag_round_trip (newEditor 0) [] [])
             Flag.Selected eq_refl).
  - exact (proj2 (proj2 (setFlag_removeFlag_round_trip samplePlain [] []))
             FSelected eq_refl).
Defined.

Lemma flags_do_not_interfere_witness :
  hasFlag Flag.Selected (fst (setFlag Flag.Outline samplePlain [])) = true
  ∧ hasFlag Flag.Selected (fst (removeFlag Flag.Outline sampleStaged [])) = false.
Proof.
  destruct (proj1 (flags_do_not_interfere samplePlain []) FOutline FSelected)
    as [Hset _]; [discriminate|].
  destruct (proj1 (flags_do_not_interfere sampleStaged []) FOutline FSelected)
    as [_ Hrem]; [discriminate|].
  split; [exact Hset|exact Hrem].
Defined.

Lemma transform_resetTransform_round_trip_witness :
  fst (resetTransform sampleIsIdentity
         (fst (transform sampleTransformEquals sampleShift samplePlain [])) [])
  = samplePlain.
Proof.
  exact (transform_resetTransform_round_trip sampleIsIdentity sampleTransformEquals
           sampleShift samplePlain [] [] eq_refl eq_refl).
Defined.

Lemma applyTransform_is_single_use_witness :
  ∃ this' host',
    applyTransform sampleIsIdentity 3 sampleStaged [] = Returns (this', host')
    ∧ applyTransform sampleIsIdentity 3 this' host' = Throws TypeError
    ∧ this' = newEditor 0.
Proof.
  destruct (applyTransform sampleIsIdentity 3 sampleStaged [])
    as [[this' host']| |] eqn:Hrun; [|vm_compute in Hrun; discriminate..].
  destruct (applyTransform_is_single_use sampleIsIdentity sampleStaged [] 3
              this' host' Hrun) as (Hagain & Hthis & _).
  exists this', host'. split; [reflexivity|]. split; [apply Hagain|].
  rewrite Hthis. reflexivity.
Defined.

Lemma annotations_hidden_while_staged_witness :
  _showAnnotations samplePlain = true
  ∧ _showAnnotations
      (fst (transform sampleTransformEquals sampleShift samplePlain [])) = false
  ∧ _showAnnotations (fst (resetTransform sampleIsIdentity sampleStaged [])) = false.
Proof.
  destruct (annotations_hidden_while_staged sampleIsIdentity sampleTransformEquals
              sampleShift samplePlain []) as [Hhidden _].
  destruct (annotations_hidden_while_staged sampleIsIdentity sampleTransformEquals
              sampleShift sampleStaged []) as [_ Hreset].
  split; [reflexivity|]. split; [apply Hhidden; reflexivity|exact Hreset].
Defined.

Lemma annotationBBox_holds_center_witness :
  fst (_getAnnotationBBox (λ _ p, p) None (mkGPoint (5 # 2) (7 # 2)) false tt)
  = fst (_getAnnotationBBox (λ _ p, p) None (mkGPoint (11 # 4) (15 # 4)) false tt).
Proof.
  destruct (annotationBBox_holds_center (λ _ p, p) None (mkGPoint (5 # 2) (7 # 2))
              (mkGPoint (11 # 4) (15 # 4)) false tt) as (_ & _ & _ & _ & _ & _ & Hsame).
  apply Hsame; reflexivity.
Defined.

Lemma _indexOfPartId_first_position_witness :
  _indexOfPartId (Some [1; 2; 3; 2]%Z) 2%Z = Some 1
  ∧ isPartSelected 2%Z sampleSelected = true.
Proof.
  destruct (_indexOfPartId_first_position (Some [1; 2; 3; 2]%Z) 2%Z sampleSelected)
    as (Hfirst & _ & Hsel).
  split.
  - apply Hfirst. exists [1; 2; 3; 2]%Z. split; [reflexivity|]. split; [reflexivity|].
    intros [|j] Hj; [discriminate|lia].
  - apply Hsel. simpl. set_solver.
Defined.

Lemma sampleEquals_sound (a b : option (list Z)) :
  sampleEquals a b = true → ∀ id, id ∈ selectedIds a ↔ id ∈ selectedIds b.
Proof.
  intros H. apply bool_decide_eq_true_1 in H. subst b. intros id. reflexivity.
Defined.

Lemma updatePartSelection_keeps_selection_well_formed_witness :
  NoDup (selectedIds
           (_partSelection
              (fst (updatePartSelection sampleEquals true (Some [2; 3]%Z)
                      sampleSelected [])))).
Proof.
  destruct (updatePartSelection_keeps_selection_well_formed sampleEquals true
              (Some [2; 3]%Z) sampleSelected []) as (_ & _ & _ & Hnd & _).
  apply Hnd; simpl; repeat constructor; set_solver.
Defined.

Lemma updatePartSelection_overwrite_then_isPartSelected_witness :
  isPartSelected 3%Z
    (fst (updatePartSelection sampleEquals false (Some [3; 4]%Z) sampleSelected []))
  = true.
Proof.
  destruct (updatePartSelection_overwrite_then_isPartSelected sampleEquals
              sampleEquals_sound (Some [3; 4]%Z) sampleSelected [] 3%Z eq_refl)
    as [Hiff _].
  apply Hiff. simpl. set_solver.
Defined.

Lemma updatePartSelection_toggle_empty_or_null_witness :
  _partSelection (fst (updatePartSelection sampleEquals true (Some []) sampleSelected []))
  = Some [1; 2]%Z
  ∧ selectedIds
      (_partSelection (fst (updatePartSelection sampleEquals true None sampleSelected [])))
    = [].
Proof.
  destruct (updatePartSelection_toggle_empty_or_null sampleEquals sampleEquals_sound
              sampleSelected [] eq_refl) as (_ & Hkept & Hcleared).
  split; [|exact Hcleared]. rewrite Hkept; [reflexivity|discriminate].
Defined.

Lemma no_templates_built : templates_built sampleCos ∅.
Proof. intros annotation t H. rewrite lookup_empty in H. discriminate. Defined.

Lemma annotation_templates_are_memoized_witness :
  let t := fst (_getAnnotationTemplate sampleCos Annotation.Rectangle ∅) in
  let templates := snd (_getAnnotationTemplate sampleCos Annotation.Rectangle ∅) in
  _getAnnotationTemplate sampleCos Annotation.Rectangle templates = (t, templates)
  ∧ scaleFactor t = 1%Q.
Proof.
  destruct (annotation_templates_are_memoized sampleCos Annotation.Rectangle ∅
              no_templates_built) as (_ & _ & _ & _ & Hagain & _ & Hscale).
  split; [exact Hagain|]. apply Hscale. discriminate.
Defined.

Lemma annotation_is_painted_inside_its_box_witness :
  ∃ source t rest,
    canvas (fst (_paintAnnotation (λ _ p, p) sampleCos sampleBuild sampleContext None
                   (mkGPoint (5 # 2) (7 # 2)) Annotation.Circle true false ∅))
    = PutVertices source t :: rest
    ∧ (rectX (fst (_getAnnotationBBox (λ _ p, p) None (mkGPoint (5 # 2) (7 # 2))
                     false sampleContext))
       <= t_tx t - t_sx t - (1 # 2))%Q.
Proof.
  destruct (annotation_is_painted_inside_its_box (λ _ p, p) sampleCos sampleBuild
              sampleContext None (mkGPoint (5 # 2) (7 # 2)) Annotation.Circle
              true false ∅ no_templates_built)
    as (source & t & Hcalls & _ & _ & _ & _ & _ & _ & Hleft & _); [discriminate|].
  exists source, t. eexists. split; [exact Hcalls|exact Hleft].
Defined.

Lemma diamond_annotation_exceeds_its_box_witness :
  ∃ source t rest,
    canvas (fst (_paintAnnotation (λ _ p, p) sampleCos sampleBuild sampleContext None
                   (mkGPoint (5 # 2) (7 # 2)) Annotation.Diamond false false ∅))
    = PutVertices source t :: rest
    ∧ (t_tx t - t_sx t
       < rectX (fst (_getAnnotationBBox (λ _ p, p) None (mkGPoint (5 # 2) (7 # 2))
                       false sampleContext)))%Q.
Proof.
  destruct (diamond_annotation_exceeds_its_box (λ _ p, p) sampleCos sampleBuild
              sampleContext None (mkGPoint (5 # 2) (7 # 2)) false false ∅
              no_templates_built eq_refl eq_refl (or_introl eq_refl))
    as (source & t & rest & Hcalls & _ & _ & Hout).
  exists source, t, rest. split; [exact Hcalls|exact Hout].
Defined.

Lemma accept_visits_in_preorder_witness :
  accept noting 2 sampleTree 0 [] = Returns (true, [0; 1; 2])
  ∧ accept (λ i _ s, (bool_decide (i = 1), s ++ [i])) 2 sampleTree 0 []
    = Returns (false, [0; 1]).
Proof.
  split.
  - exact (proj1 (accept_visits_in_preorder noting sampleTree 2 0 []
                    sampleTree_finite)).
  - exact (proj2 (accept_visits_in_preorder
                    (λ i _ s, (bool_decide (i = 1), s ++ [i])) sampleTree 2 0 []
                    sampleTree_finite)
             [0] 1
             (with_parentEditor (Some 0) (with_flags Flag.Selected (newEditor 1)))
             [2] eq_refl eq_refl eq_refl eq_refl).
Defined.

Lemma getPartInfoAt_only_looks_up_hittable_editors_witness :
  ∃ i_, heap sampleTree !! 2 = Some i_
        ∧ (hasFlag Flag.Selected i_ = true ∨ hasFlag Flag.Highlighted i_ = true)
        ∧ last [AcceptorCall 2; PartLookup 2] = Some (PartLookup 2).
Proof.
  destruct (getPartInfoAt_only_looks_up_hittable_editors sampleGeometry
              (λ i _ _ _, Some i) (Some (λ _ _, true))
              (mkGPoint 1 1) (mkGTransform 1 0 0 1 0 0)
              sampleTree 2 0 (Some 2) [AcceptorCall 2; PartLookup 2] eq_refl)
    as [Hlook Hfound].
  destruct (Hlook 2) as (_ & i_ & bbox & Hi & _ & Hflag & _); [simpl; set_solver|].
  destruct (Hfound 2 eq_refl) as (i & i' & Hlast & _).
  exists i_. split; [exact Hi|]. split; [exact Hflag|reflexivity].
Defined.

Lemma hit_test_asks_in_reverse_visiting_order_witness :
  ∃ probes visits,
    getPartInfoAt (Part:=nat) sampleGeometry Prototype._getPartInfoAt
      (Some (λ _ _, true)) (mkGPoint 1 1) (mkGTransform 1 0 0 1 0 0) 2 sampleTree 0
    = Returns (None, probes)
    ∧ accept noting 2 sampleTree 0 [] = Returns (true, visits)
    ∧ acceptorCalls probes = reverse visits
    ∧ last (acceptorCalls probes) = Some 0
    ∧ head visits = Some 0.
Proof.
  exact (hit_test_asks_in_reverse_visiting_order sampleGeometry (λ _ _, true)
           (mkGPoint 1 1) (mkGTransform 1 0 0 1 0 0) sampleTree 2 0
           sampleTree_finite).
Defined.

Lemma insertEditor_removeEditor_round_trip_witness :
  (∃ w1 w2, insertEditor 0 1 None sampleLoose = Returns w1
            ∧ removeEditor 0 1 w1 = Returns w2
            ∧ heap w2 = <[0 := with_editors (Some []) (newEditor 0)]> (heap sampleLoose))
  ∧ (∃ w1 w2, removeEditor 0 1 sampleTree = Returns w1
              ∧ childrenOf w1 0 = [2]
              ∧ insertEditor 0 1 (Some 2) w1 = Returns w2
              ∧ w2 = sampleTree).
Proof.
  split.
  - destruct (proj1 (insertEditor_removeEditor_round_trip sampleLoose 0 1
                       ltac:(discriminate)) None (newEditor 0))
      as (w1 & w2 & Hins & Hrem & Hheap & _).
    + reflexivity.
    + vm_compute. eauto.
    + reflexivity.
    + intros r [=].
    + vm_compute. apply not_elem_of_nil.
    + exists w1, w2. split; [exact Hins|]. split; [exact Hrem|exact Hheap].
  - destruct (proj2 (insertEditor_removeEditor_round_trip sampleTree 0 1
                       ltac:(discriminate)) [] [2])
      as (w1 & w2 & H).
    + vm_compute. eauto.
    + reflexivity.
    + reflexivity.
    + repeat constructor; set_solver.
    + exists w1, w2. exact H.
Defined.

Lemma openEditor_links_to_nearest_editor_witness :
  ∃ w', openEditor sampleNestedScene 3 2 sampleRootOpen = Returns (Some 1, w')
        ∧ heap w' !! 1 = Some (with_parentEditor (Some 0) (newEditor 2))
        ∧ childrenOf w' 0 = [1]
        ∧ getEditor w' 1 = None.
Proof.
  destruct (openEditor_links_to_nearest_editor (PartId:=Z) sampleNestedScene
              2 [1] (Some 0) [] sampleRootOpen 3) as (_ & _ & Hlink).
  - reflexivity.
  - reflexivity.
  - exists 7. reflexivity.
  - simpl. auto.
  - intros a Ha. apply list_elem_of_singleton in Ha as ->. repeat split.
  - reflexivity.
  - simpl. lia.
  - destruct (Hlink 0 0 eq_refl eq_refl) as (w' & Hrun & Hatt & _ & He & Hins & _).
    + vm_compute. eauto.
    + intros r Hr. discriminate.
    + exists w'. split; [exact Hrun|]. split; [exact He|]. split; [exact Hins|].
      unfold getEditor. rewrite Hatt. reflexivity.
Defined.

Lemma closeEditor_closes_every_other_sub_editor_witness :
  ∃ w', closeEditor sampleScene 5 0 sampleTree = Returns w'
        ∧ getEditor w' 0 = None
        ∧ childrenOf w' 0 = [2]
        ∧ (getEditor w' 1 = None ∧ parentOf w' 1 = None)
        ∧ (getEditor w' 2 = Some 2 ∧ parentOf w' 2 = Some 0).
Proof.
  destruct (closeEditor_closes_every_other_sub_editor sampleScene 0 0 [1; 2]
              sampleTree 5) as (w' & Hrun & Hroot & _ & Hleft & Heach).
  - reflexivity.
  - exists 7. reflexivity.
  - reflexivity.
  - repeat constructor; set_solver.
  - intros c Hc. apply elem_of_cons in Hc as [->|Hc];
      [|apply list_elem_of_singleton in Hc as ->].
    + split; [reflexivity|]. split; [reflexivity|]. exists 1.
      split; [reflexivity|]. split; [reflexivity|]. exists 7. reflexivity.
    + split; [reflexivity|]. split; [reflexivity|]. exists 2.
      split; [reflexivity|]. split; [reflexivity|]. exists 7. reflexivity.
  - intros pp Hpp. vm_compute in Hpp. discriminate.
  - simpl. lia.
  - exists w'. split; [exact Hrun|]. split; [exact Hroot|]. split; [exact Hleft|].
    split.
    + exact (Heach 0 1 1 eq_refl eq_refl).
    + exact (Heach 1 2 2 eq_refl eq_refl).
Defined.

Lemma closeEditor_leaves_parent_editor_open_witness :
  ∃ e pe w1 w2,
    openEditor sampleScene 5 1 sampleRegistered = Returns (Some e, w1)
    ∧ getEditor w1 0 = Some pe
    ∧ childrenOf w1 pe = [e]
    ∧ closeEditor sampleScene 1 1 w1 = Returns w2
    ∧ getEditor w2 1 = None
    ∧ getEditor w2 0 = Some pe
    ∧ childrenOf w2 pe = []
    ∧ parentOf w2 e = None.
Proof.
  apply (closeEditor_leaves_parent_editor_open (PartId:=Z) sampleScene 0 (Some 1)
           [] 1 [2] sampleRegistered 5 0).
  - exact sampleRegistered_closed.
  - simpl. auto.
  - reflexivity.
  - reflexivity.
  - exists 7. reflexivity.
  - reflexivity.
  - reflexivity.
  - exists 7. reflexivity.
  - reflexivity.
  - simpl. set_solver.
  - intros c' Hc'. reflexivity.
  - simpl. lia.
Defined.

Lemma openEditor_throws_on_foreign_sibling_editor_witness :
  openEditor sampleScene 3 1 sampleApart = Throws TypeError.
Proof.
  apply (openEditor_throws_on_foreign_sibling_editor (PartId:=Z) sampleScene
           1 0 0 [2] 2 sampleApart 3).
  - reflexivity.
  - reflexivity.
  - exists 7. reflexivity.
  - reflexivity.
  - reflexivity.
  - vm_compute. eauto.
  - simpl. auto.
  - reflexivity.
  - vm_compute. apply not_elem_of_nil.
  - simpl. lia.
Defined.

Lemma openEditor_only_adds_witness :
  ∃ w', openEditor sampleScene 3 1 sampleRootOpen = Returns (Some 1, w')
        ∧ keeps_attachments sampleRootOpen w'
        ∧ getEditor w' 0 = Some 0
        ∧ getEditor w' 1 = Some 1.
Proof.
  assert (∃ w', openEditor sampleScene 3 1 sampleRootOpen = Returns (Some 1, w'))
    as [w' Hrun] by (eexists; vm_compute; reflexivity).
  exists w'. split; [exact Hrun|].
  destruct (openEditor_only_adds (PartId:=Z) sampleScene 3 1 sampleRootOpen
              (Some 1) w' Hrun) as (Hkept & _ & _ & Hret & _).
  split; [exact Hkept|]. split; [apply Hkept; reflexivity|]. apply Hret. reflexivity.
Defined.
